(** * narwhal: a pre-fork HTTP server (narwhal.py)

    A shallow embedding of [HTTPServer] and of the operating-system
    interface it drives.  One process is followed at a time: the
    supervisor, or a worker from the moment [os.fork] returns 0 in it.
    The operating system is a script of replies, read one per system
    call; the calls made and their results are recorded in a trace.
    A signal reaches the process at a system call or at a checkpoint,
    a point between two statements where the interpreter handles a
    pending signal before it goes on.  Checkpoints stand at the head
    of the supervisor's loop and, in the parent, after the return of
    [os.fork] and after the log record, before the append to
    [_workers]: a signal can separate a fork from its bookkeeping.
    These are the points at which the list of workers can fall out of
    step with the calls made.  Elsewhere (between the calls of
    start-up, of a worker and of the shutdown) no attribute of a
    running server changes, and a signal is taken at the next call.
    The script holds the signals the interpreter acts on: a SIGINT it
    discards, as when the exception is raised inside a hook that
    [logging] registers for [os.fork], is not in it.  Loops run on
    fuel; a run that uses up its fuel or its script is cut at that
    point, so that a statement about all scripts and all fuels is a
    statement about every point of every run. *)

From Stdlib Require Import List ZArith QArith String Ascii Strings.Byte.
From Stdlib Require Import DecimalString Bool Lia.
Import ListNotations.

Local Open Scope Z_scope.

(** ** Data model *)

(** A socket object, identified by its file descriptor. *)
Definition fd := Z.

(** A peer address of an AF_INET socket: the pair (host, port). *)
Definition address := (string * Z)%type.

(** The signals the supervisor may receive. *)
Inductive signal := SIGINT | SIGTERM.

(** Python exceptions that occur in this program.  [socket.error] is
    [OSError]; it carries [e.errno]. *)
Inductive exn :=
| OSError (errno : Z)
| KeyboardInterrupt
| SystemExit.

(** [errno.EAGAIN] (its Linux value; only equality with it is used). *)
Definition EAGAIN : Z := 11.

Inductive family := AF_INET.
Inductive socktype := SOCK_STREAM.
Inductive optlevel := IPPROTO_TCP | SOL_SOCKET.
Inductive optname := TCP_NODELAY | SO_REUSEADDR.

(** System calls, named after the Python calls that issue them. *)
Inductive call :=
| Fork                                                    (* os.fork() *)
| Kill (pid : Z) (sig : signal)                           (* os.kill(pid, sig) *)
| Select (rlist wlist xlist : list fd) (timeout : Q)      (* select.select(r, w, x, t) *)
| Accept (s : fd)                                         (* s.accept() *)
| SetBlocking (s : fd) (flag : Z)                         (* s.setblocking(flag) *)
| Recv (s : fd) (bufsize : Z)                             (* s.recv(bufsize) *)
| SendAll (s : fd) (data : list byte)                     (* s.sendall(data) *)
| Close (s : fd)                                          (* s.close() *)
| Socket (f : family) (t : socktype)                      (* socket.socket(family, type) *)
| SetSockOpt (s : fd) (l : optlevel) (o : optname) (v : Z)(* s.setsockopt(l, o, v) *)
| Bind (s : fd) (host : string) (port : Z)                (* s.bind((host, port)) *)
| Listen (s : fd) (backlog : Z).                          (* s.listen(backlog) *)

(** What the operating system answers at one point of interaction.
    In a script, [RBytes] is what the peer has sent so far, [RReady]
    the descriptors that are readable; in a trace they are what the
    call returned. *)
Inductive reply :=
| ROk                                 (* the call returns None *)
| RInt (n : Z)                        (* a pid (fork) or a new descriptor (socket) *)
| RReady (ready : list fd)            (* select: the readable descriptors *)
| RConn (conn : fd) (peer : address)  (* accept: the new connection *)
| RBytes (data : list byte)           (* recv *)
| RErr (errno : Z)                    (* the call fails: OSError(errno) *)
| RSignal (s : signal)                (* a signal is delivered at this point *)
| RTick.                              (* no signal is pending at a checkpoint *)

Inductive level := DEBUG | INFO.

(** Log records.  The texts are f' Started worker: {pid}' and
    f'{data}'; they are kept symbolic. *)
Inductive message :=
| Started_worker (pid : Z)
| Bytes_repr (data : list byte).

Inductive event :=
| EvCall (c : call) (r : reply)
| EvLog (l : level) (m : message)
| EvSignal (s : signal).

(** The attributes of an [HTTPServer] instance.  [logger] is the
    threshold given to [logging.basicConfig]. *)
Record HTTPServer := {
  _desired_worker_count : Z;
  _port : Z;
  logger : level;
  _workers : list Z;
  _listener : fd
}.

Record world := {
  self : HTTPServer;
  trace : list event;
  script : list reply
}.

(** ** Outcomes and the monad of the embedding *)

Inductive outcome (A : Type) :=
| Returned (a : A)       (* the call returns a *)
| Raised (e : exn)       (* an exception propagates *)
| Killed (s : signal)    (* the process is terminated by a signal *)
| Starved.               (* the script or the fuel is used up: the run is cut here *)

Arguments Returned {A} a.
Arguments Raised {A} e.
Arguments Killed {A} s.
Arguments Starved {A}.

Definition M (A : Type) := world -> outcome A * world.

Definition ret {A} (a : A) : M A := fun w => (Returned a, w).

Definition bind {A B} (m : M A) (k : A -> M B) : M B := fun w =>
  match m w with
  | (Returned a, w') => k a w'
  | (Raised e, w') => (Raised e, w')
  | (Killed s, w') => (Killed s, w')
  | (Starved, w') => (Starved, w')
  end.

Definition raise {A} (e : exn) : M A := fun w => (Raised e, w).

Definition starve {A} : M A := fun w => (Starved, w).

Declare Scope py_scope.
Delimit Scope py_scope with py.
Notation "x <- m ;; k" := (bind m (fun x => k))
  (at level 100, m at next level, right associativity) : py_scope.
Notation "m ;; k" := (bind m (fun _ => k))
  (at level 100, right associativity) : py_scope.
Local Open Scope py_scope.

(** [try: body except <classes>: handler]: [handler e] is [None]
    when no except clause matches [e]. *)
Definition try_except {A} (body : M A) (handler : exn -> option (M A)) : M A :=
  fun w =>
    match body w with
    | (Raised e, w') =>
        match handler e with
        | Some h => h w'
        | None => (Raised e, w')
        end
    | r => r
    end.

Inductive ctl := Continue | Break.

(** [while True: body], where [body] says whether it ran into [break]. *)
Fixpoint loop (fuel : nat) (body : M ctl) : M unit :=
  match fuel with
  | O => starve
  | S n =>
      c <- body ;;
      match c with
      | Continue => loop n body
      | Break => ret tt
      end
  end.

(** [for x in l: f(x)] *)
Fixpoint for_each {A} (l : list A) (f : A -> M unit) : M unit :=
  match l with
  | [] => ret tt
  | x :: l' => f x ;; for_each l' f
  end.

(** ** The operating system *)

Definition step (e : event) (rest : list reply) (w : world) : world :=
  {| self := self w; trace := trace w ++ [e]; script := rest |}.

(** The source installs no signal handler, so the dispositions are
    the interpreter's: SIGINT raises [KeyboardInterrupt], SIGTERM
    keeps the default action and terminates the process. *)
Definition disposition (s : signal) : option exn :=
  match s with
  | SIGINT => Some KeyboardInterrupt
  | SIGTERM => None
  end.

Definition deliver {A} (s : signal) : M A := fun w =>
  match disposition s with
  | Some e => (Raised e, w)
  | None => (Killed s, w)
  end.

Definition mem (x : fd) (l : list fd) : bool := existsb (Z.eqb x) l.

(** The first [n] bytes of [l]: what [recv(n)] returns when the peer
    has sent [l]. *)
Definition take (n : Z) (l : list byte) : list byte := firstn (Z.to_nat n) l.

Arguments take : simpl never.

(** The result of call [c] when the system answers [r]; [None] when
    [r] is not an answer to [c]. *)
Definition observe (c : call) (r : reply) : option reply :=
  match c, r with
  | Fork, RInt pid => Some (RInt pid)
  | Socket _ _, RInt s => Some (RInt s)
  | Select rlist _ _ _, RReady ready => Some (RReady (filter (fun x => mem x rlist) ready))
  | Accept _, RConn conn peer => Some (RConn conn peer)
  | Recv _ bufsize, RBytes avail => Some (RBytes (take bufsize avail))
  | Kill _ _, ROk => Some ROk
  | SetBlocking _ _, ROk => Some ROk
  | SendAll _ _, ROk => Some ROk
  | Close _, ROk => Some ROk
  | SetSockOpt _ _ _ _, ROk => Some ROk
  | Bind _ _ _, ROk => Some ROk
  | Listen _ _, ROk => Some ROk
  | _, _ => None
  end.

Definition sys (c : call) : M reply := fun w =>
  match script w with
  | [] => (Starved, w)
  | RSignal s :: rest => deliver s (step (EvSignal s) rest w)
  | RErr e :: rest => (Raised (OSError e), step (EvCall c (RErr e)) rest w)
  | r :: rest =>
      match observe c r with
      | Some r' => (Returned r', step (EvCall c r') rest w)
      | None => (Starved, w)
      end
  end.

(** A point between two statements, where no system call is made: a
    pending signal is handled here, before the next statement runs.
    With SIGINT the interpreter raises [KeyboardInterrupt] at this
    point, whatever statement comes next. *)
Definition checkpoint : M unit := fun w =>
  match script w with
  | RTick :: rest => (Returned tt, {| self := self w; trace := trace w; script := rest |})
  | RSignal s :: rest => deliver s (step (EvSignal s) rest w)
  | _ => (Starved, w)
  end.

Definition sys_unit (c : call) : M unit := sys c ;; ret tt.

Definition os_fork : M Z :=
  r <- sys Fork ;; match r with RInt pid => ret pid | _ => starve end.

Definition os_kill (pid : Z) (sig : signal) : M unit := sys_unit (Kill pid sig).

Definition select_select (rlist wlist xlist : list fd) (timeout : Q) : M (list fd) :=
  r <- sys (Select rlist wlist xlist timeout) ;;
  match r with RReady ready => ret ready | _ => starve end.

Definition sock_accept (s : fd) : M (fd * address) :=
  r <- sys (Accept s) ;;
  match r with RConn conn peer => ret (conn, peer) | _ => starve end.

Definition sock_setblocking (s : fd) (flag : Z) : M unit := sys_unit (SetBlocking s flag).

Definition sock_recv (s : fd) (bufsize : Z) : M (list byte) :=
  r <- sys (Recv s bufsize) ;;
  match r with RBytes data => ret data | _ => starve end.

Definition sock_sendall (s : fd) (data : list byte) : M unit := sys_unit (SendAll s data).

Definition sock_close (s : fd) : M unit := sys_unit (Close s).

Definition socket_socket (f : family) (t : socktype) : M fd :=
  r <- sys (Socket f t) ;; match r with RInt s => ret s | _ => starve end.

Definition sock_setsockopt (s : fd) (l : optlevel) (o : optname) (v : Z) : M unit :=
  sys_unit (SetSockOpt s l o v).

Definition sock_bind (s : fd) (host : string) (port : Z) : M unit :=
  sys_unit (Bind s host port).

Definition sock_listen (s : fd) (backlog : Z) : M unit := sys_unit (Listen s backlog).

(** ** Attribute access and logging *)

Definition get_self : M HTTPServer := fun w => (Returned (self w), w).

Definition set_self (f : HTTPServer -> HTTPServer) : M unit := fun w =>
  (Returned tt, {| self := f (self w); trace := trace w; script := script w |}).

Definition set_desired_worker_count (v : Z) (s : HTTPServer) : HTTPServer :=
  {| _desired_worker_count := v; _port := _port s; logger := logger s;
     _workers := _workers s; _listener := _listener s |}.

Definition set_port (v : Z) (s : HTTPServer) : HTTPServer :=
  {| _desired_worker_count := _desired_worker_count s; _port := v; logger := logger s;
     _workers := _workers s; _listener := _listener s |}.

Definition set_logger (v : level) (s : HTTPServer) : HTTPServer :=
  {| _desired_worker_count := _desired_worker_count s; _port := _port s; logger := v;
     _workers := _workers s; _listener := _listener s |}.

Definition set_workers (v : list Z) (s : HTTPServer) : HTTPServer :=
  {| _desired_worker_count := _desired_worker_count s; _port := _port s; logger := logger s;
     _workers := v; _listener := _listener s |}.

Definition set_listener (v : fd) (s : HTTPServer) : HTTPServer :=
  {| _desired_worker_count := _desired_worker_count s; _port := _port s; logger := logger s;
     _workers := _workers s; _listener := v |}.

(** [self._workers.append(pid)] *)
Definition workers_append (pid : Z) : M unit :=
  set_self (fun s => set_workers (_workers s ++ [pid]) s).

Definition enabled (threshold l : level) : bool :=
  match threshold, l with
  | INFO, DEBUG => false
  | _, _ => true
  end.

(** [self.logger.info(..)] and [self.logger.debug(..)]: the record is
    written when its level reaches the logger's threshold. *)
Definition log (l : level) (m : message) : M unit := fun w =>
  if enabled (logger (self w)) l
  then (Returned tt, {| self := self w; trace := trace w ++ [EvLog l m]; script := script w |})
  else (Returned tt, w).

(** ** Strings *)

Definition CRLF : string := String "013"%char (String "010"%char EmptyString).

(** [str(n)] for a length. *)
Definition str_of_nat (n : nat) : string := NilZero.string_of_uint (Nat.to_uint n).

(** [s.encode()]; every character of the response is ASCII, one byte each. *)
Definition encode (s : string) : list byte := list_byte_of_string s.

(** ** HTTPServer *)

Definition response_text : string := "<html><body>Hello!</body></html>".

Definition response : list byte :=
  encode ("HTTP/1.1 200 OK" ++ CRLF ++
          "Content-Length: " ++ str_of_nat (String.length response_text) ++ CRLF ++
          "Content-Type: text/html" ++ CRLF ++
          "Connection: close" ++ CRLF ++
          CRLF ++
          response_text)%string.

Arguments response : simpl never.

Definition _handle_request (conn : fd) (addr : address) : M unit :=
  sock_setblocking conn 1 ;;
  data <- sock_recv conn 512 ;;
  log DEBUG (Bytes_repr data) ;;
  sock_sendall conn response ;;
  sock_close conn ;;
  log DEBUG (Bytes_repr response).

Definition default {A} (o : option A) (d : A) : A :=
  match o with Some a => a | None => d end.

(** Keyword arguments left out by the caller are [None] and take the
    default of the signature. *)
Definition _create_socket (host : option string) (port backlog : option Z) : M fd :=
  let host := default host "localhost"%string in
  let port := default port 8080 in
  let backlog := default backlog 512 in
  s <- socket_socket AF_INET SOCK_STREAM ;;
  sock_setblocking s 0 ;;
  sock_setsockopt s IPPROTO_TCP TCP_NODELAY 1 ;;
  sock_setsockopt s SOL_SOCKET SO_REUSEADDR 1 ;;
  sock_bind s host port ;;
  sock_listen s backlog ;;
  ret s.

Definition __init__ (worker_count port : option Z) (debug : option bool) : M unit :=
  let worker_count := default worker_count 1 in
  let port := default port 8080 in
  let debug := default debug false in
  set_self (set_desired_worker_count worker_count) ;;
  set_self (set_port port) ;;
  set_self (set_logger (if debug then DEBUG else INFO)) ;;
  set_self (set_workers []) ;;
  s <- get_self ;;
  l <- _create_socket None (Some (_port s)) None ;;
  set_self (set_listener l).

Definition _kill_workers : M unit :=
  s <- get_self ;;
  for_each (_workers s) (fun pid => os_kill pid SIGTERM).

(** The inner [while True] of the worker: wait until [select] reports
    the listener readable. *)
Definition wait_ready (fuel : nat) : M unit :=
  loop fuel
    (s <- get_self ;;
     socks0 <- select_select [_listener s] [] [] 1 ;;
     match socks0 with
     | _ :: _ => ret Break
     | [] => ret Continue
     end).

(** [except socket.error as e: if e.errno != errno.EAGAIN: raise e] *)
Definition except_socket_error (e : exn) : option (M unit) :=
  match e with
  | OSError errno => Some (if negb (errno =? EAGAIN) then raise e else ret tt)
  | _ => None
  end.

(** One turn of the worker's outer [while True]. *)
Definition worker_turn (fuel : nat) : M ctl :=
  wait_ready fuel ;;
  try_except
    (s <- get_self ;;
     ca <- sock_accept (_listener s) ;;
     _handle_request (fst ca) (snd ca))
    except_socket_error ;;
  ret Continue.

(** In the parent a signal may arrive after [os.fork] has returned
    and before the pid is logged, or before it is appended. *)
Definition _start_worker_loop (fuel : nat) : M unit :=
  pid <- os_fork ;;
  if negb (pid =? 0) then
    checkpoint ;;
    log INFO (Started_worker pid) ;;
    checkpoint ;;
    workers_append pid
  else if pid =? 0 then
    loop fuel (worker_turn fuel)
  else ret tt.

(** One turn of [while len(self._workers) < self._desired_worker_count]. *)
Definition top_up_turn (fuel : nat) : M ctl :=
  s <- get_self ;;
  if Z.of_nat (List.length (_workers s)) <? _desired_worker_count s
  then _start_worker_loop fuel ;; ret Continue
  else ret Break.

(** One turn of the supervisor's [while True]. *)
Definition run_turn (fuel : nat) : M ctl :=
  checkpoint ;;
  loop fuel (top_up_turn fuel) ;;
  ret Continue.

Definition except_shutdown (e : exn) : option (M unit) :=
  match e with
  | KeyboardInterrupt => Some _kill_workers
  | SystemExit => Some _kill_workers
  | OSError _ => None
  end.

Definition run (fuel : nat) : M unit :=
  try_except (loop fuel (run_turn fuel)) except_shutdown.

(** The result of [parse_cmd_line]. *)
Record args := { worker_count : Z; port : Z; debug : bool }.

(** An instance before [__init__] has assigned its attributes. *)
Definition object_new : HTTPServer :=
  {| _desired_worker_count := 0; _port := 0; logger := INFO;
     _workers := []; _listener := -1 |}.

Definition boot (os : list reply) : world :=
  {| self := object_new; trace := []; script := os |}.

(** [server = HTTPServer(...); server.run()] *)
Definition main (fuel : nat) (a : args) : M unit :=
  __init__ (Some (worker_count a)) (Some (port a)) (Some (debug a)) ;;
  run fuel.

(** The events of a run from [w] to [w']. *)
Definition emitted (w w' : world) : list event :=
  skipn (List.length (trace w)) (trace w').

(** ** Observations on traces *)

(** The log record written at level [l] by an instance [s], if any. *)
Definition log_events (s : HTTPServer) (l : level) (m : message) : list event :=
  if enabled (logger s) l then [EvLog l m] else [].

Definition calls_of (evs : list event) : list call :=
  flat_map (fun e => match e with EvCall c _ => [c] | _ => [] end) evs.

(** The byte strings handed to [sendall], with the socket they went to. *)
Definition payloads (evs : list event) : list (fd * list byte) :=
  flat_map (fun e => match e with EvCall (SendAll c d) _ => [(c, d)] | _ => [] end) evs.

(** The byte strings written in full on [conn]. *)
Definition sent_on (conn : fd) (evs : list event) : list (list byte) :=
  flat_map (fun e => match e with
                     | EvCall (SendAll c d) ROk => if c =? conn then [d] else []
                     | _ => []
                     end) evs.

Definition closed (conn : fd) (evs : list event) : bool :=
  existsb (fun e => match e with EvCall (Close c) _ => c =? conn | _ => false end) evs.

(** The pids [os.fork] returned to a parent. *)
Definition forked (evs : list event) : list Z :=
  flat_map (fun e => match e with
                     | EvCall Fork (RInt pid) => if pid =? 0 then [] else [pid]
                     | _ => []
                     end) evs.

(** The number of calls of [os.fork]. *)
Definition forks (evs : list event) : nat :=
  List.length (filter (fun e => match e with EvCall Fork _ => true | _ => false end) evs).

Definition kills (evs : list event) : list (Z * signal) :=
  flat_map (fun e => match e with EvCall (Kill pid sig) _ => [(pid, sig)] | _ => [] end) evs.

(** [e] is a [select] on exactly the listener [l], with a timeout of
    one second, that reported it readable. *)
Definition ready_select (l : fd) (e : event) : bool :=
  match e with
  | EvCall (Select [x] [] [] t) (RReady (_ :: _)) => (x =? l) && Qeq_bool t 1
  | _ => false
  end.

Definition is_select (e : event) : bool :=
  match e with EvCall (Select _ _ _ _) _ => true | _ => false end.

(** [e] is a [select] with a timeout of one second. *)
Definition one_second_select (e : event) : bool :=
  match e with
  | EvCall (Select _ _ _ t) _ => Qeq_bool t 1
  | _ => false
  end.

(** An [accept] is allowed after [prev] only when [prev] is a
    [select] that reported its listener readable. *)
Definition allowed_after (prev : option event) (e : event) : bool :=
  match e with
  | EvCall (Accept l) _ =>
      match prev with
      | Some p => ready_select l p
      | None => false
      end
  | _ => true
  end.

Fixpoint guarded_from (prev : option event) (tr : list event) : bool :=
  match tr with
  | [] => true
  | e :: tr' => allowed_after prev e && guarded_from (Some e) tr'
  end.

(** Every [accept] of the trace comes right after a [select] that
    reported its listener readable. *)
Definition guarded (tr : list event) : bool := guarded_from None tr.

(** The index of the first event of [evs] that satisfies [p]. *)
Fixpoint index_of (p : event -> bool) (evs : list event) : option nat :=
  match evs with
  | [] => None
  | e :: evs' => if p e then Some O else option_map S (index_of p evs')
  end.

(** The system calls, other than [os.fork] and [accept], that [run]
    makes in a process whose instance is [s]. *)
Definition run_call (s : HTTPServer) (c : call) : Prop :=
  match c with
  | Kill pid sig => In pid (_workers s) /\ sig = SIGTERM
  | Select rlist wlist xlist timeout =>
      rlist = [_listener s] /\ wlist = [] /\ xlist = [] /\ timeout = 1%Q
  | SetBlocking _ flag => flag = 1
  | Recv _ bufsize => bufsize = 512
  | SendAll _ data => data = response
  | Close _ => True
  | _ => False
  end.

(** The test of the supervisor's inner [while]. *)
Definition can_fork (s : HTTPServer) : Prop :=
  Z.of_nat (List.length (_workers s)) < _desired_worker_count s.

Definition is_recv (e : event) : bool :=
  match e with EvCall (Recv _ _) _ => true | _ => false end.

(** The events [_handle_request] may add to a trace when it serves [conn]. *)
Definition handler_event (conn : fd) (e : event) : Prop :=
  match e with
  | EvCall (SendAll c d) _ => c = conn /\ d = response
  | EvCall (Recv c n) r => c = conn /\ n = 512
  | EvCall (SetBlocking c flag) _ => c = conn /\ flag = 1
  | EvCall (Close c) _ => c = conn
  | EvCall _ _ => False
  | EvLog _ _ | EvSignal _ => True
  end.

(** Stages of a run of [_handle_request] on [conn] that began with
    trace [tr0]: the connection has been switched to blocking mode;
    the run has ended, in whatever way. *)
Definition handler_switched (conn : fd) (tr0 : list event) : HTTPServer -> list event -> Prop :=
  fun _ tr =>
    exists evs, tr = tr0 ++ EvCall (SetBlocking conn 1) ROk :: evs /\
                Forall (handler_event conn) evs.

Definition handler_ended (conn : fd) (tr0 : list event) : HTTPServer -> list event -> Prop :=
  fun _ tr =>
    exists evs, tr = tr0 ++ evs /\
                Forall (handler_event conn) evs /\
                (forallb (fun e => negb (is_recv e)) evs = true \/
                 exists rest, evs = EvCall (SetBlocking conn 1) ROk :: rest).

(** The last event of [tr], or [prev] when [tr] is empty. *)
Fixpoint last_event (prev : option event) (tr : list event) : option event :=
  match tr with
  | [] => prev
  | e :: tr' => last_event (Some e) tr'
  end.

(** A [select] waits for one second. *)
Definition timed (e : event) : Prop := is_select e = true -> one_second_select e = true.

(** Invariants of [run]: the count of workers stays within [n]; the
    workers are [ws0] and the pids forked since the trace was [tr0];
    since the trace was [tr0], no [accept] came unannounced and every
    wait was of one second; no fork was made since the trace was [tr0]. *)
Definition bounded (n : Z) : HTTPServer -> list event -> Prop :=
  fun s _ => _desired_worker_count s = n /\ Z.of_nat (List.length (_workers s)) <= n.

Definition tracked (ws0 : list Z) (tr0 : list event) : HTTPServer -> list event -> Prop :=
  fun s tr => exists evs, tr = tr0 ++ evs /\ _workers s = ws0 ++ forked evs.

(** [os.fork] has returned [pid] to the parent, which has not appended
    it yet; the workers are otherwise those forked. *)
Definition awaited (pid : Z) (ws0 : list Z) (tr0 : list event) : HTTPServer -> list event -> Prop :=
  fun s tr => exists evs, tr = tr0 ++ evs /\ _workers s ++ [pid] = ws0 ++ forked evs.

(** The workers are those forked, but for at most one pid: that of the
    last fork, which the parent has not appended. *)
Definition behind (ws0 : list Z) (tr0 : list event) : HTTPServer -> list event -> Prop :=
  fun s tr => exists evs pending,
    tr = tr0 ++ evs /\ _workers s ++ pending = ws0 ++ forked evs /\
    (List.length pending <= 1)%nat.

Definition announced (tr0 : list event) : HTTPServer -> list event -> Prop :=
  fun _ tr => exists evs, tr = tr0 ++ evs /\ guarded evs = true /\ Forall timed evs.

Definition forkless (tr0 : list event) : HTTPServer -> list event -> Prop :=
  fun s tr => ~ can_fork s /\ exists evs, tr = tr0 ++ evs /\ forks evs = O.

(** ** Earlier and later points of a run

    A run on a script is a run on any longer script, cut short:
    [more w os] lets the system answer [os] after what it answers in
    [w].  [grows w1 w2] says that [w2] is a later point than [w1]: its
    trace and its list of workers extend those of [w1]. *)
Definition more (w : world) (os : list reply) : world :=
  {| self := self w; trace := trace w; script := script w ++ os |}.

Definition grows (w1 w2 : world) : Prop :=
  (exists evs, trace w2 = trace w1 ++ evs) /\
  (exists pids, _workers (self w2) = _workers (self w1) ++ pids).

(** [m] only moves forward, and with more answers it either ends in
    the same way or, when it had been cut short, goes on from there. *)
Definition steady {A} (m : M A) : Prop :=
  forall w,
    grows w (snd (m w)) /\
    forall os,
      m (more w os) = (fst (m w), more (snd (m w)) os) \/
      (fst (m w) = Starved /\ grows (snd (m w)) (snd (m (more w os)))).

Definition is_bind (e : event) : bool :=
  match e with EvCall (Bind _ _ _) _ => true | _ => false end.

Definition is_listen (e : event) : bool :=
  match e with EvCall (Listen _ _) _ => true | _ => false end.

(** [m] never ends by raising [SystemExit]. *)
Definition exitless {A} (m : M A) : Prop :=
  forall w, fst (m w) <> Raised SystemExit.

(** A successful [os.kill(pid, signal.SIGTERM)]. *)
Definition kill_ok (pid : Z) : event := EvCall (Kill pid SIGTERM) ROk.

(** [m] only moves forward, and when [KeyboardInterrupt] comes out of
    it, the delivery of SIGINT is the last thing that happened. *)
Definition marked {A} (m : M A) : Prop :=
  forall w,
    grows w (snd (m w)) /\
    (fst (m w) = Raised KeyboardInterrupt ->
     exists pre, trace (snd (m w)) = trace w ++ pre ++ [EvSignal SIGINT]).

(** ** Reading an HTTP response *)

(** The number announced by the Content-Length header. *)
Definition declared_length (resp : list byte) : option nat :=
  let s := string_of_list_byte resp in
  match index 0 "Content-Length: " s with
  | Some i =>
      let start := (i + 16)%nat in
      match index start CRLF s with
      | Some j => option_map Nat.of_uint (NilZero.uint_of_string (substring start (j - start) s))
      | None => None
      end
  | None => None
  end.

(** The bytes after the first empty line. *)
Definition body_of (resp : list byte) : list byte :=
  let s := string_of_list_byte resp in
  match index 0 (CRLF ++ CRLF) s with
  | Some i => list_byte_of_string (substring (i + 4) (String.length s - (i + 4)) s)
  | None => []
  end.

(** The response as the specification words it, with the digits of
    the Content-Length header left open. *)
Definition stated_response (content_length : string) : list byte :=
  encode ("HTTP/1.1 200 OK" ++ CRLF ++
          "Content-Length: " ++ content_length ++ CRLF ++
          "Content-Type: text/html" ++ CRLF ++
          "Connection: close" ++ CRLF ++
          CRLF ++
          "<html><body>Hello!</body></html>")%string.

(** ** A program logic for the embedding

    Assertions speak of the instance and of the trace.  In
    [triple P m Q E], [Q a] holds when [m] returns [a], and [E] tells
    what holds when [m] ends in another way: with an exception, killed
    by a signal, or cut short. *)

Definition assertion := HTTPServer -> list event -> Prop.

Inductive ending :=
| Raises (e : exn)
| Dies (s : signal)
| Cut.

(** How a process ends when signal [s] is delivered to it. *)
Definition signal_ending (s : signal) : ending :=
  match disposition s with
  | Some e => Raises e
  | None => Dies s
  end.

Definition triple {A} (P : assertion) (m : M A) (Q : A -> assertion)
    (E : ending -> assertion) : Prop :=
  forall w, P (self w) (trace w) ->
    match m w with
    | (Returned a, w') => Q a (self w') (trace w')
    | (Raised e, w') => E (Raises e) (self w') (trace w')
    | (Killed sg, w') => E (Dies sg) (self w') (trace w')
    | (Starved, w') => E Cut (self w') (trace w')
    end.

(** ** Roles of the processes *)

Definition is_fork (e : event) : bool :=
  match e with EvCall Fork _ => true | _ => false end.

(** [os.fork] returned 0: from here on the process is a worker. *)
Definition is_child_fork (e : event) : bool :=
  match e with EvCall Fork (RInt pid) => pid =? 0 | _ => false end.

(** What a process does as the supervisor: it forks, logs, receives
    signals and kills; it makes no call on a socket. *)
Definition supervisor_event (e : event) : bool :=
  match e with
  | EvCall Fork _ | EvCall (Kill _ _) _ | EvLog _ _ | EvSignal _ => true
  | _ => false
  end.

(** The events of a process that starts as the supervisor: supervisor
    events up to the first fork that returns 0, if there is one, and
    no fork after it. *)
Fixpoint roles (evs : list event) : bool :=
  match evs with
  | [] => true
  | e :: evs' =>
      if is_child_fork e then forallb (fun x => negb (is_fork x)) evs'
      else supervisor_event e && roles evs'
  end.

Definition became_worker (evs : list event) : bool := existsb is_child_fork evs.

Definition as_supervisor (tr0 : list event) : HTTPServer -> list event -> Prop :=
  fun _ tr => exists evs, tr = tr0 ++ evs /\ roles evs = true /\ became_worker evs = false.

Definition as_worker (tr0 : list event) : HTTPServer -> list event -> Prop :=
  fun _ tr => exists evs, tr = tr0 ++ evs /\ roles evs = true /\ became_worker evs = true.

Definition in_role (tr0 : list event) : HTTPServer -> list event -> Prop :=
  fun _ tr => exists evs, tr = tr0 ++ evs /\ roles evs = true.

(** ** Calls made according to a plan *)

(** The calls of a trace with their results. *)
Definition results (evs : list event) : list (call * reply) :=
  flat_map (fun e => match e with EvCall c r => [(c, r)] | _ => [] end) evs.

Definition failed (r : reply) : bool :=
  match r with RErr _ => true | _ => false end.

(** [follows plan rs]: the calls [rs] are the calls of [plan], in
    order, up to some point; all succeed, except that the last one
    may have failed. *)
Inductive follows : list call -> list (call * reply) -> Prop :=
| follows_stop plan : follows plan []
| follows_fail c plan errno : follows (c :: plan) [(c, RErr errno)]
| follows_ok c plan r rs :
    failed r = false -> follows plan rs -> follows (c :: plan) ((c, r) :: rs).

(** The socket calls of [_handle_request], in the order of the source. *)
Definition handler_plan (conn : fd) : list call :=
  [SetBlocking conn 1; Recv conn 512; SendAll conn response; Close conn].


(** ** Exchanges *)

(** One client: the connection [accept] returns for it, its address
    and the bytes it has sent. *)
Record exchange := { x_conn : fd; x_peer : address; x_sent : list byte }.

(** What the system answers during a complete exchange on listener [l]. *)
Definition exchange_script (l : fd) (x : exchange) : list reply :=
  [RReady [l]; RConn (x_conn x) (x_peer x); ROk; RBytes (x_sent x); ROk; ROk].

(** The events of a complete exchange in a worker whose instance is [s]. *)
Definition exchange_events (s : HTTPServer) (x : exchange) : list event :=
  [EvCall (Select [_listener s] [] [] 1) (RReady [_listener s]);
   EvCall (Accept (_listener s)) (RConn (x_conn x) (x_peer x));
   EvCall (SetBlocking (x_conn x) 1) ROk;
   EvCall (Recv (x_conn x) 512) (RBytes (take 512 (x_sent x)))]
  ++ log_events s DEBUG (Bytes_repr (take 512 (x_sent x)))
  ++ [EvCall (SendAll (x_conn x) response) ROk;
      EvCall (Close (x_conn x)) ROk]
  ++ log_events s DEBUG (Bytes_repr response).

(** The answers to the handler's calls when the first [k] succeed and
    the next one fails with [errno]. *)
Definition failing_after (k : nat) (avail : list byte) (errno : Z) : list reply :=
  firstn k [ROk; RBytes avail; ROk; ROk] ++ [RErr errno].

(** The answers and the events of a fork that returns [pid] to the
    parent, with no signal pending before the pid is logged and
    before it is appended. *)
Definition spawn_script (pid : Z) : list reply := [RInt pid; RTick; RTick].

Definition spawn_events (pid : Z) : list event :=
  [EvCall Fork (RInt pid); EvLog INFO (Started_worker pid)].

(** The answers and the events of a start-up that succeeds, on
    descriptor [l] and port [p]. *)
Definition startup_script (l : fd) : list reply :=
  [RInt l; ROk; ROk; ROk; ROk; ROk].

Definition startup_events (l : fd) (p : Z) : list event :=
  [EvCall (Socket AF_INET SOCK_STREAM) (RInt l);
   EvCall (SetBlocking l 0) ROk;
   EvCall (SetSockOpt l IPPROTO_TCP TCP_NODELAY 1) ROk;
   EvCall (SetSockOpt l SOL_SOCKET SO_REUSEADDR 1) ROk;
   EvCall (Bind l "localhost" p) ROk;
   EvCall (Listen l 512) ROk].

(** ** Start-up and what follows it *)

(** The events of listener creation: calls that set a socket up, and
    signals. *)
Definition setup_event (e : event) : bool :=
  match e with
  | EvCall (Socket _ _) _ | EvCall (SetBlocking _ _) _ | EvCall (SetSockOpt _ _ _ _) _
  | EvCall (Bind _ _ _) _ | EvCall (Listen _ _) _ | EvSignal _ => true
  | _ => false
  end.

(** [e] is not an [accept], or it is an [accept] on [l]. *)
Definition accepts_on (l : fd) (e : event) : Prop :=
  match e with
  | EvCall (Accept l') _ => l' = l
  | _ => True
  end.

(** The listener of the instance is [l] and since the trace was [tr0]
    every [accept] was on [l]. *)
Definition listening (l : fd) (tr0 : list event) : HTTPServer -> list event -> Prop :=
  fun s tr => _listener s = l /\ exists evs, tr = tr0 ++ evs /\ Forall (accepts_on l) evs.

(** The instance that [__init__] leaves when it succeeds. *)
Definition initialised (a : args) (l : fd) : HTTPServer :=
  {| _desired_worker_count := worker_count a; _port := port a;
     logger := if debug a then DEBUG else INFO;
     _workers := []; _listener := l |}.

(** ** What the debug flag does not change

    Two instances that differ in the logger's threshold at most; two
    worlds that differ in the threshold and in the log records of their
    traces at most. *)
Definition same_but_logger (s1 s2 : HTTPServer) : Prop :=
  _desired_worker_count s1 = _desired_worker_count s2 /\
  _port s1 = _port s2 /\
  _workers s1 = _workers s2 /\
  _listener s1 = _listener s2.

Definition is_log (e : event) : bool :=
  match e with EvLog _ _ => true | _ => false end.

(** The trace without its log records. *)
Definition unlogged (tr : list event) : list event :=
  filter (fun e => negb (is_log e)) tr.

Definition alike (w1 w2 : world) : Prop :=
  same_but_logger (self w1) (self w2) /\
  unlogged (trace w1) = unlogged (trace w2) /\
  script w1 = script w2.

(** Two runs end in the same way, with related values when they return. *)
Definition same_ending {A} (R : A -> A -> Prop) (o1 o2 : outcome A) : Prop :=
  match o1, o2 with
  | Returned a1, Returned a2 => R a1 a2
  | Raised e1, Raised e2 => e1 = e2
  | Killed s1, Killed s2 => s1 = s2
  | Starved, Starved => True
  | _, _ => False
  end.

(** [m1] and [m2] behave alike on worlds that are alike. *)
Definition twin {A} (R : A -> A -> Prop) (m1 m2 : M A) : Prop :=
  forall w1 w2, alike w1 w2 ->
    same_ending R (fst (m1 w1)) (fst (m2 w2)) /\ alike (snd (m1 w1)) (snd (m2 w2)).


(** Example instances and worlds. *)
Definition two_workers : args := {| worker_count := 2; port := 8080; debug := false |}.

(** Start-up, two forks that return pids 101 and 102 and are recorded,
    one idle pass of the supervisor's loop, then SIGTERM when the
    supervisor is next at the head of its loop. *)
Definition terminated : list reply :=
  startup_script 3 ++ [RTick] ++ spawn_script 101 ++ spawn_script 102
  ++ [RTick; RSignal SIGTERM].

(** The same, with SIGINT; every [os.kill] then succeeds. *)
Definition interrupted : list reply :=
  startup_script 3 ++ [RTick] ++ spawn_script 101 ++ spawn_script 102
  ++ [RTick; RSignal SIGINT; ROk; ROk].

(** An instance that tracks no worker yet. *)
Definition fresh : HTTPServer :=
  {| _desired_worker_count := 2; _port := 8080; logger := INFO;
     _workers := []; _listener := 3 |}.

(** A connection on which the client has sent three bytes. *)
Definition served : world :=
  {| self := {| _desired_worker_count := 2; _port := 8080; logger := DEBUG;
                _workers := [101; 102]; _listener := 3 |};
     trace := [];
     script := [ROk; RBytes ["G"%byte; "E"%byte; "T"%byte]; ROk; ROk] |}.

(** A worker that is forked, waits, accepts connection 9 and serves it. *)
Definition serving : world :=
  {| self := fresh; trace := [];
     script := [RTick; RInt 0; RReady [3]; RConn 9 ("10.0.0.1"%string, 5000);
                ROk; RBytes ["G"%byte]; ROk; ROk] |}.

(** A supervisor that tracks worker 101 and wants one more. *)
Definition short_of_one : HTTPServer :=
  {| _desired_worker_count := 2; _port := 8080; logger := INFO;
     _workers := [101]; _listener := 3 |}.

(** A supervisor that tracks workers 101, 102 and 103. *)
Definition three_tracked : HTTPServer :=
  {| _desired_worker_count := 3; _port := 8080; logger := INFO;
     _workers := [101; 102; 103]; _listener := 3 |}.

(** Start-up, a fork that returns 0, and a connection accepted. *)
Definition one_request : list reply :=
  startup_script 3 ++ [RTick; RInt 0; RReady [3]; RConn 9 ("10.0.0.1"%string, 5000)].

(** The arguments of a server that wants one worker. *)
Definition one_worker : args := {| worker_count := 1; port := 8080; debug := false |}.

(** Start-up, a fork that returns pid 1533 to the supervisor, then
    SIGINT before the pid is logged and appended. *)
Definition orphaned : list reply :=
  startup_script 3 ++ [RTick; RInt 1533; RSignal SIGINT].

(** The arguments of a server that wants no worker. *)
Definition no_workers : args := {| worker_count := 0; port := 8080; debug := false |}.

(** The same arguments as [two_workers], with debug logging. *)
Definition two_workers_debug : args :=
  {| worker_count := 2; port := 8080; debug := true |}.

(** Start-up, a fork that returns 0, and a connection served in full. *)
Definition one_served : list reply :=
  startup_script 3 ++ [RTick; RInt 0; RReady [3]; RConn 9 ("10.0.0.1"%string, 5000);
                       ROk; RBytes ["G"%byte]; ROk; ROk].

(** * Proofs *)

(** ** Rules of the program logic *)

Section Rules.

Context {A B : Type}.
Implicit Types (P : assertion) (E : ending -> assertion).

Lemma triple_ret (a : A) P (Q : A -> assertion) E :
  (forall s tr, P s tr -> Q a s tr) -> triple P (ret a) Q E.
Proof. intros H w HP. simpl. auto. Qed.

Lemma triple_raise (e : exn) P (Q : A -> assertion) E :
  (forall s tr, P s tr -> E (Raises e) s tr) -> triple P (raise e) Q E.
Proof. intros H w HP. simpl. auto. Qed.

Lemma triple_starve P (Q : A -> assertion) E :
  (forall s tr, P s tr -> E Cut s tr) -> triple P starve Q E.
Proof. intros H w HP. simpl. auto. Qed.

Lemma triple_bind (m : M A) (k : A -> M B) P (Q1 : A -> assertion) (Q : B -> assertion) E :
  triple P m Q1 E ->
  (forall a, triple (Q1 a) (k a) Q E) ->
  triple P (bind m k) Q E.
Proof.
  intros Hm Hk w HP. specialize (Hm w HP). unfold bind.
  destruct (m w) as [[a | e | s |] w1]; auto.
  exact (Hk a w1 Hm).
Qed.

Lemma triple_conseq (m : M A) P P' (Q Q' : A -> assertion) E E' :
  triple P' m Q' E' ->
  (forall s tr, P s tr -> P' s tr) ->
  (forall a s tr, Q' a s tr -> Q a s tr) ->
  (forall en s tr, E' en s tr -> E en s tr) ->
  triple P m Q E.
Proof.
  intros Hm HP HQ HE w Hw. specialize (Hm w (HP _ _ Hw)).
  destruct (m w) as [[a | e | s |] w1]; auto.
Qed.

(** [try]/[except]: a handler starts from what the body ensures when
    it raises the exception; all other endings pass through. *)
Lemma triple_try (body : M A) handler P (Q : A -> assertion) E' E :
  triple P body Q E' ->
  (forall e h, handler e = Some h -> triple (E' (Raises e)) h Q E) ->
  (forall e s tr, handler e = None -> E' (Raises e) s tr -> E (Raises e) s tr) ->
  (forall sg s tr, E' (Dies sg) s tr -> E (Dies sg) s tr) ->
  (forall s tr, E' Cut s tr -> E Cut s tr) ->
  triple P (try_except body handler) Q E.
Proof.
  intros Hb Hh Hn Hd Hc w HP. specialize (Hb w HP). unfold try_except.
  destruct (body w) as [[a | e | s |] w1]; auto.
  destruct (handler e) as [h |] eqn:He; auto.
  exact (Hh e h He w1 Hb).
Qed.

End Rules.

Lemma triple_loop (body : M ctl) (I : assertion) (Q : unit -> assertion) E fuel :
  triple I body (fun c => match c with Continue => I | Break => Q tt end) E ->
  (forall s tr, I s tr -> E Cut s tr) ->
  triple I (loop fuel body) Q E.
Proof.
  intros Hb HI. induction fuel as [| n IH]; simpl.
  - apply triple_starve. exact HI.
  - eapply triple_bind; [exact Hb |].
    intros [|]; [exact IH |].
    apply triple_ret. intros s tr H. exact H.
Qed.

Lemma triple_for_each {A} (l : list A) (f : A -> M unit) (I : assertion) E :
  (forall x, In x l -> triple I (f x) (fun _ => I) E) ->
  triple I (for_each l f) (fun _ => I) E.
Proof.
  induction l as [| x l IH]; intros Hf; simpl.
  - apply triple_ret. auto.
  - eapply triple_bind; [apply Hf; left; reflexivity |].
    intros u. apply IH. intros y Hy. apply Hf. right. exact Hy.
Qed.

Lemma triple_get_self (P : assertion) E :
  triple P get_self (fun s0 s tr => P s tr /\ s0 = s) E.
Proof. intros w HP. simpl. auto. Qed.

Lemma triple_set_self f (P : assertion) (Q : unit -> assertion) E :
  (forall s tr, P s tr -> Q tt (f s) tr) -> triple P (set_self f) Q E.
Proof. intros H w HP. simpl. auto. Qed.

Lemma triple_log l m (P : assertion) (Q : unit -> assertion) E :
  (forall s tr, P s tr -> Q tt s (tr ++ log_events s l m)) -> triple P (log l m) Q E.
Proof.
  intros H w HP. specialize (H _ _ HP). unfold log, log_events in *.
  destruct (enabled (logger (self w)) l); simpl; auto.
  rewrite app_nil_r in H. exact H.
Qed.

(** The rule of a system call: the run may be cut before it, a signal
    may be delivered instead of it, it may fail, or it returns one of
    the results it admits. *)
Lemma triple_sys c (P : assertion) (Q : reply -> assertion) E :
  (forall s tr, P s tr -> E Cut s tr) ->
  (forall s tr sig, P s tr -> E (signal_ending sig) s (tr ++ [EvSignal sig])) ->
  (forall s tr e, P s tr -> E (Raises (OSError e)) s (tr ++ [EvCall c (RErr e)])) ->
  (forall s tr r r', P s tr -> observe c r = Some r' -> Q r' s (tr ++ [EvCall c r'])) ->
  triple P (sys c) Q E.
Proof.
  intros Hcut Hsig Herr Hok w HP. unfold sys.
  destruct (script w) as [| r rest]; [exact (Hcut _ _ HP) |].
  destruct r; simpl;
    try (destruct (observe c _) as [r' |] eqn:Ho; simpl;
         [exact (Hok _ _ _ _ HP Ho) | exact (Hcut _ _ HP)]).
  - exact (Herr _ _ _ HP).
  - specialize (Hsig _ _ s HP). unfold deliver, signal_ending in *.
    destruct (disposition s); simpl; exact Hsig.
Qed.

Lemma triple_checkpoint (P : assertion) (Q : unit -> assertion) E :
  (forall s tr, P s tr -> E Cut s tr) ->
  (forall s tr sig, P s tr -> E (signal_ending sig) s (tr ++ [EvSignal sig])) ->
  (forall s tr, P s tr -> Q tt s tr) ->
  triple P checkpoint Q E.
Proof.
  intros Hcut Hsig Hok w HP. unfold checkpoint.
  destruct (script w) as [| r rest]; [exact (Hcut _ _ HP) |].
  destruct r; simpl; try exact (Hcut _ _ HP).
  - specialize (Hsig _ _ s HP). unfold deliver, signal_ending in *.
    destruct (disposition s); simpl; exact Hsig.
  - exact (Hok _ _ HP).
Qed.

(** ** Invariants of [run]

    An assertion that every step of the supervisor and of the worker
    preserves holds at every point of every run, however the run ends. *)

Section Invariant.

Variable I : assertion.

Hypothesis I_signal : forall s tr sig, I s tr -> I s (tr ++ [EvSignal sig]).
Hypothesis I_log : forall s tr l m, I s tr -> I s (tr ++ [EvLog l m]).
Hypothesis I_call : forall s tr c r, run_call s c -> I s tr -> I s (tr ++ [EvCall c r]).
Hypothesis I_fork_error : forall s tr e,
  can_fork s -> I s tr -> I s (tr ++ [EvCall Fork (RErr e)]).
Hypothesis I_fork_child : forall s tr,
  can_fork s -> I s tr -> I s (tr ++ [EvCall Fork (RInt 0)]).
Hypothesis I_fork_parent : forall s tr pid,
  can_fork s -> pid <> 0 -> I s tr -> I s (tr ++ [EvCall Fork (RInt pid)]).
Hypothesis I_append : forall s tr pid,
  can_fork s -> I s tr -> I (set_workers (_workers s ++ [pid]) s) tr.
Hypothesis I_accept : forall s tr rl r,
  rl <> [] -> I s tr ->
  I s (tr ++ [EvCall (Select [_listener s] [] [] 1) (RReady rl);
              EvCall (Accept (_listener s)) r]).

Lemma inv_sys c :
  triple (fun s tr => I s tr /\ run_call s c) (sys c) (fun _ s tr => I s tr) (fun _ => I).
Proof.
  apply triple_sys.
  - intros s tr [H _]. exact H.
  - intros s tr sig [H _]. auto.
  - intros s tr e [H Hc]. auto.
  - intros s tr r r' [H Hc] _. auto.
Qed.

Lemma inv_sys_unit c : (forall s, run_call s c) -> triple I (sys_unit c) (fun _ => I) (fun _ => I).
Proof.
  intros Hc. unfold sys_unit. eapply triple_bind with (Q1 := fun _ => I).
  - eapply triple_conseq; [apply (inv_sys c) | | auto | auto]. simpl. auto.
  - intros r. apply triple_ret. auto.
Qed.

Lemma inv_log l m : triple I (log l m) (fun _ => I) (fun _ => I).
Proof.
  apply triple_log. intros s tr H. unfold log_events.
  destruct (enabled (logger s) l); [auto | rewrite app_nil_r; exact H].
Qed.

Lemma inv_sock_recv conn : triple I (sock_recv conn 512) (fun _ => I) (fun _ => I).
Proof.
  unfold sock_recv. eapply triple_bind with (Q1 := fun _ => I).
  - eapply triple_conseq; [apply (inv_sys (Recv conn 512)) | | auto | auto].
    simpl. auto.
  - intros r. destruct r; (apply triple_ret || apply triple_starve); auto.
Qed.

Lemma inv_handle_request conn addr : triple I (_handle_request conn addr) (fun _ => I) (fun _ => I).
Proof.
  unfold _handle_request, sock_setblocking, sock_sendall, sock_close.
  eapply triple_bind; [apply inv_sys_unit; simpl; auto | intros ?].
  eapply triple_bind; [apply inv_sock_recv | intros data].
  eapply triple_bind; [apply inv_log | intros ?].
  eapply triple_bind; [apply inv_sys_unit; simpl; auto | intros ?].
  eapply triple_bind; [apply inv_sys_unit; simpl; auto | intros ?].
  apply inv_log.
Qed.

Lemma inv_kill_workers : triple I _kill_workers (fun _ => I) (fun _ => I).
Proof.
  unfold _kill_workers.
  eapply triple_bind; [apply triple_get_self | intros s0].
  eapply triple_conseq with
    (P' := fun s tr => I s tr /\ s0 = s) (Q' := fun _ s tr => I s tr /\ s0 = s) (E' := fun _ => I);
    auto; [| intros a s tr [H _]; exact H].
  apply triple_for_each. intros pid Hpid. unfold os_kill, sys_unit.
  eapply triple_bind with (Q1 := fun _ s tr => I s tr /\ s0 = s);
    [| intros r; apply triple_ret; auto].
  apply triple_sys.
  - intros s tr [H _]. exact H.
  - intros s tr sig [H _]. auto.
  - intros s tr e [H <-]. apply I_call; simpl; auto.
  - intros s tr r r' [H <-] _. split; [apply I_call; simpl; auto | reflexivity].
Qed.

(** After the worker's wait, the last event is a [select] that
    reported the listener readable. *)
Lemma inv_wait_ready fuel :
  triple I (wait_ready fuel)
    (fun _ s tr => exists tr0 rl,
       tr = tr0 ++ [EvCall (Select [_listener s] [] [] 1) (RReady rl)] /\
       rl <> [] /\ I s tr0)
    (fun _ => I).
Proof.
  unfold wait_ready. apply triple_loop; [| auto].
  eapply triple_bind; [apply triple_get_self | intros s0].
  eapply triple_bind with
    (Q1 := fun ready s tr' => exists tr,
             I s tr /\
             tr' = tr ++ [EvCall (Select [_listener s] [] [] 1) (RReady ready)]).
  - unfold select_select.
    eapply triple_bind with
      (Q1 := fun r s tr' => exists tr ready,
               r = RReady ready /\ I s tr /\
               tr' = tr ++ [EvCall (Select [_listener s] [] [] 1) r]).
    + apply triple_sys.
      * intros s tr [H _]. exact H.
      * intros s tr sig [H _]. auto.
      * intros s tr e [H <-]. apply I_call; simpl; auto.
      * intros s tr r r' [H Hs] Ho. subst s0.
        destruct r; simpl in Ho; try discriminate.
        injection Ho as <-. eauto 10.
    + intros r.
      destruct r; try (apply triple_starve; intros ? ? (? & ? & Hr & ?); discriminate).
      apply triple_ret. intros s tr (tr0 & rd & Hr & HI & Htr).
      injection Hr as <-. eauto.
  - intros socks0. destruct socks0 as [| x rl].
    + apply triple_ret. intros s tr (tr0 & HI & ->). apply I_call; simpl; auto.
    + apply triple_ret. intros s tr (tr0 & HI & ->).
      exists tr0, (x :: rl). repeat split; auto. discriminate.
Qed.

Lemma inv_worker_turn fuel : triple I (worker_turn fuel) (fun _ => I) (fun _ => I).
Proof.
  unfold worker_turn.
  eapply triple_bind; [apply inv_wait_ready | intros ?].
  eapply triple_bind with (Q1 := fun _ => I); [| intros ?; apply triple_ret; auto].
  apply triple_try with (E' := fun _ => I); auto.
  - eapply triple_bind; [apply triple_get_self | intros s0].
    eapply triple_bind with (Q1 := fun _ => I); [| intros ca; apply inv_handle_request].
    unfold sock_accept.
    eapply triple_bind with (Q1 := fun _ => I).
    + assert (Hsel : forall s tr rl, I s tr ->
                I s (tr ++ [EvCall (Select [_listener s] [] [] 1) (RReady rl)]))
        by (intros; apply I_call; simpl; auto).
      apply triple_sys.
      * intros s tr [(tr0 & rl & -> & Hrl & HI) _]. auto.
      * intros s tr sig [(tr0 & rl & -> & Hrl & HI) _]. auto.
      * intros s tr e [(tr0 & rl & -> & Hrl & HI) <-].
        rewrite <- app_assoc. simpl. auto.
      * intros s tr r r' [(tr0 & rl & -> & Hrl & HI) <-] _.
        rewrite <- app_assoc. simpl. auto.
    + intros r. destruct r; (apply triple_starve || apply triple_ret); auto.
  - intros e h He. destruct e; simpl in He; try discriminate.
    injection He as <-.
    destruct (negb (errno =? EAGAIN)); [apply triple_raise | apply triple_ret]; auto.
Qed.

Lemma inv_start_worker_loop fuel :
  triple (fun s tr => I s tr /\ can_fork s) (_start_worker_loop fuel) (fun _ => I) (fun _ => I).
Proof.
  unfold _start_worker_loop, os_fork.
  eapply triple_bind with
    (Q1 := fun pid s tr' => exists tr,
             I s tr /\ can_fork s /\ tr' = tr ++ [EvCall Fork (RInt pid)]).
  - eapply triple_bind with
      (Q1 := fun r s tr' => exists tr pid,
               r = RInt pid /\ I s tr /\ can_fork s /\ tr' = tr ++ [EvCall Fork r]).
    + apply triple_sys.
      * intros s tr [H _]. exact H.
      * intros s tr sig [H _]. auto.
      * intros s tr e [H Hc]. auto.
      * intros s tr r r' [H Hc] Ho.
        destruct r; simpl in Ho; try discriminate.
        injection Ho as <-. eauto 10.
    + intros r.
      destruct r; try (apply triple_starve; intros ? ? (? & ? & Hr & ?); discriminate).
      apply triple_ret. intros s tr (tr0 & p & Hr & HI & Hc & ->).
      injection Hr as <-. eauto.
  - intros pid. destruct (pid =? 0) eqn:Hpid; simpl.
    + apply Z.eqb_eq in Hpid. subst pid.
      eapply triple_conseq with (P' := I) (Q' := fun _ => I) (E' := fun _ => I); auto.
      * apply triple_loop; [| auto].
        eapply triple_conseq; [apply (inv_worker_turn fuel) | auto | | auto].
        intros [|] s tr H; exact H.
      * intros s tr (tr0 & HI & Hc & ->). auto.
    + apply Z.eqb_neq in Hpid.
      eapply triple_conseq with
        (P' := fun s tr => I s tr /\ can_fork s) (Q' := fun _ => I) (E' := fun _ => I); auto;
        [| intros s tr (tr0 & HI & Hc & ->); auto].
      eapply triple_bind with (Q1 := fun _ s tr => I s tr /\ can_fork s).
      { apply triple_checkpoint; [intros s tr [H _] | intros s tr sig [H _] |]; auto. }
      intros ?.
      eapply triple_bind with (Q1 := fun _ s tr => I s tr /\ can_fork s).
      { apply triple_log. intros s tr [H Hc]. split; [| exact Hc].
        unfold log_events. destruct (enabled (logger s) INFO); [auto |].
        rewrite app_nil_r. exact H. }
      intros ?.
      eapply triple_bind with (Q1 := fun _ s tr => I s tr /\ can_fork s).
      { apply triple_checkpoint; [intros s tr [H _] | intros s tr sig [H _] |]; auto. }
      intros ?. apply triple_set_self. intros s tr [H Hc]. auto.
Qed.

Lemma inv_top_up_turn fuel : triple I (top_up_turn fuel) (fun _ => I) (fun _ => I).
Proof.
  unfold top_up_turn.
  eapply triple_bind; [apply triple_get_self | intros s0].
  destruct (Z.of_nat (List.length (_workers s0)) <? _desired_worker_count s0) eqn:Hlt.
  - apply Z.ltb_lt in Hlt.
    eapply triple_bind with (Q1 := fun _ => I); [| intros ?; apply triple_ret; auto].
    eapply triple_conseq; [apply (inv_start_worker_loop fuel) | | auto | auto].
    intros s tr [H <-]. split; auto.
  - apply triple_ret. intros s tr [H _]. exact H.
Qed.

Lemma inv_run_turn fuel : triple I (run_turn fuel) (fun _ => I) (fun _ => I).
Proof.
  unfold run_turn.
  eapply triple_bind with (Q1 := fun _ => I); [apply triple_checkpoint; auto |].
  intros ?.
  eapply triple_bind with (Q1 := fun _ => I); [| intros ?; apply triple_ret; auto].
  apply triple_loop; [| auto].
  eapply triple_conseq; [apply (inv_top_up_turn fuel) | auto | | auto].
  intros [|] s tr H; exact H.
Qed.

Theorem inv_run fuel : triple I (run fuel) (fun _ => I) (fun _ => I).
Proof.
  unfold run. apply triple_try with (E' := fun _ => I); auto.
  - apply triple_loop; [| auto].
    eapply triple_conseq; [apply (inv_run_turn fuel) | auto | | auto].
    intros [|] s tr H; exact H.
  - intros e h He.
    destruct e; simpl in He; try discriminate; injection He as <-; apply inv_kill_workers.
Qed.

End Invariant.

(** ** Symbolic runs *)

Lemma emitted_app w w' evs : trace w' = trace w ++ evs -> emitted w w' = evs.
Proof.
  intros H. unfold emitted. rewrite H.
  rewrite skipn_app, skipn_all, Nat.sub_diag. reflexivity.
Qed.

(** A complete exchange: every call of the handler succeeds. *)
Lemma handle_request_ok s tr conn addr avail rest :
  _handle_request conn addr
    {| self := s; trace := tr; script := ROk :: RBytes avail :: ROk :: ROk :: rest |}
  = (Returned tt,
     {| self := s;
        trace := tr ++ [EvCall (SetBlocking conn 1) ROk;
                        EvCall (Recv conn 512) (RBytes (take 512 avail))]
                    ++ log_events s DEBUG (Bytes_repr (take 512 avail))
                    ++ [EvCall (SendAll conn response) ROk;
                        EvCall (Close conn) ROk]
                    ++ log_events s DEBUG (Bytes_repr response);
        script := rest |}).
Proof.
  destruct s as [n p [|] ws l];
    unfold _handle_request, log_events, log, sock_setblocking, sock_recv, sock_sendall,
      sock_close, sys_unit, bind, sys, ret, step; simpl;
    repeat rewrite <- app_assoc; reflexivity.
Qed.

Lemma sent_on_app conn evs1 evs2 :
  sent_on conn (evs1 ++ evs2) = sent_on conn evs1 ++ sent_on conn evs2.
Proof. apply flat_map_app. Qed.

Lemma calls_of_app evs1 evs2 : calls_of (evs1 ++ evs2) = calls_of evs1 ++ calls_of evs2.
Proof. apply flat_map_app. Qed.

Lemma sent_on_log conn s l m : sent_on conn (log_events s l m) = [].
Proof. unfold log_events. destruct (enabled (logger s) l); reflexivity. Qed.

Lemma calls_of_log s l m : calls_of (log_events s l m) = [].
Proof. unfold log_events. destruct (enabled (logger s) l); reflexivity. Qed.

Lemma response_stated : response = stated_response "32".
Proof. reflexivity. Qed.

Lemma take_length n l : (List.length (take n l) <= Z.to_nat n)%nat.
Proof. unfold take. apply firstn_le_length. Qed.

(** ** The request handler *)

(** C1 (amended): whatever bytes the client has sent, none or more than
    512 included, a handler whose calls all succeed returns after writing
    to the connection exactly the bytes of 'HTTP/1.1 200 OK\r\n
    Content-Length: 32\r\nContent-Type: text/html\r\nConnection: close\r\n
    \r\n<html><body>Hello!</body></html>'; the length it announces and the
    length of the body it carries are both 32. *)
Theorem C1_response_bytes s tr conn addr avail rest :
  let w := {| self := s; trace := tr;
              script := ROk :: RBytes avail :: ROk :: ROk :: rest |} in
  let w' := snd (_handle_request conn addr w) in
  fst (_handle_request conn addr w) = Returned tt /\
  sent_on conn (emitted w w') = [stated_response "32"] /\
  declared_length (stated_response "32") = Some 32%nat /\
  List.length (body_of (stated_response "32")) = 32%nat.
Proof.
  intros w w'. subst w w'. rewrite handle_request_ok. cbn [fst snd trace].
  split; [reflexivity |]. split; [| split; vm_compute; reflexivity].
  erewrite emitted_app by reflexivity.
  rewrite !sent_on_app, !sent_on_log. simpl.
  rewrite Z.eqb_refl. rewrite response_stated. reflexivity.
Qed.

(** C1, as stated, fails: on a three-byte request the bytes written are
    not those of the response with Content-Length: 34. *)
Lemma C1_counterexample :
  sent_on 7 (emitted served (snd (_handle_request 7 ("10.0.0.1"%string, 5000) served)))
  <> [stated_response "34"].
Proof.
  intros H.
  apply (f_equal (fun l => match l with [r] => declared_length r | _ => None end)) in H.
  vm_compute in H. discriminate.
Qed.

Lemma triple_always {A} (P E : assertion) (m : M A) w :
  triple P m (fun _ => E) (fun _ => E) ->
  P (self w) (trace w) ->
  E (self (snd (m w))) (trace (snd (m w))).
Proof.
  intros Hm HP. specialize (Hm w HP).
  destruct (m w) as [[a | e | sg |] w1]; exact Hm.
Qed.

Section Handler.

Variables (conn : fd) (addr : address) (tr0 : list event).

Lemma handler_switched_snoc s tr e :
  handler_event conn e ->
  handler_switched conn tr0 s tr -> handler_switched conn tr0 s (tr ++ [e]).
Proof.
  intros He (evs & -> & Hevs). exists (evs ++ [e]). split.
  - rewrite <- app_assoc. reflexivity.
  - apply Forall_app. split; [exact Hevs | constructor; [exact He | constructor]].
Qed.

Lemma handler_switched_ended s tr :
  handler_switched conn tr0 s tr -> handler_ended conn tr0 s tr.
Proof.
  intros (evs & -> & Hevs). exists (EvCall (SetBlocking conn 1) ROk :: evs).
  split; [reflexivity |]. split.
  - constructor; [simpl; auto | exact Hevs].
  - right. exists evs. reflexivity.
Qed.

Lemma handler_sys c :
  (forall r, handler_event conn (EvCall c r)) ->
  triple (handler_switched conn tr0) (sys c)
    (fun _ => handler_switched conn tr0) (fun _ => handler_ended conn tr0).
Proof.
  intros Hc. apply triple_sys.
  - apply handler_switched_ended.
  - intros s tr sig H. apply handler_switched_ended, handler_switched_snoc; simpl; auto.
  - intros s tr e H. apply handler_switched_ended, handler_switched_snoc; auto.
  - intros s tr r r' H _. apply handler_switched_snoc; auto.
Qed.

Lemma handler_log l m :
  triple (handler_switched conn tr0) (log l m)
    (fun _ => handler_switched conn tr0) (fun _ => handler_ended conn tr0).
Proof.
  apply triple_log. intros s tr H. unfold log_events.
  destruct (enabled (logger s) l).
  - apply handler_switched_snoc; simpl; auto.
  - rewrite app_nil_r. exact H.
Qed.

(** Every run of the handler, however it ends, leaves a trail of this shape. *)
Lemma handle_request_trail :
  triple (fun _ tr => tr = tr0) (_handle_request conn addr)
    (fun _ => handler_ended conn tr0) (fun _ => handler_ended conn tr0).
Proof.
  unfold _handle_request, sock_setblocking, sock_recv, sock_sendall, sock_close, sys_unit.
  eapply triple_bind with (Q1 := fun _ => handler_switched conn tr0).
  - eapply triple_bind with (Q1 := fun _ => handler_switched conn tr0);
      [| intros r; apply triple_ret; auto].
    apply triple_sys.
    + intros s tr ->. exists []. rewrite app_nil_r. auto.
    + intros s tr sig ->. exists [EvSignal sig]. repeat split; auto.
      constructor; simpl; auto.
    + intros s tr e ->. exists [EvCall (SetBlocking conn 1) (RErr e)]. repeat split; auto.
      constructor; simpl; auto.
    + intros s tr r r' -> Ho. destruct r; simpl in Ho; try discriminate.
      injection Ho as <-. exists []. auto.
  - intros u.
    eapply triple_bind with (Q1 := fun _ => handler_switched conn tr0).
    { eapply triple_bind; [apply handler_sys; simpl; auto |].
      intros r. destruct r; (apply triple_ret || apply triple_starve);
        auto using handler_switched_ended. }
    intros data.
    eapply triple_bind; [apply handler_log |]. intros u1.
    eapply triple_bind with (Q1 := fun _ => handler_switched conn tr0).
    { eapply triple_bind; [apply handler_sys; simpl; auto |].
      intros r. apply triple_ret. auto. }
    intros u2.
    eapply triple_bind with (Q1 := fun _ => handler_switched conn tr0).
    { eapply triple_bind; [apply handler_sys; simpl; auto |].
      intros r. apply triple_ret. auto. }
    intros u3.
    eapply triple_conseq; [apply handler_log | auto | | auto].
    intros; apply handler_switched_ended; assumption.
Qed.

End Handler.

Lemma handle_request_events w conn addr :
  let evs := emitted w (snd (_handle_request conn addr w)) in
  Forall (handler_event conn) evs /\
  (forallb (fun e => negb (is_recv e)) evs = true \/
   exists rest, evs = EvCall (SetBlocking conn 1) ROk :: rest).
Proof.
  destruct (triple_always _ _ _ w (handle_request_trail conn addr (trace w)) eq_refl)
    as (evs & Htr & Hev & Hshape).
  apply emitted_app in Htr. simpl. rewrite Htr. auto.
Qed.

Lemma handle_request_self w conn addr : self (snd (_handle_request conn addr w)) = self w.
Proof.
  apply (triple_always (fun s _ => s = self w) (fun s _ => s = self w)); [| reflexivity].
  apply inv_handle_request; auto.
Qed.

Lemma in_payloads c d evs :
  In (c, d) (payloads evs) -> exists r, In (EvCall (SendAll c d) r) evs.
Proof.
  unfold payloads. rewrite in_flat_map. intros (e & He & Hin).
  destruct e as [[] r | |]; simpl in Hin; try contradiction.
  destruct Hin as [Heq | []]. injection Heq as -> ->. eauto.
Qed.

(** C6: with every call succeeding, the handler switches the connection
    to blocking mode, reads at most 512 bytes, writes the whole response
    and closes the connection, in this order; and in every run, however
    it ends, a read comes after the switch to blocking mode. *)
Theorem C6_handling_order :
  (forall s tr conn addr avail rest,
     let w := {| self := s; trace := tr;
                 script := ROk :: RBytes avail :: ROk :: ROk :: rest |} in
     let w' := snd (_handle_request conn addr w) in
     calls_of (emitted w w') =
       [SetBlocking conn 1; Recv conn 512; SendAll conn response; Close conn] /\
     In (EvCall (Recv conn 512) (RBytes (take 512 avail))) (emitted w w') /\
     (List.length (take 512 avail) <= 512)%nat) /\
  (forall w conn addr i e,
     let evs := emitted w (snd (_handle_request conn addr w)) in
     nth_error evs i = Some e -> is_recv e = true ->
     (0 < i)%nat /\ nth_error evs 0 = Some (EvCall (SetBlocking conn 1) ROk)).
Proof.
  split.
  - intros s tr conn addr avail rest w w'. subst w w'.
    rewrite handle_request_ok. cbn [fst snd trace].
    erewrite emitted_app by reflexivity. repeat split.
    + rewrite !calls_of_app, !calls_of_log. reflexivity.
    + apply in_or_app. left. simpl. auto.
    + apply (take_length 512).
  - intros w conn addr i e evs Hi He. subst evs.
    destruct (handle_request_events w conn addr) as (_ & [Hno | (rest & Hrest)]).
    + apply nth_error_In in Hi. rewrite forallb_forall in Hno.
      apply Hno in Hi. rewrite He in Hi. discriminate.
    + rewrite Hrest in *. destruct i as [| i]; simpl in Hi.
      * injection Hi as <-. discriminate.
      * split; [lia | reflexivity].
Qed.

(** The three-byte request: the read is the second event, after the switch. *)
Lemma C6_witness :
  let evs := emitted served (snd (_handle_request 7 ("10.0.0.1"%string, 5000) served)) in
  (0 < 1)%nat /\ nth_error evs 0 = Some (EvCall (SetBlocking 7 1) ROk).
Proof.
  apply (proj2 C6_handling_order served 7 ("10.0.0.1"%string, 5000) 1%nat
           (EvCall (Recv 7 512) (RBytes ["G"%byte; "E"%byte; "T"%byte]))).
  - reflexivity.
  - reflexivity.
Defined.

(** C5: the handler leaves every attribute of the instance as it was,
    and whichever connection it serves and whatever the client has sent,
    the only bytes it ever hands to [sendall] are those of the one fixed
    response: two exchanges on the same instance write identical bytes. *)
Theorem C5_same_response_same_state :
  (forall w conn addr, self (snd (_handle_request conn addr w)) = self w) /\
  (forall w conn addr c d,
     In (c, d) (payloads (emitted w (snd (_handle_request conn addr w)))) ->
     c = conn /\ d = response) /\
  (forall s tr1 tr2 conn1 conn2 addr1 addr2 avail1 avail2 rest1 rest2,
     let w1 := {| self := s; trace := tr1;
                  script := ROk :: RBytes avail1 :: ROk :: ROk :: rest1 |} in
     let w2 := {| self := s; trace := tr2;
                  script := ROk :: RBytes avail2 :: ROk :: ROk :: rest2 |} in
     let w1' := snd (_handle_request conn1 addr1 w1) in
     let w2' := snd (_handle_request conn2 addr2 w2) in
     sent_on conn1 (emitted w1 w1') = [response] /\
     sent_on conn2 (emitted w2 w2') = [response] /\
     self w1' = s /\ self w2' = s).
Proof.
  split; [exact handle_request_self |]. split.
  - intros w conn addr c d Hin.
    destruct (handle_request_events w conn addr) as (Hev & _).
    apply in_payloads in Hin. destruct Hin as (r & Hin).
    rewrite Forall_forall in Hev. exact (Hev _ Hin).
  - intros s tr1 tr2 conn1 conn2 addr1 addr2 avail1 avail2 rest1 rest2 w1 w2 w1' w2'.
    subst w1' w2' w1 w2. rewrite !handle_request_ok. cbn [fst snd trace self].
    erewrite !emitted_app by reflexivity.
    rewrite !sent_on_app, !sent_on_log. simpl. rewrite !Z.eqb_refl. auto.
Qed.

(** The three-byte request: the bytes sent on connection 7 are the response. *)
Lemma C5_witness : 7 = 7 /\ response = response.
Proof.
  apply (proj1 (proj2 C5_same_response_same_state) served 7 ("10.0.0.1"%string, 5000)
           7 response).
  vm_compute. left. reflexivity.
Defined.

(** ** The worker *)

Ltac run_script :=
  unfold worker_turn, wait_ready, _handle_request, _start_worker_loop, top_up_turn,
    run_turn, _kill_workers, _create_socket, except_socket_error,
    select_select, sock_accept, sock_setblocking, sock_recv, sock_sendall, sock_close,
    socket_socket, sock_setsockopt, sock_bind, sock_listen, os_fork, os_kill,
    workers_append, set_self, get_self, checkpoint, log, sys_unit, try_except;
  simpl; unfold bind, sys, ret, raise, step, deliver, mem; simpl;
  rewrite ?Z.eqb_refl; simpl.

(** The listener is reported readable but [accept] fails. *)
Lemma worker_turn_accept_error f s tr errno rest :
  worker_turn (S f)
    {| self := s; trace := tr;
       script := RReady [_listener s] :: RErr errno :: rest |}
  = (if errno =? EAGAIN then Returned Continue else Raised (OSError errno),
     {| self := s;
        trace := tr ++ [EvCall (Select [_listener s] [] [] 1) (RReady [_listener s]);
                        EvCall (Accept (_listener s)) (RErr errno)];
        script := rest |}).
Proof.
  destruct s as [n p lg ws l]. run_script.
  destruct (errno =? EAGAIN); simpl; rewrite <- app_assoc; reflexivity.
Qed.

(** A connection is accepted but [recv] fails on it. *)
Lemma worker_turn_recv_error f s tr conn peer errno rest :
  worker_turn (S f)
    {| self := s; trace := tr;
       script := RReady [_listener s] :: RConn conn peer :: ROk :: RErr errno :: rest |}
  = (if errno =? EAGAIN then Returned Continue else Raised (OSError errno),
     {| self := s;
        trace := tr ++ [EvCall (Select [_listener s] [] [] 1) (RReady [_listener s]);
                        EvCall (Accept (_listener s)) (RConn conn peer);
                        EvCall (SetBlocking conn 1) ROk;
                        EvCall (Recv conn 512) (RErr errno)];
        script := rest |}).
Proof.
  destruct s as [n p lg ws l]. run_script.
  destruct (errno =? EAGAIN); simpl; repeat rewrite <- app_assoc; reflexivity.
Qed.

(** A connection is accepted and read but [sendall] fails on it. *)
Lemma worker_turn_sendall_error f s tr conn peer avail errno rest :
  worker_turn (S f)
    {| self := s; trace := tr;
       script := RReady [_listener s] :: RConn conn peer :: ROk :: RBytes avail
                 :: RErr errno :: rest |}
  = (if errno =? EAGAIN then Returned Continue else Raised (OSError errno),
     {| self := s;
        trace := tr ++ [EvCall (Select [_listener s] [] [] 1) (RReady [_listener s]);
                        EvCall (Accept (_listener s)) (RConn conn peer);
                        EvCall (SetBlocking conn 1) ROk;
                        EvCall (Recv conn 512) (RBytes (take 512 avail))]
                    ++ log_events s DEBUG (Bytes_repr (take 512 avail))
                    ++ [EvCall (SendAll conn response) (RErr errno)];
        script := rest |}).
Proof.
  destruct s as [n p [|] ws l]; run_script;
    destruct (errno =? EAGAIN); simpl; repeat rewrite <- app_assoc; reflexivity.
Qed.

(** A connection is accepted and served in full. *)
Lemma worker_turn_served f s tr conn peer avail rest :
  worker_turn (S f)
    {| self := s; trace := tr;
       script := RReady [_listener s] :: RConn conn peer :: ROk :: RBytes avail
                 :: ROk :: ROk :: rest |}
  = (Returned Continue,
     {| self := s;
        trace := tr ++ [EvCall (Select [_listener s] [] [] 1) (RReady [_listener s]);
                        EvCall (Accept (_listener s)) (RConn conn peer);
                        EvCall (SetBlocking conn 1) ROk;
                        EvCall (Recv conn 512) (RBytes (take 512 avail))]
                    ++ log_events s DEBUG (Bytes_repr (take 512 avail))
                    ++ [EvCall (SendAll conn response) ROk;
                        EvCall (Close conn) ROk]
                    ++ log_events s DEBUG (Bytes_repr response);
        script := rest |}).
Proof.
  destruct s as [n p [|] ws l]; run_script; repeat rewrite <- app_assoc; reflexivity.
Qed.

(** The wait expires with nothing readable: the worker waits again. *)
Lemma wait_ready_timeout f s tr rest :
  wait_ready (S f) {| self := s; trace := tr; script := RReady [] :: rest |}
  = wait_ready f
      {| self := s;
         trace := tr ++ [EvCall (Select [_listener s] [] [] 1) (RReady [])];
         script := rest |}.
Proof.
  destruct s as [n p lg ws l]. run_script. reflexivity.
Qed.

Lemma loop_continue n body w w1 :
  body w = (Returned Continue, w1) -> loop (S n) body w = loop n body w1.
Proof. intros H. simpl. unfold bind. rewrite H. reflexivity. Qed.

Lemma loop_raised n body w w1 e :
  body w = (Raised e, w1) -> loop (S n) body w = (Raised e, w1).
Proof. intros H. simpl. unfold bind. rewrite H. reflexivity. Qed.

(** A loop whose body has no [break] never returns. *)
Lemma loop_never_returns n body w :
  (forall w0, fst (body w0) <> Returned Break) -> fst (loop n body w) <> Returned tt.
Proof.
  intros Hb. revert w. induction n as [| n IH]; intros w; simpl; [discriminate |].
  unfold bind. specialize (Hb w).
  destruct (body w) as [[[|] | e | sg |] w1]; simpl in *; try discriminate.
  - apply IH.
  - contradiction.
Qed.

Lemma worker_turn_never_breaks fuel w : fst (worker_turn fuel w) <> Returned Break.
Proof.
  unfold worker_turn, bind.
  destruct (wait_ready fuel w) as [[u | e | sg |] w1]; simpl; try discriminate.
  destruct (try_except _ _ w1) as [[u1 | e | sg |] w2]; simpl; discriminate.
Qed.

(** ** The supervisor *)

(** [os.fork] returns 0: the process is the new worker and enters its loop. *)
Lemma start_worker_loop_child fuel s tr rest :
  _start_worker_loop fuel {| self := s; trace := tr; script := RInt 0 :: rest |}
  = loop fuel (worker_turn fuel)
      {| self := s; trace := tr ++ [EvCall Fork (RInt 0)]; script := rest |}.
Proof.
  destruct s as [n p lg ws l]. run_script. reflexivity.
Qed.

(** [os.fork] returns a pid and no signal is pending: the process is
    the parent and records the pid. *)
Lemma start_worker_loop_parent fuel s tr pid rest :
  pid <> 0 ->
  _start_worker_loop fuel {| self := s; trace := tr; script := spawn_script pid ++ rest |}
  = (Returned tt,
     {| self := set_workers (_workers s ++ [pid]) s;
        trace := tr ++ spawn_events pid;
        script := rest |}).
Proof.
  intros Hpid. apply Z.eqb_neq in Hpid.
  destruct s as [n p [|] ws l]; run_script; rewrite Hpid; simpl;
    unfold set_workers; simpl; rewrite <- app_assoc; reflexivity.
Qed.

Lemma start_worker_loop_error fuel s tr errno rest :
  _start_worker_loop fuel {| self := s; trace := tr; script := RErr errno :: rest |}
  = (Raised (OSError errno),
     {| self := s; trace := tr ++ [EvCall Fork (RErr errno)]; script := rest |}).
Proof.
  destruct s as [n p lg ws l]. run_script. reflexivity.
Qed.

Lemma top_up_turn_spawn fuel w :
  can_fork (self w) ->
  top_up_turn fuel w = (_start_worker_loop fuel ;; ret Continue) w.
Proof.
  intros H. apply Z.ltb_lt in H. unfold top_up_turn, bind at 1, get_self. rewrite H.
  reflexivity.
Qed.

Lemma top_up_turn_full fuel w :
  ~ can_fork (self w) -> top_up_turn fuel w = (Returned Break, w).
Proof.
  intros H. unfold can_fork in H. apply Z.ltb_nlt in H.
  unfold top_up_turn, bind, get_self. rewrite H. reflexivity.
Qed.

Lemma bind_returned {A B} (m : M A) (k : A -> M B) w a w1 :
  m w = (Returned a, w1) -> bind m k w = k a w1.
Proof. intros H. unfold bind. rewrite H. reflexivity. Qed.

Lemma bind_raised {A B} (m : M A) (k : A -> M B) w e w1 :
  m w = (Raised e, w1) -> bind m k w = (Raised e, w1).
Proof. intros H. unfold bind. rewrite H. reflexivity. Qed.

Lemma checkpoint_tick s tr rest :
  checkpoint {| self := s; trace := tr; script := RTick :: rest |}
  = (Returned tt, {| self := s; trace := tr; script := rest |}).
Proof. reflexivity. Qed.

(** A worker that dies of an [OSError] takes its process down: the
    handlers of [run] do not catch it. *)
Lemma run_worker_raises f s tr rest errno w1 :
  can_fork s ->
  loop (S f) (worker_turn (S f))
    {| self := s; trace := tr ++ [EvCall Fork (RInt 0)]; script := rest |}
  = (Raised (OSError errno), w1) ->
  run (S f) {| self := s; trace := tr; script := RTick :: RInt 0 :: rest |}
  = (Raised (OSError errno), w1).
Proof.
  intros Hfork Hw. unfold run, try_except.
  assert (H : loop (S f) (run_turn (S f))
                {| self := s; trace := tr; script := RTick :: RInt 0 :: rest |}
              = (Raised (OSError errno), w1)).
  { apply loop_raised. unfold run_turn.
    erewrite bind_returned by apply checkpoint_tick.
    apply bind_raised. apply loop_raised.
    rewrite top_up_turn_spawn by exact Hfork.
    apply bind_raised. rewrite start_worker_loop_child. exact Hw. }
  rewrite H. reflexivity.
Qed.

(** C3: when [accept] fails with errno EAGAIN the worker is back at the
    head of its loop, about to wait on the listener again, having done
    nothing else; when it fails with any other errno the error leaves the
    worker loop, and [run] in the worker process ends with it. *)
Theorem C3_accept_errors :
  (forall n f s tr rest,
     loop (S n) (worker_turn (S f))
       {| self := s; trace := tr;
          script := RReady [_listener s] :: RErr EAGAIN :: rest |}
     = loop n (worker_turn (S f))
         {| self := s;
            trace := tr ++ [EvCall (Select [_listener s] [] [] 1) (RReady [_listener s]);
                            EvCall (Accept (_listener s)) (RErr EAGAIN)];
            script := rest |}) /\
  (forall n f s tr errno rest,
     errno <> EAGAIN ->
     loop (S n) (worker_turn (S f))
       {| self := s; trace := tr;
          script := RReady [_listener s] :: RErr errno :: rest |}
     = (Raised (OSError errno),
        {| self := s;
           trace := tr ++ [EvCall (Select [_listener s] [] [] 1) (RReady [_listener s]);
                           EvCall (Accept (_listener s)) (RErr errno)];
           script := rest |})) /\
  (forall f s tr errno rest,
     errno <> EAGAIN -> can_fork s ->
     run (S f)
       {| self := s; trace := tr;
          script := RTick :: RInt 0 :: RReady [_listener s] :: RErr errno :: rest |}
     = (Raised (OSError errno),
        {| self := s;
           trace := tr ++ [EvCall Fork (RInt 0);
                           EvCall (Select [_listener s] [] [] 1) (RReady [_listener s]);
                           EvCall (Accept (_listener s)) (RErr errno)];
           script := rest |})).
Proof.
  assert (Hfatal : forall n f s tr errno rest,
    errno <> EAGAIN ->
    loop (S n) (worker_turn (S f))
      {| self := s; trace := tr;
         script := RReady [_listener s] :: RErr errno :: rest |}
    = (Raised (OSError errno),
       {| self := s;
          trace := tr ++ [EvCall (Select [_listener s] [] [] 1) (RReady [_listener s]);
                          EvCall (Accept (_listener s)) (RErr errno)];
          script := rest |})).
  { intros n f s tr errno rest Hne. apply loop_raised.
    rewrite worker_turn_accept_error.
    apply Z.eqb_neq in Hne. rewrite Hne. reflexivity. }
  split; [| split].
  - intros n f s tr rest. apply loop_continue.
    rewrite worker_turn_accept_error. rewrite Z.eqb_refl. reflexivity.
  - exact Hfatal.
  - intros f s tr errno rest Hne Hfork.
    apply run_worker_raises; [exact Hfork |].
    rewrite Hfatal by exact Hne. rewrite <- app_assoc. reflexivity.
Qed.

(** A worker of a supervisor that tracks nobody yet meets ECONNRESET (104)
    on [accept]. *)
Lemma C3_witness :
  run 1 {| self := fresh; trace := [];
           script := [RTick; RInt 0; RReady [3]; RErr 104] |}
  = (Raised (OSError 104),
     {| self := fresh;
        trace := [EvCall Fork (RInt 0);
                  EvCall (Select [3] [] [] 1) (RReady [3]);
                  EvCall (Accept 3) (RErr 104)];
        script := [] |}).
Proof.
  apply (proj2 (proj2 C3_accept_errors) 0%nat fresh [] 104 []).
  - unfold EAGAIN. lia.
  - unfold can_fork. simpl. lia.
Defined.

(** C10: the [try] of the worker loop spans the handling of the accepted
    connection: when [recv] or [sendall] fails on it with errno EAGAIN,
    the worker is back at the head of its loop, about to wait, the error
    is neither logged nor raised, and [close] has not been called on the
    connection. *)
Theorem C10_eagain_swallowed_while_handling :
  (forall n f s tr conn peer rest,
     let w := {| self := s; trace := tr;
                 script := RReady [_listener s] :: RConn conn peer :: ROk
                           :: RErr EAGAIN :: rest |} in
     let w' := {| self := s;
                  trace := tr ++ [EvCall (Select [_listener s] [] [] 1) (RReady [_listener s]);
                                  EvCall (Accept (_listener s)) (RConn conn peer);
                                  EvCall (SetBlocking conn 1) ROk;
                                  EvCall (Recv conn 512) (RErr EAGAIN)];
                  script := rest |} in
     loop (S n) (worker_turn (S f)) w = loop n (worker_turn (S f)) w' /\
     closed conn (emitted w w') = false) /\
  (forall n f s tr conn peer avail rest,
     let w := {| self := s; trace := tr;
                 script := RReady [_listener s] :: RConn conn peer :: ROk
                           :: RBytes avail :: RErr EAGAIN :: rest |} in
     let w' := {| self := s;
                  trace := tr ++ [EvCall (Select [_listener s] [] [] 1) (RReady [_listener s]);
                                  EvCall (Accept (_listener s)) (RConn conn peer);
                                  EvCall (SetBlocking conn 1) ROk;
                                  EvCall (Recv conn 512) (RBytes (take 512 avail))]
                              ++ log_events s DEBUG (Bytes_repr (take 512 avail))
                              ++ [EvCall (SendAll conn response) (RErr EAGAIN)];
                  script := rest |} in
     loop (S n) (worker_turn (S f)) w = loop n (worker_turn (S f)) w' /\
     closed conn (emitted w w') = false).
Proof.
  split.
  - intros n f s tr conn peer rest w w'. subst w w'. split.
    + apply loop_continue. rewrite worker_turn_recv_error.
      rewrite Z.eqb_refl. reflexivity.
    + erewrite emitted_app by reflexivity. reflexivity.
  - intros n f s tr conn peer avail rest w w'. subst w w'. split.
    + apply loop_continue. rewrite worker_turn_sendall_error.
      rewrite Z.eqb_refl. reflexivity.
    + erewrite emitted_app by reflexivity.
      unfold closed, log_events. destruct (enabled (logger s) DEBUG); reflexivity.
Qed.

(** ** Invariants of the supervisor and of the workers *)

Lemma forked_app evs1 evs2 : forked (evs1 ++ evs2) = forked evs1 ++ forked evs2.
Proof. apply flat_map_app. Qed.

Lemma forks_app evs1 evs2 : forks (evs1 ++ evs2) = (forks evs1 + forks evs2)%nat.
Proof. unfold forks. rewrite filter_app, length_app. reflexivity. Qed.

Lemma last_event_snoc prev tr e : last_event prev (tr ++ [e]) = Some e.
Proof. revert prev. induction tr as [| x tr IH]; intros prev; simpl; auto. Qed.

Lemma guarded_from_snoc prev tr e :
  guarded_from prev (tr ++ [e])
  = guarded_from prev tr && allowed_after (last_event prev tr) e.
Proof.
  revert prev. induction tr as [| x tr IH]; intros prev; simpl.
  - rewrite andb_true_r. reflexivity.
  - rewrite IH. rewrite andb_assoc. reflexivity.
Qed.

Lemma guarded_snoc tr e :
  guarded tr = true -> allowed_after (last_event None tr) e = true ->
  guarded (tr ++ [e]) = true.
Proof.
  intros Ht He. unfold guarded in *. rewrite guarded_from_snoc, Ht, He. reflexivity.
Qed.

Lemma run_call_allowed s c r prev : run_call s c -> allowed_after prev (EvCall c r) = true.
Proof. destruct c; simpl; try reflexivity. intros []. Qed.

Lemma run_call_timed s c r : run_call s c -> timed (EvCall c r).
Proof.
  destruct c; unfold timed; simpl; try discriminate.
  intros (_ & _ & _ & ->) _. reflexivity.
Qed.

Lemma run_call_forked s c r : run_call s c -> forked [EvCall c r] = [].
Proof. destruct c; simpl; try reflexivity. intros []. Qed.

Lemma run_call_forks s c r : run_call s c -> forks [EvCall c r] = O.
Proof. destruct c; simpl; try reflexivity. intros []. Qed.

(** The count of tracked workers stays within the target. *)
Lemma run_bounded n fuel : triple (bounded n) (run fuel) (fun _ => bounded n) (fun _ => bounded n).
Proof.
  apply inv_run; unfold bounded; auto.
  intros s tr pid Hfork [Hn Hle]. unfold can_fork in Hfork. simpl.
  split; [exact Hn |]. rewrite length_app. simpl. lia.
Qed.

(** The tracked workers are those the process has forked, but for a
    fork whose pid the parent has not appended. *)
Lemma tracked_snoc ws0 tr0 s tr e :
  forked [e] = [] -> tracked ws0 tr0 s tr -> tracked ws0 tr0 s (tr ++ [e]).
Proof.
  intros He (evs & -> & Hw). exists (evs ++ [e]).
  rewrite app_assoc, forked_app, He, app_nil_r. auto.
Qed.

Lemma awaited_snoc pid ws0 tr0 s tr e :
  forked [e] = [] -> awaited pid ws0 tr0 s tr -> awaited pid ws0 tr0 s (tr ++ [e]).
Proof.
  intros He (evs & -> & Hw). exists (evs ++ [e]).
  rewrite app_assoc, forked_app, He, app_nil_r. auto.
Qed.

Lemma behind_snoc ws0 tr0 s tr e :
  forked [e] = [] -> behind ws0 tr0 s tr -> behind ws0 tr0 s (tr ++ [e]).
Proof.
  intros He (evs & pending & -> & Hw & Hp). exists (evs ++ [e]), pending.
  rewrite app_assoc, forked_app, He, app_nil_r. auto.
Qed.

Lemma tracked_behind ws0 tr0 s tr : tracked ws0 tr0 s tr -> behind ws0 tr0 s tr.
Proof.
  intros (evs & -> & Hw). exists evs, []. rewrite app_nil_r. simpl. auto.
Qed.

Lemma awaited_behind pid ws0 tr0 s tr : awaited pid ws0 tr0 s tr -> behind ws0 tr0 s tr.
Proof. intros (evs & -> & Hw). exists evs, [pid]. simpl. auto. Qed.

Lemma tracked_fork ws0 tr0 s tr pid :
  pid <> 0 -> tracked ws0 tr0 s tr -> awaited pid ws0 tr0 s (tr ++ [EvCall Fork (RInt pid)]).
Proof.
  intros Hpid (evs & -> & Hw). exists (evs ++ [EvCall Fork (RInt pid)]).
  rewrite app_assoc, forked_app, Hw. simpl.
  apply Z.eqb_neq in Hpid. rewrite Hpid, app_assoc. auto.
Qed.

Lemma worker_loop_tracked ws0 tr0 fuel :
  triple (tracked ws0 tr0) (loop fuel (worker_turn fuel))
    (fun _ => tracked ws0 tr0) (fun _ => tracked ws0 tr0).
Proof.
  apply triple_loop; [| auto].
  eapply triple_conseq; [apply (inv_worker_turn (tracked ws0 tr0)) | auto | | auto].
  - intros s tr sig. apply tracked_snoc. reflexivity.
  - intros s tr l m. apply tracked_snoc. reflexivity.
  - intros s tr c r Hc. apply tracked_snoc. apply (run_call_forked s c r Hc).
  - intros s tr rl r _ H.
    change (tr ++ [EvCall (Select [_listener s] [] [] 1) (RReady rl);
                   EvCall (Accept (_listener s)) r])
      with (tr ++ [EvCall (Select [_listener s] [] [] 1) (RReady rl)]
               ++ [EvCall (Accept (_listener s)) r]).
    rewrite app_assoc. apply tracked_snoc; [reflexivity |].
    apply tracked_snoc; [reflexivity | exact H].
  - intros [|] s tr H; exact H.
Qed.

Lemma start_worker_loop_tracked ws0 tr0 fuel :
  triple (tracked ws0 tr0) (_start_worker_loop fuel)
    (fun _ => tracked ws0 tr0) (fun _ => behind ws0 tr0).
Proof.
  unfold _start_worker_loop, os_fork.
  eapply triple_bind with
    (Q1 := fun pid s tr => if pid =? 0 then tracked ws0 tr0 s tr else awaited pid ws0 tr0 s tr).
  - eapply triple_bind with
      (Q1 := fun r s tr =>
               match r with
               | RInt pid => if pid =? 0 then tracked ws0 tr0 s tr else awaited pid ws0 tr0 s tr
               | _ => behind ws0 tr0 s tr
               end).
    + apply triple_sys.
      * intros s tr H. apply tracked_behind, H.
      * intros s tr sig H. apply tracked_behind, tracked_snoc; [reflexivity | exact H].
      * intros s tr e H. apply tracked_behind, tracked_snoc; [reflexivity | exact H].
      * intros s tr r r' H Ho.
        destruct r; simpl in Ho; try discriminate.
        injection Ho as <-. destruct (n =? 0) eqn:Hn.
        -- apply Z.eqb_eq in Hn. subst n. apply tracked_snoc; [reflexivity | exact H].
        -- apply Z.eqb_neq in Hn. apply tracked_fork; assumption.
    + intros r. destruct r; try (apply triple_starve; auto).
      apply triple_ret. auto.
  - intros pid. destruct (pid =? 0) eqn:Hpid; simpl.
    + eapply triple_conseq; [apply (worker_loop_tracked ws0 tr0 fuel) | auto | auto |].
      intros en s tr. apply tracked_behind.
    + eapply triple_bind with (Q1 := fun _ => awaited pid ws0 tr0).
      { apply triple_checkpoint; [| | auto].
        - intros s tr. apply awaited_behind.
        - intros s tr sig H. eapply awaited_behind, awaited_snoc; [reflexivity | exact H]. }
      intros ?.
      eapply triple_bind with (Q1 := fun _ => awaited pid ws0 tr0).
      { apply triple_log. intros s tr H. unfold log_events.
        destruct (enabled (logger s) INFO); [| rewrite app_nil_r; exact H].
        apply awaited_snoc; [reflexivity | exact H]. }
      intros ?.
      eapply triple_bind with (Q1 := fun _ => awaited pid ws0 tr0).
      { apply triple_checkpoint; [| | auto].
        - intros s tr. apply awaited_behind.
        - intros s tr sig H. eapply awaited_behind, awaited_snoc; [reflexivity | exact H]. }
      intros ?. apply triple_set_self.
      intros s tr (evs & -> & Hw). exists evs. auto.
Qed.

Lemma run_tracked ws0 tr0 fuel :
  triple (tracked ws0 tr0) (run fuel) (fun _ => behind ws0 tr0) (fun _ => behind ws0 tr0).
Proof.
  unfold run. apply triple_try with (E' := fun _ => behind ws0 tr0); auto.
  - eapply triple_conseq with
      (P' := tracked ws0 tr0) (Q' := fun _ => tracked ws0 tr0)
      (E' := fun _ => behind ws0 tr0);
      [| auto | intros a s tr; apply tracked_behind | auto].
    apply triple_loop; [| intros s tr; apply tracked_behind].
    unfold run_turn.
    eapply triple_bind with (Q1 := fun _ => tracked ws0 tr0).
    { apply triple_checkpoint; [| | auto].
      - intros s tr. apply tracked_behind.
      - intros s tr sig H. apply tracked_behind, tracked_snoc; [reflexivity | exact H]. }
    intros ?.
    eapply triple_bind with (Q1 := fun _ => tracked ws0 tr0);
      [| intros ?; apply triple_ret; auto].
    apply triple_loop; [| intros s tr; apply tracked_behind].
    unfold top_up_turn.
    eapply triple_bind with (Q1 := fun _ => tracked ws0 tr0).
    { eapply triple_conseq with (P' := tracked ws0 tr0) (E' := fun _ => behind ws0 tr0);
        [apply triple_get_self | auto | | auto].
      intros ? s tr [H _]. exact H. }
    intros s0. destruct (_ <? _); [| apply triple_ret; auto].
    eapply triple_bind; [apply start_worker_loop_tracked |].
    intros ?. apply triple_ret. auto.
  - intros e h He.
    assert (Hk : triple (behind ws0 tr0) _kill_workers
                   (fun _ => behind ws0 tr0) (fun _ => behind ws0 tr0)).
    { apply inv_kill_workers.
      - intros s tr sig. apply behind_snoc. reflexivity.
      - intros s tr c r Hc. apply behind_snoc. apply (run_call_forked s c r Hc). }
    destruct e; simpl in He; try discriminate; injection He as <-; exact Hk.
Qed.

(** No [accept] comes unannounced, and every wait is of one second. *)
Lemma announced_snoc tr0 (s : HTTPServer) tr e :
  (forall prev, allowed_after prev e = true) -> timed e ->
  announced tr0 s tr -> announced tr0 s (tr ++ [e]).
Proof.
  intros Ha Ht (evs & -> & Hg & Hs). exists (evs ++ [e]).
  rewrite app_assoc. repeat split.
  - apply guarded_snoc; auto.
  - apply Forall_app. split; [exact Hs | constructor; [exact Ht | constructor]].
Qed.

Lemma announced_signal tr0 s tr sig :
  announced tr0 s tr -> announced tr0 s (tr ++ [EvSignal sig]).
Proof. apply announced_snoc; [reflexivity | discriminate]. Qed.

Lemma announced_log tr0 s tr l m :
  announced tr0 s tr -> announced tr0 s (tr ++ [EvLog l m]).
Proof. apply announced_snoc; [reflexivity | discriminate]. Qed.

Lemma announced_call tr0 s tr c r :
  run_call s c -> announced tr0 s tr -> announced tr0 s (tr ++ [EvCall c r]).
Proof.
  intros Hc. apply announced_snoc.
  - intros prev. apply (run_call_allowed s c r prev Hc).
  - apply (run_call_timed s c r Hc).
Qed.

Lemma announced_accept tr0 s tr rl r :
  rl <> [] -> announced tr0 s tr ->
  announced tr0 s (tr ++ [EvCall (Select [_listener s] [] [] 1) (RReady rl);
                          EvCall (Accept (_listener s)) r]).
Proof.
  intros Hrl (evs & -> & Hg & Hs).
  exists ((evs ++ [EvCall (Select [_listener s] [] [] 1) (RReady rl)])
          ++ [EvCall (Accept (_listener s)) r]).
  repeat split.
  - rewrite <- !app_assoc. reflexivity.
  - apply guarded_snoc; [apply guarded_snoc; [exact Hg | reflexivity] |].
    rewrite last_event_snoc. destruct rl as [| x rl]; [contradiction |].
    simpl. rewrite Z.eqb_refl. reflexivity.
  - apply Forall_app. split; [apply Forall_app; split; [exact Hs |] |];
      constructor; try constructor; unfold timed; simpl; auto; discriminate.
Qed.

Lemma run_announced tr0 fuel :
  triple (announced tr0) (run fuel) (fun _ => announced tr0) (fun _ => announced tr0).
Proof.
  apply inv_run.
  - apply announced_signal.
  - apply announced_log.
  - apply announced_call.
  - intros s tr e _. apply announced_snoc; [reflexivity | discriminate].
  - intros s tr _. apply announced_snoc; [reflexivity | discriminate].
  - intros s tr pid _ _. apply announced_snoc; [reflexivity | discriminate].
  - intros s tr pid _ H. exact H.
  - apply announced_accept.
Qed.

Lemma worker_loop_announced tr0 fuel :
  triple (announced tr0) (loop fuel (worker_turn fuel))
    (fun _ => announced tr0) (fun _ => announced tr0).
Proof.
  apply triple_loop; [| auto].
  eapply triple_conseq; [apply (inv_worker_turn (announced tr0)) | auto | | auto].
  - apply announced_signal.
  - apply announced_log.
  - apply announced_call.
  - apply announced_accept.
  - intros [|] s tr H; exact H.
Qed.

Lemma announced_emitted (m : M unit) w :
  triple (announced (trace w)) m (fun _ => announced (trace w)) (fun _ => announced (trace w)) ->
  guarded (emitted w (snd (m w))) = true /\ Forall timed (emitted w (snd (m w))).
Proof.
  intros Hm.
  destruct (triple_always _ _ _ w Hm) as (evs & Htr & Hg & Ht).
  - exists []. rewrite app_nil_r. repeat split; auto.
  - rewrite (emitted_app _ _ _ Htr). auto.
Qed.

(** Once the target is reached, the process forks no more. *)
Lemma run_forkless tr0 fuel :
  triple (forkless tr0) (run fuel) (fun _ => forkless tr0) (fun _ => forkless tr0).
Proof.
  assert (Hsnoc : forall s tr e, forks [e] = O -> forkless tr0 s tr -> forkless tr0 s (tr ++ [e])).
  { intros s tr e He (Hn & evs & -> & Hf). split; [exact Hn |].
    exists (evs ++ [e]). rewrite app_assoc, forks_app, Hf, He. auto. }
  apply inv_run.
  - intros s tr sig. apply Hsnoc. reflexivity.
  - intros s tr l m. apply Hsnoc. reflexivity.
  - intros s tr c r Hc. apply Hsnoc. apply (run_call_forks s c r Hc).
  - intros s tr e Hfork [Hn _]. contradiction.
  - intros s tr Hfork [Hn _]. contradiction.
  - intros s tr pid Hfork _ [Hn _]. contradiction.
  - intros s tr pid Hfork [Hn _]. contradiction.
  - intros s tr rl r _ H.
    change (tr ++ [EvCall (Select [_listener s] [] [] 1) (RReady rl);
                   EvCall (Accept (_listener s)) r])
      with (tr ++ [EvCall (Select [_listener s] [] [] 1) (RReady rl)]
               ++ [EvCall (Accept (_listener s)) r]).
    rewrite app_assoc. apply Hsnoc; [reflexivity |]. apply Hsnoc; [reflexivity | exact H].
Qed.

(** C9: the worker waits on the listener by [select] with a timeout of
    one second and waits again when the wait expires with nothing
    readable; in every run, however long and however it ends, every
    [accept] comes right after a [select] on the listener that reported
    it readable, and every [select] has a timeout of one second. *)
Theorem C9_accept_only_when_ready :
  (forall f s tr rest,
     wait_ready (S f) {| self := s; trace := tr; script := RReady [] :: rest |}
     = wait_ready f
         {| self := s;
            trace := tr ++ [EvCall (Select [_listener s] [] [] 1) (RReady [])];
            script := rest |}) /\
  (forall fuel w,
     let evs := emitted w (snd (run fuel w)) in
     guarded evs = true /\ Forall timed evs) /\
  (forall fuel w,
     let evs := emitted w (snd (loop fuel (worker_turn fuel) w)) in
     guarded evs = true /\ Forall timed evs).
Proof.
  split; [exact wait_ready_timeout |]. split.
  - intros fuel w. apply announced_emitted, run_announced.
  - intros fuel w. apply announced_emitted, worker_loop_announced.
Qed.

Example unannounced_accept_is_not_guarded :
  guarded [EvCall (Select [3] [] [] 1) (RReady []); EvCall (Accept 3) (RErr 11)] = false.
Proof. reflexivity. Qed.

(** ** Start-up *)

(** The calls of listener creation leave the instance alone. *)
Lemma frame_sys (P : HTTPServer -> Prop) c :
  triple (fun s _ => P s) (sys c) (fun _ s _ => P s) (fun _ s _ => P s).
Proof. apply triple_sys; auto. Qed.

Lemma frame_sys_unit (P : HTTPServer -> Prop) c :
  triple (fun s _ => P s) (sys_unit c) (fun _ s _ => P s) (fun _ s _ => P s).
Proof.
  unfold sys_unit. eapply triple_bind; [apply frame_sys |].
  intros r. apply triple_ret. auto.
Qed.

Lemma frame_create_socket (P : HTTPServer -> Prop) host port backlog :
  triple (fun s _ => P s) (_create_socket host port backlog)
    (fun _ s _ => P s) (fun _ s _ => P s).
Proof.
  unfold _create_socket, socket_socket, sock_setblocking, sock_setsockopt, sock_bind,
    sock_listen.
  eapply triple_bind with (Q1 := fun _ s _ => P s).
  - eapply triple_bind; [apply frame_sys |].
    intros r. destruct r; (apply triple_ret || apply triple_starve); auto.
  - intros l.
    repeat (eapply triple_bind; [apply frame_sys_unit | intros ?]).
    apply triple_ret. auto.
Qed.

Lemma init_bounded wc p d :
  0 <= default wc 1 ->
  triple (fun _ _ => True) (__init__ wc p d)
    (fun _ => bounded (default wc 1)) (fun _ => bounded (default wc 1)).
Proof.
  intros Hwc. unfold __init__.
  eapply triple_bind with (Q1 := fun _ s _ => _desired_worker_count s = default wc 1);
    [apply triple_set_self; reflexivity | intros ?].
  eapply triple_bind with (Q1 := fun _ s _ => _desired_worker_count s = default wc 1);
    [apply triple_set_self; auto | intros ?].
  eapply triple_bind with (Q1 := fun _ s _ => _desired_worker_count s = default wc 1);
    [apply triple_set_self; auto | intros ?].
  eapply triple_bind with (Q1 := fun _ => bounded (default wc 1)).
  { apply triple_set_self. intros s tr H. split; [exact H | simpl; lia]. }
  intros ?.
  eapply triple_bind with (Q1 := fun _ => bounded (default wc 1)).
  { eapply triple_conseq with
      (P' := bounded (default wc 1)) (E' := fun _ => bounded (default wc 1));
      [apply triple_get_self | auto | | auto].
    intros x s tr [H _]. exact H. }
  intros s0.
  eapply triple_bind; [apply (frame_create_socket (fun s => bounded (default wc 1) s [])) |].
  intros l. apply triple_set_self. auto.
Qed.

Lemma main_bounded fuel a :
  0 <= worker_count a ->
  triple (fun _ _ => True) (main fuel a)
    (fun _ => bounded (worker_count a)) (fun _ => bounded (worker_count a)).
Proof.
  intros Hwc. unfold main.
  eapply triple_bind; [apply (init_bounded (Some (worker_count a))); exact Hwc |].
  intros ?. apply run_bounded.
Qed.

(** The parent after [os.fork] has returned [pid]: the bookkeeping
    that is left to do. *)
Lemma start_worker_loop_forked fuel s tr pid rest :
  pid <> 0 ->
  _start_worker_loop fuel {| self := s; trace := tr; script := RInt pid :: rest |}
  = (checkpoint ;; log INFO (Started_worker pid) ;; checkpoint ;; workers_append pid)
      {| self := s; trace := tr ++ [EvCall Fork (RInt pid)]; script := rest |}.
Proof.
  intros Hpid. apply Z.eqb_neq in Hpid.
  unfold _start_worker_loop, os_fork, bind at 1 2, sys. simpl. unfold ret, step. simpl.
  rewrite Hpid. reflexivity.
Qed.

(** A signal that arrives after [os.fork] has returned and before the
    pid is logged. *)
Lemma start_worker_loop_interrupted fuel s tr pid sig rest :
  pid <> 0 ->
  _start_worker_loop fuel
    {| self := s; trace := tr; script := RInt pid :: RSignal sig :: rest |}
  = deliver sig
      {| self := s; trace := tr ++ [EvCall Fork (RInt pid); EvSignal sig]; script := rest |}.
Proof.
  intros Hpid. rewrite start_worker_loop_forked by exact Hpid.
  unfold bind, checkpoint, deliver, step. simpl. rewrite <- app_assoc.
  destruct (disposition sig); reflexivity.
Qed.

(** A signal that arrives after the pid is logged and before it is
    appended. *)
Lemma start_worker_loop_interrupted_late fuel s tr pid sig rest :
  pid <> 0 ->
  _start_worker_loop fuel
    {| self := s; trace := tr; script := RInt pid :: RTick :: RSignal sig :: rest |}
  = deliver sig
      {| self := s; trace := tr ++ spawn_events pid ++ [EvSignal sig]; script := rest |}.
Proof.
  intros Hpid. rewrite start_worker_loop_forked by exact Hpid.
  destruct s as [n p [|] ws l];
    unfold bind, checkpoint, log, deliver, step; simpl; rewrite <- !app_assoc;
    destruct (disposition sig); reflexivity.
Qed.

(** [_start_worker_loop] returns in the parent only, and only when the
    pid has been logged and appended. *)
Lemma start_worker_loop_returned fuel w w' :
  _start_worker_loop fuel w = (Returned tt, w') ->
  exists pid rest,
    pid <> 0 /\ script w = spawn_script pid ++ rest /\
    w' = {| self := set_workers (_workers (self w) ++ [pid]) (self w);
            trace := trace w ++ spawn_events pid;
            script := rest |}.
Proof.
  destruct w as [s tr sc]. intros H.
  destruct sc as [| r sc]; [discriminate H |].
  destruct r as [| pid | rd | cn pr | d | e | sg |]; try discriminate H.
  - destruct (Z.eq_dec pid 0) as [-> | Hpid].
    + rewrite start_worker_loop_child in H. exfalso.
      apply (loop_never_returns fuel (worker_turn fuel)
               {| self := s; trace := tr ++ [EvCall Fork (RInt 0)]; script := sc |}
               (worker_turn_never_breaks fuel)).
      rewrite H. reflexivity.
    + destruct sc as [| r1 sc];
        [rewrite start_worker_loop_forked in H by exact Hpid; discriminate H |].
      destruct r1 as [| | | | | | sg |];
        try (rewrite start_worker_loop_forked in H by exact Hpid; discriminate H).
      * rewrite start_worker_loop_interrupted in H by exact Hpid.
        destruct sg; discriminate H.
      * destruct sc as [| r2 sc];
          [rewrite start_worker_loop_forked in H by exact Hpid;
           destruct s as [? ? [|] ? ?]; discriminate H |].
        destruct r2 as [| | | | | | sg |];
          try (rewrite start_worker_loop_forked in H by exact Hpid;
               destruct s as [? ? [|] ? ?]; discriminate H).
        -- rewrite start_worker_loop_interrupted_late in H by exact Hpid.
           destruct sg; discriminate H.
        -- exists pid, sc. split; [exact Hpid |]. split; [reflexivity |].
           change (RInt pid :: RTick :: RTick :: sc) with (spawn_script pid ++ sc) in H.
           rewrite start_worker_loop_parent in H by exact Hpid.
           injection H as <-. reflexivity.
  - destruct sg; discriminate H.
Qed.

(** With one more worker wanted, [run] forks once, records the pid and
    is then cut at its next step. *)
Lemma run_spawns_one f s tr pid :
  can_fork s -> pid <> 0 ->
  run (S (S f)) {| self := s; trace := tr; script := RTick :: spawn_script pid |}
  = (Starved,
     {| self := set_workers (_workers s ++ [pid]) s;
        trace := tr ++ spawn_events pid;
        script := [] |}).
Proof.
  intros Hfork Hpid.
  set (w1 := {| self := set_workers (_workers s ++ [pid]) s;
                trace := tr ++ spawn_events pid; script := [] |}).
  assert (Hturn : top_up_turn (S (S f))
                    {| self := s; trace := tr; script := spawn_script pid ++ [] |}
                  = (Returned Continue, w1)).
  { rewrite top_up_turn_spawn by exact Hfork.
    erewrite bind_returned by (apply start_worker_loop_parent; exact Hpid).
    reflexivity. }
  assert (Hcut : _start_worker_loop (S (S f)) w1 = (Starved, w1)) by reflexivity.
  unfold run, try_except.
  assert (H : loop (S (S f)) (run_turn (S (S f)))
                {| self := s; trace := tr; script := RTick :: spawn_script pid |}
              = (Starved, w1)).
  { simpl loop. unfold bind at 1, run_turn at 1.
    erewrite bind_returned by apply checkpoint_tick.
    unfold bind at 1. simpl loop. unfold bind at 1.
    rewrite <- (app_nil_r (spawn_script pid)), Hturn.
    unfold bind at 1.
    destruct (Z_lt_dec (Z.of_nat (List.length (_workers (self w1))))
                (_desired_worker_count (self w1))) as [Hmore | Hfull].
    - rewrite top_up_turn_spawn by exact Hmore. unfold bind at 1. rewrite Hcut. reflexivity.
    - rewrite top_up_turn_full by exact Hfull. reflexivity. }
  rewrite H. reflexivity.
Qed.

(** C4: in the supervisor's loop, with fewer workers tracked than the
    target, one turn makes one fork and, when the fork returns a pid and no
    signal comes in between, appends exactly this pid; the turn returns in
    no other way; [run] makes this turn.  When SIGINT arrives after the
    fork has returned and before the append, before or after the log
    record, the turn ends with the fork made and no pid appended.  With the
    count at or above the target the turn does nothing and the process never
    forks again; and the count, once within the target, stays within it:
    from start-up on, for a target that is not negative. *)
Theorem C4_top_up :
  (forall fuel s tr pid rest,
     can_fork s -> pid <> 0 ->
     let w := {| self := s; trace := tr; script := spawn_script pid ++ rest |} in
     let w' := {| self := set_workers (_workers s ++ [pid]) s;
                  trace := tr ++ spawn_events pid;
                  script := rest |} in
     top_up_turn fuel w = (Returned Continue, w') /\
     forks (emitted w w') = 1%nat /\
     List.length (_workers (self w')) = S (List.length (_workers s))) /\
  (forall fuel w c w',
     can_fork (self w) -> top_up_turn fuel w = (Returned c, w') ->
     exists pid,
       pid <> 0 /\ c = Continue /\
       emitted w w' = spawn_events pid /\
       self w' = set_workers (_workers (self w) ++ [pid]) (self w)) /\
  (forall fuel s tr pid rest,
     can_fork s -> pid <> 0 ->
     top_up_turn fuel
       {| self := s; trace := tr; script := RInt pid :: RSignal SIGINT :: rest |}
     = (Raised KeyboardInterrupt,
        {| self := s;
           trace := tr ++ [EvCall Fork (RInt pid); EvSignal SIGINT];
           script := rest |}) /\
     top_up_turn fuel
       {| self := s; trace := tr; script := RInt pid :: RTick :: RSignal SIGINT :: rest |}
     = (Raised KeyboardInterrupt,
        {| self := s;
           trace := tr ++ spawn_events pid ++ [EvSignal SIGINT];
           script := rest |})) /\
  (forall f s tr pid,
     can_fork s -> pid <> 0 ->
     run (S (S f)) {| self := s; trace := tr; script := RTick :: spawn_script pid |}
     = (Starved,
        {| self := set_workers (_workers s ++ [pid]) s;
           trace := tr ++ spawn_events pid;
           script := [] |})) /\
  (forall fuel w,
     ~ can_fork (self w) ->
     top_up_turn fuel w = (Returned Break, w) /\
     forks (emitted w (snd (run fuel w))) = O) /\
  (forall fuel w,
     Z.of_nat (List.length (_workers (self w))) <= _desired_worker_count (self w) ->
     Z.of_nat (List.length (_workers (self (snd (run fuel w)))))
     <= _desired_worker_count (self w)) /\
  (forall fuel a os,
     0 <= worker_count a ->
     Z.of_nat (List.length (_workers (self (snd (main fuel a (boot os))))))
     <= worker_count a).
Proof.
  split; [| split; [| split; [| split; [| split; [| split]]]]].
  - intros fuel s tr pid rest Hfork Hpid w w'. subst w w'. repeat split.
    + rewrite top_up_turn_spawn by exact Hfork.
      erewrite bind_returned by (apply start_worker_loop_parent; exact Hpid).
      reflexivity.
    + erewrite emitted_app by reflexivity. reflexivity.
    + simpl. rewrite length_app. simpl. lia.
  - intros fuel w c w' Hfork H.
    rewrite top_up_turn_spawn in H by exact Hfork. unfold bind in H.
    destruct (_start_worker_loop fuel w) as [[[] | e | sg |] w1] eqn:Hs; try discriminate H.
    injection H as <- <-.
    destruct (start_worker_loop_returned _ _ _ Hs) as (pid & rest & Hpid & _ & ->).
    exists pid. repeat split; auto.
    apply emitted_app. reflexivity.
  - intros fuel s tr pid rest Hfork Hpid. split.
    + rewrite top_up_turn_spawn by exact Hfork.
      apply bind_raised. apply (start_worker_loop_interrupted fuel s tr pid SIGINT rest Hpid).
    + rewrite top_up_turn_spawn by exact Hfork.
      apply bind_raised.
      apply (start_worker_loop_interrupted_late fuel s tr pid SIGINT rest Hpid).
  - intros f s tr pid Hfork Hpid. apply run_spawns_one; assumption.
  - intros fuel w Hfull. split; [apply top_up_turn_full; exact Hfull |].
    destruct (triple_always _ _ _ w (run_forkless (trace w) fuel)) as (_ & evs & Htr & Hf).
    + split; [exact Hfull |]. exists []. rewrite app_nil_r. auto.
    + rewrite (emitted_app _ _ _ Htr). exact Hf.
  - intros fuel w Hle.
    destruct (triple_always _ _ _ w (run_bounded (_desired_worker_count (self w)) fuel))
      as [_ H]; [split; auto | exact H].
  - intros fuel a os Hwc.
    destruct (triple_always _ _ _ (boot os) (main_bounded fuel a Hwc)) as [_ H];
      [exact I | exact H].
Qed.

(** A supervisor that tracks nobody yet and wants two workers: it forks
    pid 101 and records it; interrupted after the fork, it records nothing. *)
Lemma C4_witness :
  top_up_turn 1 {| self := fresh; trace := []; script := spawn_script 101 ++ [] |}
  = (Returned Continue,
     {| self := set_workers [101] fresh;
        trace := [EvCall Fork (RInt 101); EvLog INFO (Started_worker 101)];
        script := [] |}) /\
  top_up_turn 1 {| self := fresh; trace := []; script := [RInt 101; RSignal SIGINT] |}
  = (Raised KeyboardInterrupt,
     {| self := fresh;
        trace := [EvCall Fork (RInt 101); EvSignal SIGINT];
        script := [] |}).
Proof.
  split.
  - apply (proj1 C4_top_up 1%nat fresh [] 101 []).
    + unfold can_fork. simpl. lia.
    + lia.
  - refine (proj1 (proj1 (proj2 (proj2 C4_top_up)) 1%nat fresh [] 101 [] _ _)).
    + unfold can_fork. simpl. lia.
    + lia.
Defined.

(** ** Runs on longer scripts *)

Lemma grows_refl w : grows w w.
Proof. split; exists []; rewrite app_nil_r; reflexivity. Qed.

Lemma grows_trans w1 w2 w3 : grows w1 w2 -> grows w2 w3 -> grows w1 w3.
Proof.
  intros [[e1 H1] [p1 G1]] [[e2 H2] [p2 G2]]. split.
  - exists (e1 ++ e2). rewrite H2, H1, app_assoc. reflexivity.
  - exists (p1 ++ p2). rewrite G2, G1, app_assoc. reflexivity.
Qed.

Lemma grows_step w e rest : grows w (step e rest w).
Proof. split; [exists [e] | exists []; rewrite app_nil_r]; reflexivity. Qed.

Lemma steady_ret {A} (a : A) : steady (ret a).
Proof. intros w. split; [apply grows_refl | intros os; left; reflexivity]. Qed.

Lemma steady_raise {A} e : steady (@raise A e).
Proof. intros w. split; [apply grows_refl | intros os; left; reflexivity]. Qed.

Lemma steady_starve {A} : steady (@starve A).
Proof. intros w. split; [apply grows_refl | intros os; left; reflexivity]. Qed.

Lemma steady_get_self : steady get_self.
Proof. intros w. split; [apply grows_refl | intros os; left; reflexivity]. Qed.

Lemma steady_workers_append pid : steady (workers_append pid).
Proof.
  intros w. split.
  - split; [exists []; rewrite app_nil_r | exists [pid]]; reflexivity.
  - intros os. left. reflexivity.
Qed.

Lemma steady_log l m : steady (log l m).
Proof.
  intros w. unfold log, more. simpl. destruct (enabled (logger (self w)) l); simpl.
  - split; [| intros os; left; reflexivity].
    split; [exists [EvLog l m] | exists []; rewrite app_nil_r]; reflexivity.
  - split; [apply grows_refl | intros os; left; reflexivity].
Qed.

Lemma sys_grows c w : grows w (snd (sys c w)).
Proof.
  unfold sys. destruct (script w) as [| r rest]; [apply grows_refl |].
  destruct r; simpl;
    try (destruct (observe c _); simpl; [apply grows_step | apply grows_refl]).
  - apply grows_step.
  - unfold deliver. destruct (disposition s); simpl; apply grows_step.
Qed.

Lemma steady_sys c : steady (sys c).
Proof.
  intros w. split; [apply sys_grows |]. intros os.
  destruct (script w) as [| r rest] eqn:Hs.
  - assert (E : sys c w = (Starved, w)) by (unfold sys; rewrite Hs; reflexivity).
    rewrite E. simpl. right. split; [reflexivity |].
    assert (Hw : grows w (more w os)) by (split; exists []; rewrite app_nil_r; reflexivity).
    eapply grows_trans; [exact Hw | apply sys_grows].
  - left. destruct w as [sf tr sc]. simpl in Hs. subst sc. unfold sys, more. simpl.
    destruct r as [| n | rd | cn pr | d | e | sg |]; simpl;
      try (destruct (observe c _); reflexivity); try reflexivity.
    unfold deliver. destruct (disposition sg); reflexivity.
Qed.

Lemma checkpoint_grows w : grows w (snd (checkpoint w)).
Proof.
  unfold checkpoint. destruct (script w) as [| r rest]; [apply grows_refl |].
  destruct r as [| n | rd | cn pr | d | e | sg |]; simpl; try apply grows_refl.
  - unfold deliver. destruct (disposition sg); simpl; apply grows_step.
  - split; exists []; rewrite app_nil_r; reflexivity.
Qed.

Lemma steady_checkpoint : steady checkpoint.
Proof.
  intros w. split; [apply checkpoint_grows |]. intros os.
  destruct (script w) as [| r rest] eqn:Hs.
  - assert (E : checkpoint w = (Starved, w)) by (unfold checkpoint; rewrite Hs; reflexivity).
    rewrite E. simpl. right. split; [reflexivity |].
    assert (Hw : grows w (more w os)) by (split; exists []; rewrite app_nil_r; reflexivity).
    eapply grows_trans; [exact Hw | apply checkpoint_grows].
  - left. destruct w as [sf tr sc]. simpl in Hs. subst sc. unfold checkpoint, more. simpl.
    destruct r as [| n | rd | cn pr | d | e | sg |]; simpl; try reflexivity.
    unfold deliver. destruct (disposition sg); reflexivity.
Qed.

Lemma steady_bind {A B} (m : M A) (k : A -> M B) :
  steady m -> (forall a, steady (k a)) -> steady (bind m k).
Proof.
  intros Hm Hk w. destruct (Hm w) as [Hg Hos]. split.
  - unfold bind. destruct (m w) as [[a | e | sg |] w1]; simpl in *; auto.
    eapply grows_trans; [exact Hg | apply Hk].
  - intros os. specialize (Hos os). unfold bind.
    destruct (m w) as [[a | e | sg |] w1]; simpl in *.
    + destruct Hos as [Hos | [Hs _]]; [| discriminate]. rewrite Hos.
      exact (proj2 (Hk a w1) os).
    + destruct Hos as [Hos | [Hs _]]; [| discriminate]. rewrite Hos. left. reflexivity.
    + destruct Hos as [Hos | [Hs _]]; [| discriminate]. rewrite Hos. left. reflexivity.
    + destruct Hos as [Hos | [_ Hg2]]; [rewrite Hos; left; reflexivity |].
      right. split; [reflexivity |].
      destruct (m (more w os)) as [[a | e | sg |] w2]; simpl in *; auto.
      eapply grows_trans; [exact Hg2 | apply Hk].
Qed.

Lemma steady_try {A} (body : M A) handler :
  steady body -> (forall e h, handler e = Some h -> steady h) ->
  steady (try_except body handler).
Proof.
  intros Hb Hh w. destruct (Hb w) as [Hg Hos]. split.
  - unfold try_except. destruct (body w) as [[a | e | sg |] w1]; simpl in *; auto.
    destruct (handler e) as [h |] eqn:He; simpl; auto.
    eapply grows_trans; [exact Hg | apply (Hh e h He)].
  - intros os. specialize (Hos os). unfold try_except.
    destruct (body w) as [[a | e | sg |] w1]; simpl in *.
    + destruct Hos as [Hos | [Hs _]]; [| discriminate]. rewrite Hos. left. reflexivity.
    + destruct Hos as [Hos | [Hs _]]; [| discriminate]. rewrite Hos.
      destruct (handler e) as [h |] eqn:He; [| left; reflexivity].
      exact (proj2 (Hh e h He w1) os).
    + destruct Hos as [Hos | [Hs _]]; [| discriminate]. rewrite Hos. left. reflexivity.
    + destruct Hos as [Hos | [_ Hg2]]; [rewrite Hos; left; reflexivity |].
      right. split; [reflexivity |].
      destruct (body (more w os)) as [[a | e | sg |] w2]; simpl in *; auto.
      destruct (handler e) as [h |] eqn:He; simpl; auto.
      eapply grows_trans; [exact Hg2 | apply (Hh e h He)].
Qed.

Lemma steady_loop fuel body : steady body -> steady (loop fuel body).
Proof.
  intros Hb. induction fuel as [| n IH]; simpl.
  - apply steady_starve.
  - apply steady_bind; [exact Hb |]. intros [|]; [exact IH | apply steady_ret].
Qed.

Lemma steady_for_each {A} (l : list A) f : (forall x, steady (f x)) -> steady (for_each l f).
Proof.
  intros Hf. induction l as [| x l IH]; simpl.
  - apply steady_ret.
  - apply steady_bind; [apply Hf | intros ?; exact IH].
Qed.

Lemma steady_sys_unit c : steady (sys_unit c).
Proof. apply steady_bind; [apply steady_sys | intros ?; apply steady_ret]. Qed.

Ltac steady :=
  repeat first
    [ apply steady_ret | apply steady_raise | apply steady_starve | apply steady_get_self
    | apply steady_workers_append | apply steady_log | apply steady_sys
    | apply steady_sys_unit | apply steady_checkpoint
    | apply steady_loop | apply steady_for_each
    | match goal with |- forall _, _ => intro end
    | apply steady_bind
    | match goal with |- steady (match ?x with _ => _ end) => destruct x end
    | match goal with |- steady (if ?x then _ else _) => destruct x end ].

Lemma steady_handle_request conn addr : steady (_handle_request conn addr).
Proof.
  unfold _handle_request, sock_setblocking, sock_recv, sock_sendall, sock_close. steady.
Qed.

Lemma steady_kill_workers : steady _kill_workers.
Proof. unfold _kill_workers, os_kill. steady. Qed.

Lemma steady_worker_turn fuel : steady (worker_turn fuel).
Proof.
  unfold worker_turn, wait_ready, select_select, sock_accept.
  apply steady_bind; [steady | intros ?].
  apply steady_bind; [| steady].
  apply steady_try.
  - apply steady_bind; [steady | intros s].
    apply steady_bind; [steady | intros ca; apply steady_handle_request].
  - intros e h He. destruct e; simpl in He; try discriminate.
    injection He as <-. steady.
Qed.

Lemma steady_start_worker_loop fuel : steady (_start_worker_loop fuel).
Proof.
  unfold _start_worker_loop, os_fork.
  apply steady_bind; [steady | intros pid].
  destruct (negb (pid =? 0)); [steady |].
  destruct (pid =? 0); [| steady].
  apply steady_loop, steady_worker_turn.
Qed.

Lemma steady_run fuel : steady (run fuel).
Proof.
  unfold run. apply steady_try.
  - apply steady_loop. unfold run_turn.
    apply steady_bind; [steady | intros ?].
    apply steady_bind; [| steady].
    apply steady_loop. unfold top_up_turn.
    apply steady_bind; [steady | intros s].
    destruct (_ <? _); [| steady].
    apply steady_bind; [apply steady_start_worker_loop | steady].
  - intros e h He.
    destruct e; simpl in He; try discriminate; injection He as <-;
      apply steady_kill_workers.
Qed.

Lemma steady_later {A} (m : M A) w os : steady m -> grows (snd (m w)) (snd (m (more w os))).
Proof.
  intros Hm. destruct (proj2 (Hm w) os) as [H | [_ H]]; [| exact H].
  rewrite H. simpl. split; exists []; rewrite app_nil_r; reflexivity.
Qed.

(** ** Listener creation *)

Lemma create_socket_ok s tr host port backlog l rest :
  _create_socket host port backlog
    {| self := s; trace := tr;
       script := RInt l :: ROk :: ROk :: ROk :: ROk :: ROk :: rest |}
  = (Returned l,
     {| self := s;
        trace := tr ++ [EvCall (Socket AF_INET SOCK_STREAM) (RInt l);
                        EvCall (SetBlocking l 0) ROk;
                        EvCall (SetSockOpt l IPPROTO_TCP TCP_NODELAY 1) ROk;
                        EvCall (SetSockOpt l SOL_SOCKET SO_REUSEADDR 1) ROk;
                        EvCall (Bind l (default host "localhost"%string) (default port 8080)) ROk;
                        EvCall (Listen l (default backlog 512)) ROk];
        script := rest |}).
Proof.
  destruct s as [n p lg ws ls]. run_script.
  repeat rewrite <- app_assoc. reflexivity.
Qed.

Lemma create_socket_bind_error s tr host port backlog l errno rest :
  _create_socket host port backlog
    {| self := s; trace := tr;
       script := RInt l :: ROk :: ROk :: ROk :: RErr errno :: rest |}
  = (Raised (OSError errno),
     {| self := s;
        trace := tr ++ [EvCall (Socket AF_INET SOCK_STREAM) (RInt l);
                        EvCall (SetBlocking l 0) ROk;
                        EvCall (SetSockOpt l IPPROTO_TCP TCP_NODELAY 1) ROk;
                        EvCall (SetSockOpt l SOL_SOCKET SO_REUSEADDR 1) ROk;
                        EvCall (Bind l (default host "localhost"%string) (default port 8080))
                          (RErr errno)];
        script := rest |}).
Proof.
  destruct s as [n p lg ws ls]. run_script.
  repeat rewrite <- app_assoc. reflexivity.
Qed.

(** C8 (amended): listener creation makes the socket non-blocking, disables
    Nagle coalescing and enables address reuse, then binds it to the host
    (localhost by default) and the port (8080 by default), and only then
    starts listening, with a backlog of 512 by default; [__init__] passes
    its port and leaves host and backlog to their defaults; a failing bind
    raises out of [__init__] before any listen, and [run] never starts. *)
Theorem C8_listener_creation :
  (forall s tr host port backlog l rest,
     _create_socket host port backlog
       {| self := s; trace := tr;
          script := RInt l :: ROk :: ROk :: ROk :: ROk :: ROk :: rest |}
     = (Returned l,
        {| self := s;
           trace := tr ++ [EvCall (Socket AF_INET SOCK_STREAM) (RInt l);
                           EvCall (SetBlocking l 0) ROk;
                           EvCall (SetSockOpt l IPPROTO_TCP TCP_NODELAY 1) ROk;
                           EvCall (SetSockOpt l SOL_SOCKET SO_REUSEADDR 1) ROk;
                           EvCall (Bind l (default host "localhost"%string)
                                     (default port 8080)) ROk;
                           EvCall (Listen l (default backlog 512)) ROk];
           script := rest |})) /\
  (forall l rest,
     __init__ None None None (boot (RInt l :: ROk :: ROk :: ROk :: ROk :: ROk :: rest))
     = (Returned tt,
        {| self := {| _desired_worker_count := 1; _port := 8080; logger := INFO;
                      _workers := []; _listener := l |};
           trace := [EvCall (Socket AF_INET SOCK_STREAM) (RInt l);
                     EvCall (SetBlocking l 0) ROk;
                     EvCall (SetSockOpt l IPPROTO_TCP TCP_NODELAY 1) ROk;
                     EvCall (SetSockOpt l SOL_SOCKET SO_REUSEADDR 1) ROk;
                     EvCall (Bind l "localhost" 8080) ROk;
                     EvCall (Listen l 512) ROk];
           script := rest |})) /\
  (forall fuel a l errno rest,
     main fuel a (boot (RInt l :: ROk :: ROk :: ROk :: RErr errno :: rest))
     = (Raised (OSError errno),
        {| self := {| _desired_worker_count := worker_count a; _port := port a;
                      logger := if debug a then DEBUG else INFO;
                      _workers := []; _listener := _listener object_new |};
           trace := [EvCall (Socket AF_INET SOCK_STREAM) (RInt l);
                     EvCall (SetBlocking l 0) ROk;
                     EvCall (SetSockOpt l IPPROTO_TCP TCP_NODELAY 1) ROk;
                     EvCall (SetSockOpt l SOL_SOCKET SO_REUSEADDR 1) ROk;
                     EvCall (Bind l "localhost" (port a)) (RErr errno)];
           script := rest |})).
Proof.
  split; [exact create_socket_ok |]. split.
  - intros l rest. unfold __init__, boot. simpl.
    unfold bind at 1 2 3 4 5. simpl. unfold bind at 1.
    rewrite create_socket_ok. reflexivity.
  - intros fuel a l errno rest. unfold main, __init__, boot. simpl.
    apply bind_raised.
    do 5 (erewrite bind_returned by reflexivity).
    apply bind_raised. simpl.
    rewrite create_socket_bind_error. reflexivity.
Qed.

(** C8, as stated, fails: the backlog is not set before the bind, the call
    of [listen] that sets it comes after the call of [bind]. *)
Lemma C8_counterexample :
  let w := boot [RInt 3; ROk; ROk; ROk; ROk; ROk] in
  let evs := emitted w (snd (_create_socket None None None w)) in
  index_of is_bind evs = Some 4%nat /\
  index_of is_listen evs = Some 5%nat /\
  ~ (exists i j, index_of is_listen evs = Some i /\ index_of is_bind evs = Some j /\
                 (i < j)%nat).
Proof.
  vm_compute. repeat split.
  intros (i & j & Hi & Hj & Hlt). injection Hi as <-. injection Hj as <-. lia.
Qed.

(** ** Shutdown *)

Lemma for_each_kill_ok ws s tr rest :
  for_each ws (fun pid => os_kill pid SIGTERM)
    {| self := s; trace := tr; script := map (fun _ => ROk) ws ++ rest |}
  = (Returned tt,
     {| self := s;
        trace := tr ++ map (fun pid => EvCall (Kill pid SIGTERM) ROk) ws;
        script := rest |}).
Proof.
  revert tr. induction ws as [| pid ws IH]; intros tr; simpl.
  - rewrite app_nil_r. reflexivity.
  - unfold bind at 1, os_kill, sys_unit, bind, sys, ret, step. simpl.
    rewrite IH. rewrite <- app_assoc. reflexivity.
Qed.

(** SIGINT at the head of the supervisor's loop: [KeyboardInterrupt] is
    caught, every tracked worker is sent SIGTERM, in order, and [run]
    returns; no other call is made. *)
Lemma run_interrupt f s tr rest :
  run (S f)
    {| self := s; trace := tr;
       script := RSignal SIGINT :: map (fun _ => ROk) (_workers s) ++ rest |}
  = (Returned tt,
     {| self := s;
        trace := tr ++ EvSignal SIGINT
                    :: map (fun pid => EvCall (Kill pid SIGTERM) ROk) (_workers s);
        script := rest |}).
Proof.
  assert (H : loop (S f) (run_turn (S f))
                {| self := s; trace := tr;
                   script := RSignal SIGINT :: map (fun _ => ROk) (_workers s) ++ rest |}
              = (Raised KeyboardInterrupt,
                 {| self := s; trace := tr ++ [EvSignal SIGINT];
                    script := map (fun _ => ROk) (_workers s) ++ rest |})).
  { apply loop_raised. unfold run_turn. apply bind_raised. reflexivity. }
  unfold run, try_except. rewrite H. simpl. unfold _kill_workers.
  erewrite bind_returned by reflexivity. simpl.
  rewrite for_each_kill_ok. rewrite <- app_assoc. reflexivity.
Qed.

Lemma exitless_ret {A} (a : A) : exitless (ret a).
Proof. intros w. discriminate. Qed.

Lemma exitless_starve {A} : exitless (@starve A).
Proof. intros w. discriminate. Qed.

Lemma exitless_raise {A} e : e <> SystemExit -> exitless (@raise A e).
Proof. intros He w H. injection H as H. exact (He H). Qed.

Lemma exitless_get_self : exitless get_self.
Proof. intros w. discriminate. Qed.

Lemma exitless_set_self f : exitless (set_self f).
Proof. intros w. discriminate. Qed.

Lemma exitless_log l m : exitless (log l m).
Proof. intros w. unfold log. destruct (enabled _ _); discriminate. Qed.

Lemma exitless_sys c : exitless (sys c).
Proof.
  intros w. unfold sys. destruct (script w) as [| r rest]; [discriminate |].
  destruct r as [| n | rd | cn pr | d | e | sg |]; simpl;
    try (destruct (observe c _); discriminate); try discriminate.
  destruct sg; discriminate.
Qed.

Lemma exitless_checkpoint : exitless checkpoint.
Proof.
  intros w. unfold checkpoint. destruct (script w) as [| r rest]; [discriminate |].
  destruct r as [| n | rd | cn pr | d | e | sg |]; simpl; try discriminate.
  destruct sg; discriminate.
Qed.

Lemma exitless_bind {A B} (m : M A) (k : A -> M B) :
  exitless m -> (forall a, exitless (k a)) -> exitless (bind m k).
Proof.
  intros Hm Hk w. specialize (Hm w). unfold bind.
  destruct (m w) as [[a | e | sg |] w1]; simpl in *;
    [apply Hk | | discriminate | discriminate].
  intros H. apply Hm. injection H as ->. reflexivity.
Qed.

Lemma exitless_try {A} (body : M A) handler :
  exitless body -> (forall e h, handler e = Some h -> exitless h) ->
  exitless (try_except body handler).
Proof.
  intros Hb Hh w. specialize (Hb w). unfold try_except.
  destruct (body w) as [[a | e | sg |] w1]; simpl in *;
    [discriminate | | discriminate | discriminate].
  destruct (handler e) as [h |] eqn:He; [apply (Hh e h He) | exact Hb].
Qed.

Lemma exitless_loop fuel body : exitless body -> exitless (loop fuel body).
Proof.
  intros Hb. induction fuel as [| n IH]; simpl.
  - apply exitless_starve.
  - apply exitless_bind; [exact Hb |]. intros [|]; [exact IH | apply exitless_ret].
Qed.

Lemma exitless_for_each {A} (l : list A) f :
  (forall x, exitless (f x)) -> exitless (for_each l f).
Proof.
  intros Hf. induction l as [| x l IH]; simpl.
  - apply exitless_ret.
  - apply exitless_bind; [apply Hf | intros ?; exact IH].
Qed.

Ltac exitless :=
  repeat first
    [ apply exitless_ret | apply exitless_starve | apply exitless_get_self
    | apply exitless_set_self | apply exitless_log | apply exitless_sys
    | apply exitless_checkpoint | apply exitless_loop | apply exitless_for_each
    | match goal with |- forall _, _ => intro end
    | apply exitless_bind
    | match goal with |- exitless (match ?x with _ => _ end) => destruct x end
    | match goal with |- exitless (if ?x then _ else _) => destruct x end ].

(** Nothing in the supervisor's loop, nor in a worker, raises
    [SystemExit]: the second handler of [run] never runs. *)
Lemma run_body_exitless fuel : exitless (loop fuel (run_turn fuel)).
Proof.
  unfold run_turn, top_up_turn, _start_worker_loop, os_fork, workers_append.
  apply exitless_loop.
  apply exitless_bind; [exitless | intros ?].
  apply exitless_bind; [| exitless].
  apply exitless_loop.
  apply exitless_bind; [exitless | intros s].
  destruct (_ <? _); [| exitless].
  apply exitless_bind; [| exitless].
  apply exitless_bind; [exitless | intros pid].
  destruct (negb (pid =? 0)); [exitless |].
  destruct (pid =? 0); [| exitless].
  apply exitless_loop.
  unfold worker_turn, wait_ready, select_select, sock_accept, _handle_request,
    sock_setblocking, sock_recv, sock_sendall, sock_close, sys_unit.
  apply exitless_bind; [exitless | intros ?].
  apply exitless_bind; [| exitless].
  apply exitless_try; [exitless |].
  intros e h He. destruct e; simpl in He; try discriminate.
  injection He as <-.
  destruct (negb (errno =? EAGAIN)); [apply exitless_raise; discriminate | exitless].
Qed.

(** *** Returning from [run] *)

Lemma marked_plain {A} (m : M A) :
  (forall w, grows w (snd (m w))) ->
  (forall w, fst (m w) <> Raised KeyboardInterrupt) ->
  marked m.
Proof. intros Hg Hn w. split; [apply Hg | intros H; destruct (Hn w H)]. Qed.

Lemma marked_ret {A} (a : A) : marked (ret a).
Proof. apply marked_plain; intros w; [apply grows_refl | discriminate]. Qed.

Lemma marked_starve {A} : marked (@starve A).
Proof. apply marked_plain; intros w; [apply grows_refl | discriminate]. Qed.

Lemma marked_raise {A} e : e <> KeyboardInterrupt -> marked (@raise A e).
Proof.
  intros He. apply marked_plain; intros w; [apply grows_refl |].
  intros H. injection H as H. exact (He H).
Qed.

Lemma marked_get_self : marked get_self.
Proof. apply marked_plain; intros w; [apply grows_refl | discriminate]. Qed.

Lemma marked_workers_append pid : marked (workers_append pid).
Proof.
  apply marked_plain; intros w; [apply (proj1 (steady_workers_append pid w)) | discriminate].
Qed.

Lemma marked_log l m : marked (log l m).
Proof.
  apply marked_plain; intros w; [apply (proj1 (steady_log l m w)) |].
  unfold log. destruct (enabled _ _); discriminate.
Qed.

Lemma marked_sys c : marked (sys c).
Proof.
  intros w. split; [apply sys_grows |]. unfold sys.
  destruct (script w) as [| r rest]; [discriminate |].
  destruct r as [| n | rd | cn pr | d | e | sg |]; simpl;
    try (destruct (observe c _); discriminate); try discriminate.
  destruct sg; simpl; [| discriminate].
  intros _. exists []. reflexivity.
Qed.

Lemma marked_checkpoint : marked checkpoint.
Proof.
  intros w. split; [apply checkpoint_grows |]. unfold checkpoint.
  destruct (script w) as [| r rest]; [discriminate |].
  destruct r as [| n | rd | cn pr | d | e | sg |]; simpl; try discriminate.
  destruct sg; simpl; [| discriminate].
  intros _. exists []. reflexivity.
Qed.

Lemma marked_bind {A B} (m : M A) (k : A -> M B) :
  marked m -> (forall a, marked (k a)) -> marked (bind m k).
Proof.
  intros Hm Hk w. destruct (Hm w) as [Hg Hi]. unfold bind.
  destruct (m w) as [[a | e | sg |] w1]; simpl in *.
  - destruct (Hk a w1) as [Hg1 Hi1]. split; [eapply grows_trans; eauto |].
    intros H. destruct (Hi1 H) as (pre & Hpre). destruct Hg as [[evs Hevs] _].
    exists (evs ++ pre). rewrite Hpre, Hevs, <- !app_assoc. reflexivity.
  - split; [exact Hg |]. intros H. apply Hi. injection H as ->. reflexivity.
  - split; [exact Hg | discriminate].
  - split; [exact Hg | discriminate].
Qed.

Lemma marked_try {A} (body : M A) handler :
  marked body -> (forall e h, handler e = Some h -> marked h) ->
  marked (try_except body handler).
Proof.
  intros Hb Hh w. destruct (Hb w) as [Hg Hi]. unfold try_except.
  destruct (body w) as [[a | e | sg |] w1]; simpl in *;
    [split; [exact Hg | discriminate] | | split; [exact Hg | discriminate]
    | split; [exact Hg | discriminate]].
  destruct (handler e) as [h |] eqn:He; [| split; [exact Hg | exact Hi]].
  destruct (Hh e h He w1) as [Hg1 Hi1]. split; [eapply grows_trans; eauto |].
  intros H. destruct (Hi1 H) as (pre & Hpre). destruct Hg as [[evs Hevs] _].
  exists (evs ++ pre). rewrite Hpre, Hevs, <- !app_assoc. reflexivity.
Qed.

Lemma marked_loop fuel body : marked body -> marked (loop fuel body).
Proof.
  intros Hb. induction fuel as [| n IH]; simpl.
  - apply marked_starve.
  - apply marked_bind; [exact Hb |]. intros [|]; [exact IH | apply marked_ret].
Qed.

Ltac marked :=
  repeat first
    [ apply marked_ret | apply marked_starve | apply marked_get_self
    | apply marked_workers_append | apply marked_log | apply marked_sys
    | apply marked_checkpoint | apply marked_loop
    | match goal with |- forall _, _ => intro end
    | apply marked_bind
    | match goal with |- marked (match ?x with _ => _ end) => destruct x end
    | match goal with |- marked (if ?x then _ else _) => destruct x end ].

Lemma marked_run_body fuel : marked (loop fuel (run_turn fuel)).
Proof.
  unfold run_turn, top_up_turn, _start_worker_loop, os_fork.
  apply marked_loop.
  apply marked_bind; [marked | intros ?].
  apply marked_bind; [| marked].
  apply marked_loop.
  apply marked_bind; [marked | intros s].
  destruct (_ <? _); [| marked].
  apply marked_bind; [| marked].
  apply marked_bind; [marked | intros pid].
  destruct (negb (pid =? 0)); [marked |].
  destruct (pid =? 0); [| marked].
  apply marked_loop.
  unfold worker_turn, wait_ready, select_select, sock_accept, _handle_request,
    sock_setblocking, sock_recv, sock_sendall, sock_close, sys_unit.
  apply marked_bind; [marked | intros ?].
  apply marked_bind; [| marked].
  apply marked_try; [marked |].
  intros e h He. destruct e; simpl in He; try discriminate.
  injection He as <-.
  destruct (negb (errno =? EAGAIN)); [apply marked_raise; discriminate | marked].
Qed.

Lemma run_turn_never_breaks fuel w : fst (run_turn fuel w) <> Returned Break.
Proof.
  unfold run_turn, bind.
  destruct (checkpoint w) as [[u | e | sg |] w1]; simpl; try discriminate.
  destruct (loop fuel (top_up_turn fuel) w1) as [[u1 | e | sg |] w2]; simpl; discriminate.
Qed.

Lemma for_each_kill_returned ws w w' :
  for_each ws (fun pid => os_kill pid SIGTERM) w = (Returned tt, w') ->
  self w' = self w /\ trace w' = trace w ++ map kill_ok ws.
Proof.
  revert w. induction ws as [| pid ws IH]; intros w; simpl.
  - intros H. injection H as <-. rewrite app_nil_r. auto.
  - unfold bind at 1, os_kill, sys_unit, bind, sys.
    destruct (script w) as [| r rest]; [discriminate |].
    destruct r as [| n | rd | cn pr | d | e | sg |]; simpl; try discriminate.
    + intros H. apply IH in H. simpl in H. destruct H as [Hs Ht].
      split; [exact Hs |]. rewrite Ht, <- app_assoc. reflexivity.
    + unfold deliver. destruct (disposition sg); discriminate.
Qed.

(** Whenever [run] returns, SIGINT has been delivered and, since then,
    every tracked worker has been sent SIGTERM, in the order of the list,
    and nothing else has happened. *)
Theorem run_returns_after_shutdown fuel w w' :
  run fuel w = (Returned tt, w') ->
  exists pre,
    emitted w w' = pre ++ EvSignal SIGINT :: map kill_ok (_workers (self w')).
Proof.
  unfold run, try_except. intros H.
  pose proof (loop_never_returns fuel (run_turn fuel) w (run_turn_never_breaks fuel)) as Hnr.
  pose proof (run_body_exitless fuel w) as Hne.
  destruct (marked_run_body fuel w) as [_ Hmk].
  destruct (loop fuel (run_turn fuel) w) as [[[] | e | sg |] w1]; simpl in *;
    try discriminate; [contradiction |].
  destruct e as [errno | |]; simpl in H; [discriminate | | contradiction].
  destruct (Hmk eq_refl) as (pre & Hpre).
  unfold _kill_workers, bind at 1, get_self in H. simpl in H.
  apply for_each_kill_returned in H. destruct H as [Hs Ht].
  exists pre. apply emitted_app. rewrite Ht, Hpre, Hs, <- !app_assoc. reflexivity.
Qed.

(** C2: the terminate signal.  [run] has no handler for SIGTERM: wherever
    the supervisor stands at the head of its loop when SIGTERM arrives, the
    process is terminated on the spot and no [os.kill] is issued, whatever
    workers are tracked; so after a start-up that forked workers 101 and
    102, SIGTERM ends the supervisor without a signal to either, where
    SIGINT in its place has both sent SIGTERM before [run] returns. *)
Theorem C2_terminate_signal_kills_no_worker :
  (forall f s tr rest,
     run (S f) {| self := s; trace := tr; script := RSignal SIGTERM :: rest |}
     = (Killed SIGTERM,
        {| self := s; trace := tr ++ [EvSignal SIGTERM]; script := rest |})) /\
  (let r := main 3 two_workers (boot terminated) in
   fst r = Killed SIGTERM /\
   _workers (self (snd r)) = [101; 102] /\
   kills (trace (snd r)) = []) /\
  (let r := main 3 two_workers (boot interrupted) in
   fst r = Returned tt /\
   _workers (self (snd r)) = [101; 102] /\
   kills (trace (snd r)) = [(101, SIGTERM); (102, SIGTERM)]).
Proof.
  split; [| split].
  - intros f s tr rest. reflexivity.
  - vm_compute. auto.
  - vm_compute. auto.
Qed.

(** ** The fork and its record *)

(** The tracked workers at every point of every run. *)
Lemma run_behind fuel w :
  exists pending,
    _workers (self (snd (run fuel w))) ++ pending
    = _workers (self w) ++ forked (emitted w (snd (run fuel w))) /\
    (List.length pending <= 1)%nat.
Proof.
  destruct (triple_always _ _ _ w (run_tracked (_workers (self w)) (trace w) fuel))
    as (evs & pending & Htr & Hw & Hp).
  - exists []. rewrite !app_nil_r. auto.
  - exists pending. rewrite (emitted_app _ _ _ Htr). auto.
Qed.

(** SIGINT between the return of [os.fork] and the append: the shutdown
    path runs on the list without the new pid. *)
Lemma run_interrupted_spawn f s tr pid rest :
  can_fork s -> pid <> 0 ->
  run (S f)
    {| self := s; trace := tr;
       script := RTick :: RInt pid :: RSignal SIGINT
                 :: map (fun _ => ROk) (_workers s) ++ rest |}
  = (Returned tt,
     {| self := s;
        trace := tr ++ EvCall Fork (RInt pid) :: EvSignal SIGINT
                    :: map kill_ok (_workers s);
        script := rest |}).
Proof.
  intros Hfork Hpid.
  assert (H : loop (S f) (run_turn (S f))
                {| self := s; trace := tr;
                   script := RTick :: RInt pid :: RSignal SIGINT
                             :: map (fun _ => ROk) (_workers s) ++ rest |}
              = (Raised KeyboardInterrupt,
                 {| self := s;
                    trace := tr ++ [EvCall Fork (RInt pid); EvSignal SIGINT];
                    script := map (fun _ => ROk) (_workers s) ++ rest |})).
  { apply loop_raised. unfold run_turn.
    erewrite bind_returned by apply checkpoint_tick.
    apply bind_raised. apply loop_raised.
    rewrite top_up_turn_spawn by exact Hfork.
    apply bind_raised.
    apply (start_worker_loop_interrupted (S f) s tr pid SIGINT _ Hpid). }
  unfold run, try_except. rewrite H. simpl. unfold _kill_workers.
  erewrite bind_returned by reflexivity. simpl.
  rewrite for_each_kill_ok. rewrite <- app_assoc. reflexivity.
Qed.

(** C7: a fork that succeeds in the parent is not always recorded.  When
    SIGINT arrives after [os.fork] has returned a pid and before the pid is
    appended, the shutdown path signals the workers tracked so far and [run]
    returns: the new pid is in no list and is sent no signal; so from
    start-up, with one worker wanted and pid 1533 forked.  At every point of
    every run the list is the list the run began with followed by the pids
    [os.fork] has returned to the parent since, in order, but for at most
    one: the last.  At a later point of a run the list extends what it was at
    an earlier point, so it never shrinks; and the shutdown path itself
    leaves the instance as it is. *)
Theorem C7_workers_only_grow :
  (forall f s tr pid rest,
     can_fork s -> pid <> 0 ->
     run (S f)
       {| self := s; trace := tr;
          script := RTick :: RInt pid :: RSignal SIGINT
                    :: map (fun _ => ROk) (_workers s) ++ rest |}
     = (Returned tt,
        {| self := s;
           trace := tr ++ EvCall Fork (RInt pid) :: EvSignal SIGINT
                       :: map kill_ok (_workers s);
           script := rest |})) /\
  (let r := main 3 one_worker (boot orphaned) in
   fst r = Returned tt /\
   forked (trace (snd r)) = [1533] /\
   _workers (self (snd r)) = [] /\
   kills (trace (snd r)) = []) /\
  (forall fuel w,
     let w' := snd (run fuel w) in
     exists pending,
       _workers (self w') ++ pending = _workers (self w) ++ forked (emitted w w') /\
       (List.length pending <= 1)%nat) /\
  (forall fuel w os,
     exists pids,
       _workers (self (snd (run fuel (more w os))))
       = _workers (self (snd (run fuel w))) ++ pids) /\
  (forall w, self (snd (_kill_workers w)) = self w).
Proof.
  split; [| split; [| split; [| split]]].
  - intros f s tr pid rest. apply run_interrupted_spawn.
  - vm_compute. auto.
  - intros fuel w. apply run_behind.
  - intros fuel w os. exact (proj2 (steady_later (run fuel) w os (steady_run fuel))).
  - intros w.
    apply (triple_always (fun s _ => s = self w) (fun s _ => s = self w)); [| reflexivity].
    apply inv_kill_workers; auto.
Qed.

(** A supervisor that tracks worker 101 and wants one more forks pid 102
    and is interrupted: 101 is sent SIGTERM, 102 is not. *)
Lemma C7_witness :
  run 1 {| self := short_of_one; trace := [];
           script := [RTick; RInt 102; RSignal SIGINT; ROk] |}
  = (Returned tt,
     {| self := short_of_one;
        trace := [EvCall Fork (RInt 102); EvSignal SIGINT; kill_ok 101];
        script := [] |}).
Proof.
  apply (proj1 C7_workers_only_grow 0%nat short_of_one [] 102 []).
  - unfold can_fork. simpl. lia.
  - lia.
Defined.

(** * Further properties of the server *)

(** ** Supervisor and workers keep to their roles *)

Lemma roles_snoc evs e :
  roles (evs ++ [e])
  = roles evs && (if became_worker evs then negb (is_fork e) else supervisor_event e).
Proof.
  induction evs as [| x evs IH]; simpl.
  - destruct (is_child_fork e) eqn:He; [| rewrite andb_true_r; reflexivity].
    destruct e as [[] [] | |]; simpl in *; try discriminate; reflexivity.
  - unfold became_worker in *. simpl. destruct (is_child_fork x); simpl.
    + rewrite forallb_app. simpl. rewrite andb_true_r. reflexivity.
    + rewrite IH, andb_assoc. reflexivity.
Qed.

Lemma became_worker_snoc evs e :
  became_worker (evs ++ [e]) = became_worker evs || is_child_fork e.
Proof. unfold became_worker. rewrite existsb_app. simpl. rewrite orb_false_r. reflexivity. Qed.

Lemma as_worker_snoc tr0 (s : HTTPServer) tr e :
  is_fork e = false -> as_worker tr0 s tr -> as_worker tr0 s (tr ++ [e]).
Proof.
  intros He (evs & -> & Hr & Hw). exists (evs ++ [e]).
  rewrite app_assoc, roles_snoc, became_worker_snoc, Hr, Hw, He. auto.
Qed.

Lemma as_supervisor_snoc tr0 (s : HTTPServer) tr e :
  supervisor_event e = true -> is_child_fork e = false ->
  as_supervisor tr0 s tr -> as_supervisor tr0 s (tr ++ [e]).
Proof.
  intros He Hc (evs & -> & Hr & Hw). exists (evs ++ [e]).
  rewrite app_assoc, roles_snoc, became_worker_snoc, Hr, Hw, He, Hc. auto.
Qed.

Lemma in_role_snoc tr0 (s : HTTPServer) tr e :
  supervisor_event e = true -> is_fork e = false ->
  in_role tr0 s tr -> in_role tr0 s (tr ++ [e]).
Proof.
  intros He Hf (evs & -> & Hr). exists (evs ++ [e]).
  rewrite app_assoc, roles_snoc, Hr, He, Hf. destruct (became_worker evs); auto.
Qed.

Lemma as_supervisor_in_role tr0 s tr : as_supervisor tr0 s tr -> in_role tr0 s tr.
Proof. intros (evs & H & Hr & _). exists evs. auto. Qed.

Lemma as_worker_in_role tr0 s tr : as_worker tr0 s tr -> in_role tr0 s tr.
Proof. intros (evs & H & Hr & _). exists evs. auto. Qed.

Lemma run_call_is_not_fork s c r : run_call s c -> is_fork (EvCall c r) = false.
Proof. destruct c; simpl; try reflexivity. intros []. Qed.

(** A postcondition may use what is known of the value returned. *)
Lemma triple_refine {A} (P : assertion) (m : M A) (Q : A -> assertion) E (R : A -> Prop) :
  triple P m Q E ->
  (forall w a, fst (m w) = Returned a -> R a) ->
  triple P m (fun a s tr => Q a s tr /\ R a) E.
Proof.
  intros Hm HR w HP. specialize (Hm w HP). specialize (HR w).
  destruct (m w) as [[a | e | sg |] w1]; auto.
Qed.

Lemma worker_turn_as_worker tr0 fuel :
  triple (as_worker tr0) (worker_turn fuel)
    (fun _ => as_worker tr0) (fun _ => as_worker tr0).
Proof.
  apply inv_worker_turn.
  - intros s tr sig. apply as_worker_snoc. reflexivity.
  - intros s tr l m. apply as_worker_snoc. reflexivity.
  - intros s tr c r Hc. apply as_worker_snoc. apply (run_call_is_not_fork s c r Hc).
  - intros s tr rl r _ H.
    change (tr ++ [EvCall (Select [_listener s] [] [] 1) (RReady rl);
                   EvCall (Accept (_listener s)) r])
      with (tr ++ [EvCall (Select [_listener s] [] [] 1) (RReady rl)]
               ++ [EvCall (Accept (_listener s)) r]).
    rewrite app_assoc. apply as_worker_snoc; [reflexivity |].
    apply as_worker_snoc; [reflexivity | exact H].
Qed.

(** The worker's loop has no [break]: whatever is to follow it is never
    reached. *)
Lemma worker_loop_in_role tr0 fuel (Q : unit -> assertion) :
  triple (as_worker tr0) (loop fuel (worker_turn fuel)) Q (fun _ => in_role tr0).
Proof.
  apply triple_loop; [| apply as_worker_in_role].
  eapply triple_conseq with (P' := as_worker tr0) (E' := fun _ => as_worker tr0);
    [apply (triple_refine _ _ _ _ (fun c => c <> Break) (worker_turn_as_worker tr0 fuel))
    | auto | |].
  - intros w c Hc Hb. subst c. exact (worker_turn_never_breaks fuel w Hc).
  - intros [|] s tr [H Hc]; [exact H | contradiction].
  - intros en s tr. apply as_worker_in_role.
Qed.

Lemma kill_workers_in_role tr0 :
  triple (in_role tr0) _kill_workers (fun _ => in_role tr0) (fun _ => in_role tr0).
Proof.
  unfold _kill_workers.
  eapply triple_bind with (Q1 := fun _ => in_role tr0).
  { eapply triple_conseq with (P' := in_role tr0) (E' := fun _ => in_role tr0);
      [apply triple_get_self | auto | | auto].
    intros x s tr [H _]. exact H. }
  intros s0. apply triple_for_each. intros pid _. unfold os_kill, sys_unit.
  eapply triple_bind with (Q1 := fun _ => in_role tr0);
    [| intros r; apply triple_ret; auto].
  apply triple_sys; auto.
  - intros s tr sig. apply in_role_snoc; reflexivity.
  - intros s tr e. apply in_role_snoc; reflexivity.
  - intros s tr r r' H _. apply in_role_snoc; auto.
Qed.

Lemma start_worker_loop_in_role tr0 fuel :
  triple (as_supervisor tr0) (_start_worker_loop fuel)
    (fun _ => as_supervisor tr0) (fun _ => in_role tr0).
Proof.
  unfold _start_worker_loop, os_fork.
  eapply triple_bind with
    (Q1 := fun pid s tr' => exists tr,
             as_supervisor tr0 s tr /\ tr' = tr ++ [EvCall Fork (RInt pid)]).
  - eapply triple_bind with
      (Q1 := fun r s tr' => exists tr pid,
               r = RInt pid /\ as_supervisor tr0 s tr /\ tr' = tr ++ [EvCall Fork r]).
    + apply triple_sys.
      * apply as_supervisor_in_role.
      * intros s tr sig H.
        apply as_supervisor_in_role, as_supervisor_snoc; auto.
      * intros s tr e H.
        apply as_supervisor_in_role, as_supervisor_snoc; auto.
      * intros s tr r r' H Ho. destruct r; simpl in Ho; try discriminate.
        injection Ho as <-. eauto 10.
    + intros r.
      destruct r;
        try (apply triple_starve; intros ? ? (? & ? & Hr & ?); discriminate).
      apply triple_ret. intros s tr (tr1 & p & Hr & HI & ->).
      injection Hr as <-. eauto.
  - intros pid. destruct (pid =? 0) eqn:Hpid; simpl.
    + eapply triple_conseq with (P' := as_worker tr0);
        [apply (worker_loop_in_role tr0 fuel (fun _ => as_supervisor tr0)) | | auto | auto].
      intros s tr (tr1 & (evs & -> & Hr & Hw) & ->).
      exists (evs ++ [EvCall Fork (RInt pid)]).
      rewrite app_assoc, roles_snoc, became_worker_snoc, Hr, Hw. simpl.
      rewrite Hpid. auto.
    + assert (Hpoint : triple (as_supervisor tr0) checkpoint
                         (fun _ => as_supervisor tr0) (fun _ => in_role tr0)).
      { apply triple_checkpoint; [apply as_supervisor_in_role | | auto].
        intros s tr sig H. apply as_supervisor_in_role, as_supervisor_snoc; auto. }
      eapply triple_conseq with
        (P' := as_supervisor tr0) (Q' := fun _ => as_supervisor tr0)
        (E' := fun _ => in_role tr0); auto.
      * eapply triple_bind; [exact Hpoint | intros ?].
        eapply triple_bind with (Q1 := fun _ => as_supervisor tr0).
        { apply triple_log. intros s tr H.
          unfold log_events. destruct (enabled (logger s) INFO).
          - apply as_supervisor_snoc; [reflexivity | reflexivity | exact H].
          - rewrite app_nil_r. exact H. }
        intros ?.
        eapply triple_bind; [exact Hpoint | intros ?].
        apply triple_set_self. auto.
      * intros s tr (tr1 & H & ->).
        apply as_supervisor_snoc; [reflexivity | simpl; exact Hpid | exact H].
Qed.

Lemma run_in_role tr0 fuel :
  triple (as_supervisor tr0) (run fuel) (fun _ => in_role tr0) (fun _ => in_role tr0).
Proof.
  unfold run. apply triple_try with (E' := fun _ => in_role tr0); auto.
  - apply triple_loop; [| apply as_supervisor_in_role].
    unfold run_turn.
    eapply triple_bind with (Q1 := fun _ => as_supervisor tr0).
    { apply triple_checkpoint; auto.
      - apply as_supervisor_in_role.
      - intros s tr sig H. apply as_supervisor_in_role, as_supervisor_snoc; auto. }
    intros u.
    eapply triple_bind with (Q1 := fun _ => as_supervisor tr0);
      [| intros u1; apply triple_ret; auto].
    apply triple_loop; [| apply as_supervisor_in_role].
    unfold top_up_turn.
    eapply triple_bind with (Q1 := fun _ => as_supervisor tr0).
    { eapply triple_conseq with
        (P' := as_supervisor tr0) (E' := fun _ => in_role tr0);
        [apply triple_get_self | auto | | auto].
      intros x s tr [H _]. exact H. }
    intros s0. destruct (_ <? _).
    + eapply triple_bind; [apply start_worker_loop_in_role |].
      intros u1. apply triple_ret. auto.
    + apply triple_ret. auto.
  - intros e h He.
    destruct e; simpl in He; try discriminate; injection He as <-;
      apply kill_workers_in_role.
Qed.

Lemma run_roles fuel w : roles (emitted w (snd (run fuel w))) = true.
Proof.
  assert (H : in_role (trace w) (self (snd (run fuel w))) (trace (snd (run fuel w)))).
  { pose proof (run_in_role (trace w) fuel w) as Hr.
    destruct (run fuel w) as [[u | e | sg |] w1]; simpl; apply Hr;
      exists []; rewrite app_nil_r; auto. }
  destruct H as (evs & Htr & Hr). rewrite (emitted_app _ _ _ Htr). exact Hr.
Qed.

Lemma roles_no_fork_after_child pre e post :
  roles (pre ++ e :: post) = true -> is_child_fork e = true ->
  forallb (fun x => negb (is_fork x)) post = true.
Proof.
  intros Hr He. induction pre as [| p pre IH]; simpl in Hr.
  - rewrite He in Hr. exact Hr.
  - destruct (is_child_fork p).
    + rewrite forallb_app in Hr. apply andb_prop in Hr. destruct Hr as [_ Hr].
      simpl in Hr. apply andb_prop in Hr. exact (proj2 Hr).
    + apply andb_prop in Hr. apply IH, Hr.
Qed.

Lemma roles_socket_after_child pre e post :
  roles (pre ++ e :: post) = true -> supervisor_event e = false ->
  became_worker pre = true.
Proof.
  intros Hr He. induction pre as [| p pre IH]; simpl in Hr.
  - destruct (is_child_fork e) eqn:Hc.
    + destruct e as [[] [] | |]; simpl in *; discriminate.
    + rewrite He in Hr. discriminate.
  - unfold became_worker. simpl. destruct (is_child_fork p); [reflexivity |].
    apply andb_prop in Hr. apply IH, Hr.
Qed.

(** X1: a worker never forks.  In every run of [run], once [os.fork] has
    returned 0 to the process no later event of the process is a fork. *)
Theorem worker_never_forks fuel w pre e post :
  emitted w (snd (run fuel w)) = pre ++ e :: post ->
  is_child_fork e = true ->
  forallb (fun x => negb (is_fork x)) post = true.
Proof.
  intros Hev He. apply (roles_no_fork_after_child pre e post); [| exact He].
  rewrite <- Hev. apply run_roles.
Qed.

(** X2: the supervisor never serves.  In every run of [run], an event
    that is a call on a socket ([select], [accept], [setblocking], [recv],
    [sendall], [close]) comes after an [os.fork] that returned 0: only a
    worker waits on the listener and handles connections. *)
Theorem supervisor_never_serves fuel w pre e post :
  emitted w (snd (run fuel w)) = pre ++ e :: post ->
  supervisor_event e = false ->
  became_worker pre = true.
Proof.
  intros Hev He. apply (roles_socket_after_child pre e post); [| exact He].
  rewrite <- Hev. apply run_roles.
Qed.

Lemma X1_witness :
  forallb (fun x => negb (is_fork x))
    [EvCall (Select [3] [] [] 1) (RReady [3]);
     EvCall (Accept 3) (RConn 9 ("10.0.0.1"%string, 5000));
     EvCall (SetBlocking 9 1) ROk;
     EvCall (Recv 9 512) (RBytes ["G"%byte]);
     EvCall (SendAll 9 response) ROk;
     EvCall (Close 9) ROk] = true.
Proof.
  apply (worker_never_forks 1 serving [] (EvCall Fork (RInt 0))).
  - reflexivity.
  - reflexivity.
Defined.

Lemma X2_witness :
  became_worker
    [EvCall Fork (RInt 0);
     EvCall (Select [3] [] [] 1) (RReady [3]);
     EvCall (Accept 3) (RConn 9 ("10.0.0.1"%string, 5000))] = true.
Proof.
  apply (supervisor_never_serves 1 serving
           [EvCall Fork (RInt 0);
            EvCall (Select [3] [] [] 1) (RReady [3]);
            EvCall (Accept 3) (RConn 9 ("10.0.0.1"%string, 5000))]
           (EvCall (SetBlocking 9 1) ROk)
           [EvCall (Recv 9 512) (RBytes ["G"%byte]);
            EvCall (SendAll 9 response) ROk;
            EvCall (Close 9) ROk]).
  - reflexivity.
  - reflexivity.
Defined.

(** ** The handler stops at the first call that fails *)

Lemma results_app evs1 evs2 : results (evs1 ++ evs2) = results evs1 ++ results evs2.
Proof. apply flat_map_app. Qed.

Lemma results_log s l m : results (log_events s l m) = [].
Proof. unfold log_events. destruct (enabled (logger s) l); reflexivity. Qed.

Lemma emitted_snoc tr evs (s s' : HTTPServer) sc sc' :
  emitted {| self := s; trace := tr; script := sc |}
          {| self := s'; trace := tr ++ evs; script := sc' |} = evs.
Proof. apply emitted_app. reflexivity. Qed.

Lemma emitted_same tr (s s' : HTTPServer) sc sc' :
  emitted {| self := s; trace := tr; script := sc |}
          {| self := s'; trace := tr; script := sc' |} = [].
Proof. apply emitted_app. simpl. rewrite app_nil_r. reflexivity. Qed.

Ltac handler_leaf :=
  unfold _handle_request, sock_setblocking, sock_recv, sock_sendall, sock_close,
    sys_unit, bind, sys, ret, starve, step, deliver, log, handler_plan; simpl;
  repeat match goal with
         | sg : signal |- _ => destruct sg; simpl
         end;
  repeat rewrite <- app_assoc;
  first [rewrite emitted_snoc | rewrite emitted_same];
  simpl; repeat constructor.

Lemma handle_request_follows w conn addr :
  follows (handler_plan conn)
    (results (emitted w (snd (_handle_request conn addr w)))).
Proof.
  destruct w as [[n p lg ws l] tr sc].
  destruct sc as [| r1 sc]; [handler_leaf |].
  destruct r1; try solve [handler_leaf].
  destruct sc as [| r2 sc]; [handler_leaf |].
  destruct r2; try solve [handler_leaf].
  destruct lg.
  - destruct sc as [| r3 sc]; [handler_leaf |].
    destruct r3; try solve [handler_leaf].
    destruct sc as [| r4 sc]; [handler_leaf |].
    destruct r4; solve [handler_leaf].
  - destruct sc as [| r3 sc]; [handler_leaf |].
    destruct r3; try solve [handler_leaf].
    destruct sc as [| r4 sc]; [handler_leaf |].
    destruct r4; solve [handler_leaf].
Qed.

(** X3: the handler makes its four socket calls in the order of the
    source, [setblocking(1)], [recv(512)], [sendall(response)], [close()],
    and stops at the first that fails: in every run, however it ends, the
    calls made are an initial part of this list and only the last of them
    may have failed.  So nothing is sent unless the read succeeded, and the
    connection is closed only when the whole response was sent. *)
Theorem handler_stops_at_first_failure w conn addr :
  follows (handler_plan conn)
    (results (emitted w (snd (_handle_request conn addr w)))).
Proof. apply handle_request_follows. Qed.

(** X4: when [_handle_request] returns, all four calls have succeeded:
    the response has been sent in full and the connection closed. *)
Theorem handler_returns_after_close w conn addr :
  fst (_handle_request conn addr w) = Returned tt ->
  exists data,
    results (emitted w (snd (_handle_request conn addr w)))
    = [(SetBlocking conn 1, ROk); (Recv conn 512, RBytes data);
       (SendAll conn response, ROk); (Close conn, ROk)].
Proof.
  destruct w as [[n p lg ws l] tr sc].
  assert (Hlog : forall (b : bool) (x : outcome unit * world) (y : outcome unit * world),
            fst x <> Returned tt -> fst y <> Returned tt ->
            fst (if b then x else y) <> Returned tt)
    by (intros [|]; auto).
  unfold _handle_request, sock_setblocking, sock_recv, sock_sendall, sock_close,
    sys_unit, bind, sys, ret, starve, step, deliver, log.
  destruct sc as [| r1 sc]; [discriminate |].
  destruct r1 as [| | | | | | sg |]; simpl; try discriminate;
    [| destruct sg; discriminate].
  destruct sc as [| r2 sc]; [discriminate |].
  destruct r2 as [| | | | d | | sg |]; simpl; try discriminate;
    [| destruct sg; discriminate].
  destruct lg; simpl.
  - destruct sc as [| r3 sc]; [discriminate |].
    destruct r3 as [| | | | | | sg |]; simpl; try discriminate;
      [| destruct sg; discriminate].
    destruct sc as [| r4 sc]; [discriminate |].
    destruct r4 as [| | | | | | sg |]; simpl; try discriminate;
      [| destruct sg; discriminate].
    intros _. exists (take 512 d).
    repeat rewrite <- app_assoc. rewrite emitted_snoc. reflexivity.
  - destruct sc as [| r3 sc]; [discriminate |].
    destruct r3 as [| | | | | | sg |]; simpl; try discriminate;
      [| destruct sg; discriminate].
    destruct sc as [| r4 sc]; [discriminate |].
    destruct r4 as [| | | | | | sg |]; simpl; try discriminate;
      [| destruct sg; discriminate].
    intros _. exists (take 512 d).
    repeat rewrite <- app_assoc. rewrite emitted_snoc. reflexivity.
Qed.

Lemma X4_witness :
  exists data,
    results (emitted served (snd (_handle_request 7 ("10.0.0.1"%string, 5000) served)))
    = [(SetBlocking 7 1, ROk); (Recv 7 512, RBytes data);
       (SendAll 7 response, ROk); (Close 7, ROk)].
Proof.
  apply (handler_returns_after_close served 7 ("10.0.0.1"%string, 5000)).
  reflexivity.
Defined.

(** ** Shutdown and failures of the supervisor *)

(** X5: [run] returns only by way of the shutdown path.  Whenever it
    returns, SIGINT has been delivered to the process and after it every
    worker of the list has been sent SIGTERM with success, once each and in
    the order of the list, and nothing else has happened since. *)
Theorem run_returns_only_after_shutdown fuel w w' :
  run fuel w = (Returned tt, w') ->
  exists pre,
    emitted w w' = pre ++ EvSignal SIGINT :: map kill_ok (_workers (self w')).
Proof. apply run_returns_after_shutdown. Qed.

Lemma X5_witness :
  exists pre,
    emitted {| self := three_tracked; trace := [];
               script := [RSignal SIGINT; ROk; ROk; ROk] |}
            {| self := three_tracked;
               trace := [EvSignal SIGINT; kill_ok 101; kill_ok 102; kill_ok 103];
               script := [] |}
    = pre ++ EvSignal SIGINT :: map kill_ok [101; 102; 103].
Proof.
  apply (run_returns_only_after_shutdown 1
           {| self := three_tracked; trace := [];
              script := [RSignal SIGINT; ROk; ROk; ROk] |}
           {| self := three_tracked;
              trace := [EvSignal SIGINT; kill_ok 101; kill_ok 102; kill_ok 103];
              script := [] |}).
  reflexivity.
Defined.

Lemma exitless_kill_workers : exitless _kill_workers.
Proof. unfold _kill_workers, os_kill, sys_unit. exitless. Qed.

(** X6: nothing that [run] executes raises [SystemExit]: it does not come
    out of the loop of [run], so the clause [except SystemExit] never runs,
    and it does not come out of [run]. *)
Theorem system_exit_is_never_raised fuel w :
  fst (loop fuel (run_turn fuel) w) <> Raised SystemExit /\
  fst (run fuel w) <> Raised SystemExit.
Proof.
  split; [apply run_body_exitless |].
  revert w. change (exitless (run fuel)). unfold run. apply exitless_try.
  - apply run_body_exitless.
  - intros e h He.
    destruct e; simpl in He; try discriminate; injection He as <-;
      apply exitless_kill_workers.
Qed.

Lemma for_each_kill_failure ws1 pid ws2 s tr errno rest :
  for_each (ws1 ++ pid :: ws2) (fun p => os_kill p SIGTERM)
    {| self := s; trace := tr; script := map (fun _ => ROk) ws1 ++ RErr errno :: rest |}
  = (Raised (OSError errno),
     {| self := s;
        trace := tr ++ map kill_ok ws1 ++ [EvCall (Kill pid SIGTERM) (RErr errno)];
        script := rest |}).
Proof.
  revert tr. induction ws1 as [| p ws1 IH]; intros tr; simpl.
  - reflexivity.
  - unfold bind at 1, os_kill, sys_unit, bind, sys, ret, step. simpl.
    rewrite IH. rewrite <- app_assoc. reflexivity.
Qed.

(** X7: shutdown stops at the first [os.kill] that fails.  When the kill
    of a tracked worker raises [OSError], the workers before it in the list
    have been sent SIGTERM, those after it are sent nothing, and the error
    leaves [run]. *)
Theorem shutdown_stops_at_failing_kill f s tr ws1 pid ws2 errno rest :
  _workers s = ws1 ++ pid :: ws2 ->
  run (S f)
    {| self := s; trace := tr;
       script := RSignal SIGINT :: map (fun _ => ROk) ws1 ++ RErr errno :: rest |}
  = (Raised (OSError errno),
     {| self := s;
        trace := tr ++ EvSignal SIGINT :: map kill_ok ws1
                    ++ [EvCall (Kill pid SIGTERM) (RErr errno)];
        script := rest |}).
Proof.
  intros Hws.
  assert (H : loop (S f) (run_turn (S f))
                {| self := s; trace := tr;
                   script := RSignal SIGINT :: map (fun _ => ROk) ws1
                             ++ RErr errno :: rest |}
              = (Raised KeyboardInterrupt,
                 {| self := s; trace := tr ++ [EvSignal SIGINT];
                    script := map (fun _ => ROk) ws1 ++ RErr errno :: rest |})).
  { apply loop_raised. unfold run_turn. apply bind_raised. reflexivity. }
  unfold run, try_except. rewrite H. simpl. unfold _kill_workers.
  erewrite bind_returned by reflexivity. simpl. rewrite Hws.
  rewrite for_each_kill_failure. rewrite <- app_assoc. reflexivity.
Qed.

Lemma X7_witness :
  run 1 {| self := three_tracked; trace := [];
           script := [RSignal SIGINT; ROk; RErr 3] |}
  = (Raised (OSError 3),
     {| self := three_tracked;
        trace := [EvSignal SIGINT; kill_ok 101; EvCall (Kill 102 SIGTERM) (RErr 3)];
        script := [] |}).
Proof.
  apply (shutdown_stops_at_failing_kill 0 three_tracked [] [101] 102 [103] 3 []).
  reflexivity.
Defined.

(** X8: a failing [os.fork] is fatal to the supervisor.  With fewer workers
    tracked than wanted, an [OSError] of the fork leaves [run] at once: it
    is not retried, the list of workers is as it was, and the workers
    already tracked are sent no signal. *)
Theorem fork_failure_is_fatal f s tr errno rest :
  can_fork s ->
  run (S f) {| self := s; trace := tr; script := RTick :: RErr errno :: rest |}
  = (Raised (OSError errno),
     {| self := s; trace := tr ++ [EvCall Fork (RErr errno)]; script := rest |}).
Proof.
  intros Hfork. unfold run, try_except.
  assert (H : loop (S f) (run_turn (S f))
                {| self := s; trace := tr; script := RTick :: RErr errno :: rest |}
              = (Raised (OSError errno),
                 {| self := s; trace := tr ++ [EvCall Fork (RErr errno)];
                    script := rest |})).
  { apply loop_raised. unfold run_turn.
    erewrite bind_returned by apply checkpoint_tick.
    apply bind_raised. apply loop_raised.
    rewrite top_up_turn_spawn by exact Hfork.
    apply bind_raised. apply start_worker_loop_error. }
  rewrite H. reflexivity.
Qed.

Lemma X8_witness :
  run 1 {| self := short_of_one; trace := []; script := [RTick; RErr 12] |}
  = (Raised (OSError 12),
     {| self := short_of_one; trace := [EvCall Fork (RErr 12)]; script := [] |}).
Proof.
  apply (fork_failure_is_fatal 0 short_of_one [] 12 []).
  unfold can_fork. simpl. lia.
Defined.

(** X9: an interrupted worker signals the workers forked before it.  The
    [try] of [run] is still open in the process in which [os.fork] returned
    0, with the list of workers as it was at the fork: when SIGINT reaches
    this worker while it waits, it sends SIGTERM to every pid of that list
    and returns from [run]. *)
Theorem interrupted_worker_kills_elder_siblings f s tr rest :
  can_fork s ->
  run (S f)
    {| self := s; trace := tr;
       script := RTick :: RInt 0 :: RSignal SIGINT
                 :: map (fun _ => ROk) (_workers s) ++ rest |}
  = (Returned tt,
     {| self := s;
        trace := tr ++ EvCall Fork (RInt 0) :: EvSignal SIGINT
                    :: map kill_ok (_workers s);
        script := rest |}).
Proof.
  intros Hfork.
  assert (H : loop (S f) (run_turn (S f))
                {| self := s; trace := tr;
                   script := RTick :: RInt 0 :: RSignal SIGINT
                             :: map (fun _ => ROk) (_workers s) ++ rest |}
              = (Raised KeyboardInterrupt,
                 {| self := s;
                    trace := tr ++ [EvCall Fork (RInt 0); EvSignal SIGINT];
                    script := map (fun _ => ROk) (_workers s) ++ rest |})).
  { apply loop_raised. unfold run_turn.
    erewrite bind_returned by apply checkpoint_tick.
    apply bind_raised. apply loop_raised.
    rewrite top_up_turn_spawn by exact Hfork.
    apply bind_raised. rewrite start_worker_loop_child.
    apply loop_raised. unfold worker_turn. apply bind_raised.
    destruct s as [n p lg ws l]. run_script. rewrite <- app_assoc. reflexivity. }
  unfold run, try_except. rewrite H. simpl. unfold _kill_workers.
  erewrite bind_returned by reflexivity. simpl.
  rewrite for_each_kill_ok. rewrite <- app_assoc. reflexivity.
Qed.

Lemma X9_witness :
  run 1 {| self := short_of_one; trace := [];
           script := [RTick; RInt 0; RSignal SIGINT; ROk] |}
  = (Returned tt,
     {| self := short_of_one;
        trace := [EvCall Fork (RInt 0); EvSignal SIGINT; kill_ok 101];
        script := [] |}).
Proof.
  apply (interrupted_worker_kills_elder_siblings 0 short_of_one [] []).
  unfold can_fork. simpl. lia.
Defined.

(** ** Failures in a worker *)

(** X10: a failure of [select] is never swallowed.  The wait is outside
    the [try] of the worker loop, so an [OSError] of [select] ends the
    worker loop whatever its errno, EAGAIN included. *)
Theorem select_failure_is_fatal n f s tr errno rest :
  loop (S n) (worker_turn (S f))
    {| self := s; trace := tr; script := RErr errno :: rest |}
  = (Raised (OSError errno),
     {| self := s;
        trace := tr ++ [EvCall (Select [_listener s] [] [] 1) (RErr errno)];
        script := rest |}).
Proof.
  apply loop_raised. destruct s as [nw p lg ws l]. run_script. reflexivity.
Qed.

(** X11: a failure while a connection is handled.  When, after [accept],
    one of [setblocking], [recv], [sendall], [close] raises [OSError], the
    worker's turn ends normally if the errno is EAGAIN and with the error
    otherwise, in which case it ends the worker loop; unless the failing
    call is [close] itself, [close] is not called on the connection. *)
Theorem handling_failure n f s tr conn peer avail k errno rest :
  (k < 4)%nat ->
  let w := {| self := s; trace := tr;
              script := RReady [_listener s] :: RConn conn peer
                        :: failing_after k avail errno ++ rest |} in
  fst (worker_turn (S f) w)
  = (if errno =? EAGAIN then Returned Continue else Raised (OSError errno)) /\
  (errno <> EAGAIN ->
   fst (loop (S n) (worker_turn (S f)) w) = Raised (OSError errno)) /\
  script (snd (worker_turn (S f) w)) = rest /\
  ((k < 3)%nat -> closed conn (emitted w (snd (worker_turn (S f) w))) = false).
Proof.
  intros Hk w.
  assert (Hturn :
    fst (worker_turn (S f) w)
    = (if errno =? EAGAIN then Returned Continue else Raised (OSError errno)) /\
    script (snd (worker_turn (S f) w)) = rest /\
    ((k < 3)%nat -> closed conn (emitted w (snd (worker_turn (S f) w))) = false)).
  { subst w. destruct s as [nw p lg ws l].
    destruct k as [| [| [| [| k]]]]; [| | | | lia]; unfold failing_after; simpl firstn;
      simpl app.
    - run_script. destruct (errno =? EAGAIN); simpl;
        repeat rewrite <- app_assoc; rewrite emitted_snoc; auto.
    - run_script. destruct (errno =? EAGAIN); simpl;
        repeat rewrite <- app_assoc; rewrite emitted_snoc; auto.
    - destruct lg; run_script; destruct (errno =? EAGAIN); simpl;
        repeat rewrite <- app_assoc; rewrite emitted_snoc; auto.
    - destruct lg; run_script; destruct (errno =? EAGAIN); simpl;
        repeat rewrite <- app_assoc; rewrite emitted_snoc;
        repeat split; auto; lia. }
  destruct Hturn as (Hfst & Hscript & Hclosed).
  repeat split; auto.
  intros Hne. apply Z.eqb_neq in Hne. rewrite Hne in Hfst.
  simpl. unfold bind. destruct (worker_turn (S f) w) as [o w1]. simpl in Hfst.
  rewrite Hfst. reflexivity.
Qed.

Lemma X11_witness :
  let w := {| self := fresh; trace := [];
              script := RReady [3] :: RConn 9 ("10.0.0.1"%string, 5000)
                        :: failing_after 1 [] 104 ++ [] |} in
  fst (worker_turn 1 w)
  = (if 104 =? EAGAIN then Returned Continue else Raised (OSError 104)) /\
  (104 <> EAGAIN -> fst (loop 1 (worker_turn 1) w) = Raised (OSError 104)) /\
  script (snd (worker_turn 1 w)) = [] /\
  ((1 < 3)%nat -> closed 9 (emitted w (snd (worker_turn 1 w))) = false).
Proof.
  apply (handling_failure 0 0 fresh [] 9 ("10.0.0.1"%string, 5000) [] 1 104 []).
  lia.
Defined.

(** ** Operations in sequence *)

(** X12: a worker serves the connections one after the other.  For any
    list of clients whose exchanges all succeed, the worker loop goes through
    one turn per client and is then at the head of its loop again; each
    connection is sent the response, once, in the order of acceptance, and is
    closed before the next one is accepted. *)
Theorem worker_serves_in_turn xs n f s tr rest :
  loop (List.length xs + n) (worker_turn (S f))
    {| self := s; trace := tr;
       script := flat_map (exchange_script (_listener s)) xs ++ rest |}
  = loop n (worker_turn (S f))
      {| self := s; trace := tr ++ flat_map (exchange_events s) xs; script := rest |}
  /\ payloads (flat_map (exchange_events s) xs) = map (fun x => (x_conn x, response)) xs
  /\ calls_of (flat_map (exchange_events s) xs)
     = flat_map (fun x => [Select [_listener s] [] [] 1; Accept (_listener s);
                           SetBlocking (x_conn x) 1; Recv (x_conn x) 512;
                           SendAll (x_conn x) response; Close (x_conn x)]) xs.
Proof.
  split; [| split].
  - revert tr. induction xs as [| x xs IH]; intros tr.
    + simpl. rewrite app_nil_r. reflexivity.
    + simpl flat_map. rewrite <- app_assoc. unfold exchange_script at 1. simpl app.
      change (List.length (x :: xs) + n)%nat with (S (List.length xs + n)).
      erewrite loop_continue by apply worker_turn_served.
      rewrite IH. unfold exchange_events. repeat rewrite <- app_assoc. reflexivity.
  - induction xs as [| x xs IH]; simpl; [reflexivity |].
    unfold payloads in *. rewrite flat_map_app, IH. unfold exchange_events.
    rewrite !flat_map_app. unfold log_events.
    destruct (enabled (logger s) DEBUG); reflexivity.
  - induction xs as [| x xs IH]; simpl; [reflexivity |].
    rewrite calls_of_app, IH. unfold exchange_events, calls_of, log_events.
    destruct (enabled (logger s) DEBUG); reflexivity.
Qed.

(** X13: the worker waits for as long as nothing is readable.  After [k]
    waits that expire and one that reports the listener readable, the wait
    returns, having made exactly [k + 1] calls of [select] and no other. *)
Theorem wait_ready_after_timeouts k f s tr rest :
  wait_ready (k + S f)
    {| self := s; trace := tr;
       script := repeat (RReady []) k ++ RReady [_listener s] :: rest |}
  = (Returned tt,
     {| self := s;
        trace := tr ++ repeat (EvCall (Select [_listener s] [] [] 1) (RReady [])) k
                    ++ [EvCall (Select [_listener s] [] [] 1) (RReady [_listener s])];
        script := rest |}).
Proof.
  revert tr. induction k as [| k IH]; intros tr; simpl.
  - destruct s as [nw p lg ws l]. run_script. reflexivity.
  - rewrite wait_ready_timeout. rewrite IH. rewrite <- app_assoc. reflexivity.
Qed.

Lemma set_workers_same s : set_workers (_workers s ++ []) s = s.
Proof. destruct s. unfold set_workers. simpl. rewrite app_nil_r. reflexivity. Qed.

Lemma top_up_loop pids :
  forall n f s tr rest,
    Forall (fun pid => pid <> 0) pids ->
    _desired_worker_count s = Z.of_nat (List.length (_workers s) + List.length pids) ->
    loop (S (List.length pids) + n) (top_up_turn f)
      {| self := s; trace := tr; script := flat_map spawn_script pids ++ rest |}
    = (Returned tt,
       {| self := set_workers (_workers s ++ pids) s;
          trace := tr ++ flat_map spawn_events pids;
          script := rest |}).
Proof.
  induction pids as [| pid pids IH]; intros n f s tr rest Hpids Hn.
  - simpl. unfold bind. rewrite top_up_turn_full.
    + rewrite set_workers_same, app_nil_r. reflexivity.
    + unfold can_fork. simpl in *. lia.
  - inversion Hpids as [| ? ? Hpid Hrest]; subst.
    change (S (List.length (pid :: pids)) + n)%nat
      with (S (S (List.length pids) + n)).
    change (flat_map spawn_script (pid :: pids) ++ rest)
      with (spawn_script pid ++ flat_map spawn_script pids ++ rest).
    erewrite loop_continue.
    2:{ rewrite top_up_turn_spawn by (unfold can_fork; simpl in *; lia).
        erewrite bind_returned by (apply start_worker_loop_parent; exact Hpid).
        reflexivity. }
    rewrite IH; [| exact Hrest | simpl in *; rewrite length_app; simpl; lia].
    destruct s as [nw p lg ws l]. unfold set_workers, spawn_events. simpl.
    repeat rewrite <- app_assoc. reflexivity.
Qed.

(** One pass of the supervisor's loop that starts short of the target. *)
Lemma run_turn_to_target pids f s tr rest :
  Forall (fun pid => pid <> 0) pids ->
  _desired_worker_count s = Z.of_nat (List.length (_workers s) + List.length pids) ->
  run_turn (S (List.length pids) + f)
    {| self := s; trace := tr; script := RTick :: flat_map spawn_script pids ++ rest |}
  = (Returned Continue,
     {| self := set_workers (_workers s ++ pids) s;
        trace := tr ++ flat_map spawn_events pids;
        script := rest |}).
Proof.
  intros Hpids Hn. unfold run_turn.
  erewrite bind_returned by apply checkpoint_tick.
  erewrite bind_returned by (apply top_up_loop; assumption).
  reflexivity.
Qed.


(** Idle passes of the supervisor's loop. *)
Lemma idle_passes k n f s tr rest :
  ~ can_fork s ->
  loop (k + n) (run_turn (S f))
    {| self := s; trace := tr; script := repeat RTick k ++ rest |}
  = loop n (run_turn (S f)) {| self := s; trace := tr; script := rest |}.
Proof.
  intros Hfull. induction k as [| k IH]; [reflexivity |].
  change (S k + n)%nat with (S (k + n)). simpl repeat. simpl app.
  erewrite loop_continue; [exact IH |].
  unfold run_turn. erewrite bind_returned by apply checkpoint_tick.
  erewrite bind_returned.
  2:{ simpl loop. erewrite bind_returned by (apply top_up_turn_full; exact Hfull).
      reflexivity. }
  reflexivity.
Qed.

(** X14: the supervisor forks until the target is reached, and no further.
    With [N] more workers wanted and [N] forks that each return a pid, none
    of them interrupted, the supervisor makes exactly these [N] forks in one
    pass of its loop and tracks the pids in the order of the forks; the pass
    ends there, whatever the system would answer next.  It then goes round
    without a fork until SIGINT arrives, and the shutdown signals the workers
    it began with and the [N] new ones. *)
Theorem supervisor_forks_to_target pids s tr :
  Forall (fun pid => pid <> 0) pids ->
  _desired_worker_count s = Z.of_nat (List.length (_workers s) + List.length pids) ->
  (forall m f rest,
     loop (S m) (run_turn (S (List.length pids) + f))
       {| self := s; trace := tr;
          script := RTick :: flat_map spawn_script pids ++ rest |}
     = loop m (run_turn (S (List.length pids) + f))
         {| self := set_workers (_workers s ++ pids) s;
            trace := tr ++ flat_map spawn_events pids;
            script := rest |}) /\
  (forall k n rest,
     run (S (S (List.length pids + k + n)))
       {| self := s; trace := tr;
          script := RTick :: flat_map spawn_script pids ++ repeat RTick k
                    ++ RSignal SIGINT :: map (fun _ => ROk) (_workers s ++ pids) ++ rest |}
     = (Returned tt,
        {| self := set_workers (_workers s ++ pids) s;
           trace := tr ++ flat_map spawn_events pids
                       ++ EvSignal SIGINT :: map kill_ok (_workers s ++ pids);
           script := rest |})).
Proof.
  intros Hpids Hn. split.
  - intros m f rest. apply loop_continue. apply run_turn_to_target; assumption.
  - intros k n rest.
    set (s1 := set_workers (_workers s ++ pids) s).
    assert (Hfull : ~ can_fork s1).
    { unfold can_fork, s1. simpl. rewrite length_app. lia. }
    assert (Hloop : forall m f,
              loop (S (k + S m)) (run_turn (S (List.length pids) + f))
                {| self := s; trace := tr;
                   script := RTick :: flat_map spawn_script pids ++ repeat RTick k
                             ++ RSignal SIGINT
                                :: map (fun _ => ROk) (_workers s ++ pids) ++ rest |}
              = (Raised KeyboardInterrupt,
                 {| self := s1;
                    trace := (tr ++ flat_map spawn_events pids) ++ [EvSignal SIGINT];
                    script := map (fun _ => ROk) (_workers s ++ pids) ++ rest |})).
    { intros m f.
      erewrite loop_continue by (apply run_turn_to_target; assumption).
      rewrite (idle_passes k (S m) (List.length pids + f) s1 _ _ Hfull).
      apply loop_raised. unfold run_turn. apply bind_raised. reflexivity. }
    specialize (Hloop (List.length pids + n)%nat (S (k + n))).
    replace (S (k + S (List.length pids + n)))
      with (S (S (List.length pids + k + n))) in Hloop by lia.
    replace (S (List.length pids) + S (k + n))%nat
      with (S (S (List.length pids + k + n))) in Hloop by lia.
    unfold run, try_except. rewrite Hloop. simpl. unfold _kill_workers.
    erewrite bind_returned by reflexivity.
    change (_workers (self {| self := s1;
                              trace := (tr ++ flat_map spawn_events pids) ++ [EvSignal SIGINT];
                              script := map (fun _ => ROk) (_workers s ++ pids) ++ rest |}))
      with (_workers s ++ pids).
    rewrite for_each_kill_ok. unfold kill_ok.
    rewrite <- !app_assoc. reflexivity.
Qed.

(** A supervisor that wants two workers forks pids 101 and 102 and leaves
    a third fork that the system would grant untaken; after two idle passes
    and SIGINT it signals both. *)
Lemma X14_witness :
  loop 1 (run_turn 3)
    {| self := fresh; trace := [];
       script := RTick :: flat_map spawn_script [101; 102] ++ [RInt 103] |}
  = loop 0 (run_turn 3)
      {| self := set_workers [101; 102] fresh;
         trace := flat_map spawn_events [101; 102];
         script := [RInt 103] |} /\
  run 6
    {| self := fresh; trace := [];
       script := RTick :: flat_map spawn_script [101; 102] ++ repeat RTick 2
                 ++ [RSignal SIGINT; ROk; ROk] |}
  = (Returned tt,
     {| self := set_workers [101; 102] fresh;
        trace := flat_map spawn_events [101; 102]
                 ++ [EvSignal SIGINT; kill_ok 101; kill_ok 102];
        script := [] |}).
Proof.
  assert (H1 : Forall (fun pid => pid <> 0) [101; 102]) by (repeat constructor; lia).
  assert (H2 : _desired_worker_count fresh
               = Z.of_nat (List.length (_workers fresh) + List.length [101; 102]))
    by reflexivity.
  split.
  - exact (proj1 (supervisor_forks_to_target [101; 102] fresh [] H1 H2) 0%nat 0%nat [RInt 103]).
  - exact (proj2 (supervisor_forks_to_target [101; 102] fresh [] H1 H2) 2%nat 0%nat []).
Defined.

(** ** Start-up *)

Ltac init_leaf :=
  right; unfold boot, __init__, _create_socket, socket_socket, sock_setblocking,
    sock_setsockopt, sock_bind, sock_listen, sys_unit, set_self, get_self, bind, sys,
    ret, starve, step, deliver; simpl;
  repeat match goal with
         | sg : signal |- _ => destruct sg; simpl
         end;
  (split; [discriminate |]);
  repeat (apply Forall_cons; [reflexivity |]); apply Forall_nil.

(** [__init__] either goes through the whole of listener creation, or
    ends without returning, having done nothing but set-up calls. *)
Lemma init_outcome a os :
  let r := __init__ (Some (worker_count a)) (Some (port a)) (Some (debug a)) (boot os) in
  (exists l rest,
     os = startup_script l ++ rest /\
     r = (Returned tt,
          {| self := initialised a l; trace := startup_events l (port a);
             script := rest |})) \/
  (fst r <> Returned tt /\ Forall (fun e => setup_event e = true) (trace (snd r))).
Proof.
  destruct os as [| r1 os]; [init_leaf |].
  destruct r1 as [| l | | | | | |]; try solve [init_leaf].
  destruct os as [| r2 os]; [init_leaf |].
  destruct r2; try solve [init_leaf].
  destruct os as [| r3 os]; [init_leaf |].
  destruct r3; try solve [init_leaf].
  destruct os as [| r4 os]; [init_leaf |].
  destruct r4; try solve [init_leaf].
  destruct os as [| r5 os]; [init_leaf |].
  destruct r5; try solve [init_leaf].
  destruct os as [| r6 os]; [init_leaf |].
  destruct r6; try solve [init_leaf].
  left. exists l, os. split; reflexivity.
Qed.

Lemma main_after_failed_init fuel a os :
  fst (__init__ (Some (worker_count a)) (Some (port a)) (Some (debug a)) (boot os))
  <> Returned tt ->
  snd (main fuel a (boot os))
  = snd (__init__ (Some (worker_count a)) (Some (port a)) (Some (debug a)) (boot os)).
Proof.
  intros H. unfold main, bind.
  destruct (__init__ _ _ _ (boot os)) as [[[] | e | sg |] w1]; simpl in *;
    [contradiction | reflexivity | reflexivity | reflexivity].
Qed.

Lemma main_after_init fuel a os l rest :
  __init__ (Some (worker_count a)) (Some (port a)) (Some (debug a)) (boot os)
  = (Returned tt,
     {| self := initialised a l; trace := startup_events l (port a); script := rest |}) ->
  main fuel a (boot os)
  = run fuel {| self := initialised a l; trace := startup_events l (port a);
                script := rest |}.
Proof. intros H. unfold main, bind. rewrite H. reflexivity. Qed.

Lemma setup_forks tr : Forall (fun e => setup_event e = true) tr -> forks tr = O.
Proof.
  induction 1 as [| e tr He _ IH]; [reflexivity |].
  change (forks (e :: tr)) with (forks ([e] ++ tr)). rewrite forks_app, IH.
  destruct e as [[] r | |]; simpl in *; try discriminate; reflexivity.
Qed.

Lemma setup_accepts l tr : Forall (fun e => setup_event e = true) tr -> Forall (accepts_on l) tr.
Proof.
  intros H. eapply Forall_impl; [| exact H].
  intros e He. destruct e as [[] r | |]; simpl in *; try discriminate; exact I.
Qed.

(** X15: no worker before the listener.  In every run of the program, a
    fork is made only after the listening socket has been created, set
    non-blocking, configured, bound and put to listen, each with success:
    when the trace contains a fork it begins with these six calls. *)
Theorem fork_only_after_listen fuel a os :
  let tr := trace (snd (main fuel a (boot os))) in
  forks tr <> O ->
  exists l evs, tr = startup_events l (port a) ++ evs.
Proof.
  intros tr Hforks. subst tr.
  destruct (init_outcome a os) as [(l & rest & _ & Hinit) | [Hfail Hsetup]].
  - exists l. rewrite (main_after_init fuel a os l rest Hinit).
    destruct (proj1 (steady_run fuel
                {| self := initialised a l; trace := startup_events l (port a);
                   script := rest |})) as [[evs Hevs] _].
    exists evs. exact Hevs.
  - rewrite (main_after_failed_init fuel a os Hfail) in Hforks.
    destruct (Hforks (setup_forks _ Hsetup)).
Qed.

Lemma X15_witness :
  exists l evs,
    trace (snd (main 3 two_workers (boot interrupted)))
    = startup_events l (port two_workers) ++ evs.
Proof.
  apply (fork_only_after_listen 3 two_workers interrupted).
  vm_compute. discriminate.
Defined.

(** The listener of the instance stays what it is, and [accept] is
    called on it. *)
Lemma run_listening l tr0 fuel :
  triple (listening l tr0) (run fuel) (fun _ => listening l tr0) (fun _ => listening l tr0).
Proof.
  assert (Hsnoc : forall s tr e, accepts_on l e -> listening l tr0 s tr ->
                                 listening l tr0 s (tr ++ [e])).
  { intros s tr e He (Hl & evs & -> & Hevs). split; [exact Hl |].
    exists (evs ++ [e]). rewrite app_assoc. split; [reflexivity |].
    apply Forall_app. split; [exact Hevs | constructor; [exact He | constructor]]. }
  apply inv_run.
  - intros s tr sig. apply Hsnoc. exact I.
  - intros s tr lv m. apply Hsnoc. exact I.
  - intros s tr c r Hc. apply Hsnoc. destruct c; simpl in *; try exact I. contradiction.
  - intros s tr e _. apply Hsnoc. exact I.
  - intros s tr _. apply Hsnoc. exact I.
  - intros s tr pid _ _. apply Hsnoc. exact I.
  - intros s tr pid _ (Hl & Hevs). split; [exact Hl | exact Hevs].
  - intros s tr rl r _ H.
    change (tr ++ [EvCall (Select [_listener s] [] [] 1) (RReady rl);
                   EvCall (Accept (_listener s)) r])
      with (tr ++ [EvCall (Select [_listener s] [] [] 1) (RReady rl)]
               ++ [EvCall (Accept (_listener s)) r]).
    rewrite app_assoc. apply Hsnoc; [simpl; exact (proj1 H) |].
    apply Hsnoc; [exact I | exact H].
Qed.

(** X16: connections are accepted on the listener of start-up only.  In
    every run of the program, every [accept] is called on the very socket
    that start-up created, bound and put to listen: when the trace contains
    an [accept] on a descriptor, it begins with the successful start-up of
    that descriptor. *)
Theorem accept_only_on_the_listener fuel a os l r :
  let tr := trace (snd (main fuel a (boot os))) in
  In (EvCall (Accept l) r) tr ->
  exists evs, tr = startup_events l (port a) ++ evs.
Proof.
  intros tr Hin. subst tr.
  destruct (init_outcome a os) as [(l0 & rest & _ & Hinit) | [Hfail Hsetup]].
  - rewrite (main_after_init fuel a os l0 rest Hinit) in *.
    pose proof (run_listening l0 (startup_events l0 (port a)) fuel
                  {| self := initialised a l0; trace := startup_events l0 (port a);
                     script := rest |}) as Hrun.
    assert (Hend : listening l0 (startup_events l0 (port a))
                     (self (snd (run fuel
                        {| self := initialised a l0; trace := startup_events l0 (port a);
                           script := rest |})))
                     (trace (snd (run fuel
                        {| self := initialised a l0; trace := startup_events l0 (port a);
                           script := rest |})))).
    { destruct (run fuel _) as [[u | e | sg |] w1]; simpl; apply Hrun;
        (split; [reflexivity |]; exists []; rewrite app_nil_r; auto). }
    destruct Hend as (_ & evs & Htr & Hevs). rewrite Htr in Hin.
    apply in_app_or in Hin. destruct Hin as [Hin | Hin].
    + simpl in Hin. repeat (destruct Hin as [Hin | Hin]; [discriminate |]). contradiction.
    + rewrite Forall_forall in Hevs. specialize (Hevs _ Hin). simpl in Hevs. subst l.
      exists evs. exact Htr.
  - rewrite (main_after_failed_init fuel a os Hfail) in Hin.
    pose proof (setup_accepts (l + 1) _ Hsetup) as Hacc.
    rewrite Forall_forall in Hacc. specialize (Hacc _ Hin). simpl in Hacc. lia.
Qed.

Lemma X16_witness :
  exists evs,
    trace (snd (main 1 two_workers (boot one_request)))
    = startup_events 3 (port two_workers) ++ evs.
Proof.
  apply (accept_only_on_the_listener 1 two_workers one_request 3
           (RConn 9 ("10.0.0.1"%string, 5000))).
  vm_compute. repeat (first [left; reflexivity | right]).
Defined.

Lemma roles_of_supervisor evs :
  roles evs = true -> forks evs = O ->
  Forall (fun e => supervisor_event e = true) evs.
Proof.
  induction evs as [| e evs IH]; intros Hr Hf; [constructor |].
  change (forks (e :: evs)) with (forks ([e] ++ evs)) in Hf. rewrite forks_app in Hf.
  simpl in Hr. destruct (is_child_fork e) eqn:Hc.
  - destruct e as [[] r | |]; simpl in *; discriminate.
  - apply andb_prop in Hr. destruct Hr as [He Hr].
    constructor; [exact He | apply IH; [exact Hr | lia]].
Qed.

(** X17: a server that wants no worker serves nothing.  With a worker
    count of zero or less the program forks no process, in any run, and so
    never accepts a connection. *)
Theorem no_worker_wanted fuel a os :
  worker_count a <= 0 ->
  let tr := trace (snd (main fuel a (boot os))) in
  forks tr = O /\ forall l r, ~ In (EvCall (Accept l) r) tr.
Proof.
  intros Hwc tr. subst tr.
  destruct (init_outcome a os) as [(l0 & rest & _ & Hinit) | [Hfail Hsetup]].
  - rewrite (main_after_init fuel a os l0 rest Hinit).
    set (w1 := {| self := initialised a l0; trace := startup_events l0 (port a);
                  script := rest |}).
    assert (Hend : forkless (trace w1) (self (snd (run fuel w1))) (trace (snd (run fuel w1)))).
    { pose proof (run_forkless (trace w1) fuel w1) as Hrun.
      destruct (run fuel w1) as [[u | e | sg |] w2]; simpl; apply Hrun;
        (split; [unfold can_fork; simpl; lia |]; exists []; rewrite app_nil_r; auto). }
    destruct Hend as (_ & evs & Htr & Hf).
    pose proof (run_roles fuel w1) as Hroles. rewrite (emitted_app _ _ _ Htr) in Hroles.
    rewrite Htr. split.
    + rewrite forks_app, Hf. reflexivity.
    + intros l r Hin. apply in_app_or in Hin. destruct Hin as [Hin | Hin].
      * simpl in Hin. repeat (destruct Hin as [Hin | Hin]; [discriminate |]). contradiction.
      * pose proof (roles_of_supervisor evs Hroles Hf) as Hsup.
        rewrite Forall_forall in Hsup. specialize (Hsup _ Hin). discriminate.
  - rewrite (main_after_failed_init fuel a os Hfail). split.
    + apply setup_forks, Hsetup.
    + intros l r Hin. rewrite Forall_forall in Hsetup. specialize (Hsetup _ Hin).
      discriminate.
Qed.

Lemma X17_witness :
  let tr := trace (snd (main 3 no_workers (boot interrupted))) in
  forks tr = O /\ forall l r, ~ In (EvCall (Accept l) r) tr.
Proof.
  apply (no_worker_wanted 3 no_workers interrupted).
  simpl. lia.
Defined.

(** ** The debug flag changes the log and nothing else *)

Lemma unlogged_app tr1 tr2 : unlogged (tr1 ++ tr2) = unlogged tr1 ++ unlogged tr2.
Proof. apply filter_app. Qed.

Lemma alike_step w1 w2 e rest1 rest2 :
  alike w1 w2 -> rest1 = rest2 -> alike (step e rest1 w1) (step e rest2 w2).
Proof.
  intros (Hs & Ht & _) ->. repeat split; try apply Hs.
  simpl. rewrite !unlogged_app, Ht. reflexivity.
Qed.

Lemma twin_ret {A} (R : A -> A -> Prop) a1 a2 : R a1 a2 -> twin R (ret a1) (ret a2).
Proof. intros H w1 w2 Hw. split; [exact H | exact Hw]. Qed.

Lemma twin_raise {A} (R : A -> A -> Prop) e : twin R (raise e) (raise e).
Proof. intros w1 w2 Hw. split; [reflexivity | exact Hw]. Qed.

Lemma twin_starve {A} (R : A -> A -> Prop) : twin R starve starve.
Proof. intros w1 w2 Hw. split; [exact I | exact Hw]. Qed.

Lemma twin_bind {A B} (RA : A -> A -> Prop) (RB : B -> B -> Prop) m1 m2 k1 k2 :
  twin RA m1 m2 ->
  (forall a1 a2, RA a1 a2 -> twin RB (k1 a1) (k2 a2)) ->
  twin RB (bind m1 k1) (bind m2 k2).
Proof.
  intros Hm Hk w1 w2 Hw. destruct (Hm w1 w2 Hw) as [Ho Hs]. unfold bind.
  destruct (m1 w1) as [[a1 | e1 | s1 |] w1'], (m2 w2) as [[a2 | e2 | s2 |] w2'];
    simpl in *; try contradiction; auto.
  apply Hk; assumption.
Qed.

Lemma twin_try {A} (R : A -> A -> Prop) b1 b2 h1 h2 :
  twin R b1 b2 ->
  (forall e, match h1 e, h2 e with
             | Some x, Some y => twin R x y
             | None, None => True
             | _, _ => False
             end) ->
  twin R (try_except b1 h1) (try_except b2 h2).
Proof.
  intros Hb Hh w1 w2 Hw. destruct (Hb w1 w2 Hw) as [Ho Hs]. unfold try_except.
  destruct (b1 w1) as [[a1 | e1 | s1 |] w1'], (b2 w2) as [[a2 | e2 | s2 |] w2'];
    simpl in *; try contradiction; auto.
  subst e2. specialize (Hh e1).
  destruct (h1 e1), (h2 e1); try contradiction; [apply Hh; assumption | simpl; auto].
Qed.

Lemma twin_loop fuel body1 body2 :
  twin eq body1 body2 -> twin eq (loop fuel body1) (loop fuel body2).
Proof.
  intros Hb. induction fuel as [| n IH]; simpl.
  - apply twin_starve.
  - eapply twin_bind; [exact Hb |].
    intros c1 c2 <-. destruct c1; [exact IH | apply twin_ret; reflexivity].
Qed.

Lemma twin_for_each {A} (l : list A) f1 f2 :
  (forall x, twin eq (f1 x) (f2 x)) -> twin eq (for_each l f1) (for_each l f2).
Proof.
  intros Hf. induction l as [| x l IH]; simpl.
  - apply twin_ret. reflexivity.
  - eapply twin_bind; [apply Hf | intros; exact IH].
Qed.

Lemma twin_sys c : twin eq (sys c) (sys c).
Proof.
  intros w1 w2 Hw. pose proof Hw as (Hs & Ht & Hsc). unfold sys. rewrite Hsc.
  destruct (script w2) as [| r rest]; [split; [exact I | exact Hw] |].
  destruct r as [| n | rd | cn pr | d | e | sg |]; simpl;
    try (destruct (observe c _); simpl;
         [split; [reflexivity | apply alike_step; auto] | split; [exact I | exact Hw]]).
  - split; [reflexivity | apply alike_step; auto].
  - unfold deliver. destruct (disposition sg); simpl;
      (split; [reflexivity | apply alike_step; auto]).
Qed.

Lemma twin_checkpoint : twin eq checkpoint checkpoint.
Proof.
  intros w1 w2 Hw. pose proof Hw as (Hs & Ht & Hsc). unfold checkpoint. rewrite Hsc.
  destruct (script w2) as [| r rest]; [split; [exact I | exact Hw] |].
  destruct r as [| n | rd | cn pr | d | e | sg |]; simpl;
    try (split; [exact I | exact Hw]).
  - unfold deliver. destruct (disposition sg); simpl;
      (split; [reflexivity | apply alike_step; auto]).
  - split; [reflexivity |]. repeat split; auto; apply Hs.
Qed.

Lemma twin_get_self : twin same_but_logger get_self get_self.
Proof. intros w1 w2 Hw. split; [apply Hw | exact Hw]. Qed.

Lemma twin_set_self f1 f2 :
  (forall s1 s2, same_but_logger s1 s2 -> same_but_logger (f1 s1) (f2 s2)) ->
  twin eq (set_self f1) (set_self f2).
Proof.
  intros Hf w1 w2 (Hs & Ht & Hsc). split; [reflexivity |].
  split; [apply Hf, Hs | split; assumption].
Qed.

Lemma twin_log l1 m1 l2 m2 : twin eq (log l1 m1) (log l2 m2).
Proof.
  intros w1 w2 (Hs & Ht & Hsc). unfold log.
  destruct (enabled (logger (self w1)) l1), (enabled (logger (self w2)) l2); simpl;
    (split; [reflexivity |]); (split; [exact Hs |]); (split; [| exact Hsc]); simpl;
    rewrite ?unlogged_app; simpl; rewrite ?app_nil_r; exact Ht.
Qed.

Lemma twin_sys_unit c : twin eq (sys_unit c) (sys_unit c).
Proof.
  unfold sys_unit. eapply twin_bind; [apply twin_sys |].
  intros r1 r2 _. apply twin_ret. reflexivity.
Qed.

Lemma twin_handle_request conn addr :
  twin eq (_handle_request conn addr) (_handle_request conn addr).
Proof.
  unfold _handle_request, sock_setblocking, sock_recv, sock_sendall, sock_close.
  eapply twin_bind; [apply twin_sys_unit | intros ? ? _].
  eapply twin_bind with (RA := eq).
  { eapply twin_bind; [apply twin_sys |].
    intros r1 r2 <-. destruct r1; (apply twin_ret; reflexivity) || apply twin_starve. }
  intros d1 d2 _.
  eapply twin_bind; [apply twin_log | intros ? ? _].
  eapply twin_bind; [apply twin_sys_unit | intros ? ? _].
  eapply twin_bind; [apply twin_sys_unit | intros ? ? _].
  apply twin_log.
Qed.

Lemma twin_kill_workers : twin eq _kill_workers _kill_workers.
Proof.
  unfold _kill_workers. eapply twin_bind; [apply twin_get_self |].
  intros s1 s2 (_ & _ & Hws & _). rewrite Hws.
  apply twin_for_each. intros pid. apply twin_sys_unit.
Qed.

Lemma twin_worker_turn fuel : twin eq (worker_turn fuel) (worker_turn fuel).
Proof.
  unfold worker_turn, wait_ready, select_select, sock_accept.
  eapply twin_bind with (RA := eq).
  { apply twin_loop. eapply twin_bind; [apply twin_get_self |].
    intros s1 s2 (_ & _ & _ & Hl). rewrite Hl.
    eapply twin_bind with (RA := eq).
    - eapply twin_bind; [apply twin_sys |].
      intros r1 r2 <-. destruct r1; (apply twin_ret; reflexivity) || apply twin_starve.
    - intros l1 l2 <-. destruct l1; apply twin_ret; reflexivity. }
  intros ? ? _.
  eapply twin_bind with (RA := eq); [| intros ? ? _; apply twin_ret; reflexivity].
  apply twin_try.
  - eapply twin_bind; [apply twin_get_self |].
    intros s1 s2 (_ & _ & _ & Hl). rewrite Hl.
    eapply twin_bind with (RA := eq).
    + eapply twin_bind; [apply twin_sys |].
      intros r1 r2 <-. destruct r1; (apply twin_ret; reflexivity) || apply twin_starve.
    + intros ca1 ca2 <-. apply twin_handle_request.
  - intros e. destruct e; simpl; auto.
    destruct (negb (errno =? EAGAIN)); [apply twin_raise | apply twin_ret; reflexivity].
Qed.

Lemma twin_start_worker_loop fuel :
  twin eq (_start_worker_loop fuel) (_start_worker_loop fuel).
Proof.
  unfold _start_worker_loop, os_fork, workers_append.
  eapply twin_bind with (RA := eq).
  { eapply twin_bind; [apply twin_sys |].
    intros r1 r2 <-. destruct r1; (apply twin_ret; reflexivity) || apply twin_starve. }
  intros pid1 pid2 <-. destruct (negb (pid1 =? 0)).
  - eapply twin_bind; [apply twin_checkpoint | intros ? ? _].
    eapply twin_bind; [apply twin_log | intros ? ? _].
    eapply twin_bind; [apply twin_checkpoint | intros ? ? _].
    apply twin_set_self. intros s1 s2 (H1 & H2 & H3 & H4).
    repeat split; simpl; auto. rewrite H3. reflexivity.
  - destruct (pid1 =? 0); [| apply twin_ret; reflexivity].
    apply twin_loop, twin_worker_turn.
Qed.

Lemma twin_run fuel : twin eq (run fuel) (run fuel).
Proof.
  unfold run. apply twin_try.
  - apply twin_loop. unfold run_turn.
    eapply twin_bind; [apply twin_checkpoint | intros ? ? _].
    eapply twin_bind with (RA := eq); [| intros ? ? _; apply twin_ret; reflexivity].
    apply twin_loop. unfold top_up_turn.
    eapply twin_bind; [apply twin_get_self |].
    intros s1 s2 (H1 & _ & H3 & _). rewrite H1, H3. destruct (_ <? _).
    + eapply twin_bind; [apply twin_start_worker_loop |].
      intros ? ? _. apply twin_ret. reflexivity.
    + apply twin_ret. reflexivity.
  - intros e. destruct e; simpl; auto; apply twin_kill_workers.
Qed.

Lemma twin_create_socket host port backlog :
  twin eq (_create_socket host port backlog) (_create_socket host port backlog).
Proof.
  unfold _create_socket, socket_socket, sock_setblocking, sock_setsockopt, sock_bind,
    sock_listen.
  eapply twin_bind with (RA := eq).
  { eapply twin_bind; [apply twin_sys |].
    intros r1 r2 <-. destruct r1; (apply twin_ret; reflexivity) || apply twin_starve. }
  intros l1 l2 <-.
  repeat (eapply twin_bind; [apply twin_sys_unit | intros ? ? _]).
  apply twin_ret. reflexivity.
Qed.

Lemma twin_main fuel a1 a2 :
  worker_count a1 = worker_count a2 -> port a1 = port a2 ->
  twin eq (main fuel a1) (main fuel a2).
Proof.
  intros Hwc Hport. unfold main, __init__. simpl. rewrite Hwc, Hport.
  eapply twin_bind with (RA := eq); [| intros ? ? _; apply twin_run].
  eapply twin_bind; [apply twin_set_self | intros ? ? _].
  { intros s1 s2 (H1 & H2 & H3 & H4). repeat split; simpl; auto. }
  eapply twin_bind; [apply twin_set_self | intros ? ? _].
  { intros s1 s2 (H1 & H2 & H3 & H4). repeat split; simpl; auto. }
  eapply twin_bind; [apply twin_set_self | intros ? ? _].
  { intros s1 s2 (H1 & H2 & H3 & H4). repeat split; simpl; auto. }
  eapply twin_bind; [apply twin_set_self | intros ? ? _].
  { intros s1 s2 (H1 & H2 & H3 & H4). repeat split; simpl; auto. }
  eapply twin_bind; [apply twin_get_self |].
  intros s1 s2 (_ & H2 & _ & _). rewrite H2.
  eapply twin_bind; [apply twin_create_socket |].
  intros l1 l2 <-. apply twin_set_self.
  intros s1' s2' (H1 & H2' & H3 & H4). repeat split; simpl; auto.
Qed.

(** X18: the debug flag changes the log and nothing else.  Two runs of the
    program on the same answers of the system, with the same worker count
    and port and any values of [debug], end in the same way, make the same
    system calls with the same results, receive the same signals, track the
    same workers and listen on the same socket; their traces differ in log
    records at most. *)
Theorem debug_changes_only_the_log fuel a1 a2 os :
  worker_count a1 = worker_count a2 -> port a1 = port a2 ->
  let r1 := main fuel a1 (boot os) in
  let r2 := main fuel a2 (boot os) in
  same_ending eq (fst r1) (fst r2) /\
  unlogged (trace (snd r1)) = unlogged (trace (snd r2)) /\
  same_but_logger (self (snd r1)) (self (snd r2)) /\
  script (snd r1) = script (snd r2).
Proof.
  intros Hwc Hport r1 r2. subst r1 r2.
  destruct (twin_main fuel a1 a2 Hwc Hport (boot os) (boot os)) as [Ho (Hs & Ht & Hsc)].
  - repeat split; reflexivity.
  - auto.
Qed.

Lemma X18_witness :
  let r1 := main 1 two_workers (boot one_served) in
  let r2 := main 1 two_workers_debug (boot one_served) in
  same_ending eq (fst r1) (fst r2) /\
  unlogged (trace (snd r1)) = unlogged (trace (snd r2)) /\
  same_but_logger (self (snd r1)) (self (snd r2)) /\
  script (snd r1) = script (snd r2).
Proof.
  apply (debug_changes_only_the_log 1 two_workers two_workers_debug one_served).
  - reflexivity.
  - reflexivity.
Defined.

(** With debug logging the worker does write the two debug records. *)
Example debug_run_logs_the_exchange :
  List.length (filter is_log (trace (snd (main 1 two_workers (boot one_served))))) = O /\
  List.length (filter is_log (trace (snd (main 1 two_workers_debug (boot one_served)))))
  = 2%nat.
Proof. vm_compute. auto. Qed.

(** ** Listener creation stops at the first call that fails *)



(** ** The program from start-up to the target count *)




(** X21: at the target count the supervisor spins.  With as many workers
    tracked as wanted, or more, each pass of the supervisor's loop makes no
    system call and changes nothing: the loop goes round, pass after pass,
    with the trace and the instance as they were. *)
Theorem supervisor_spins_at_target k n f s tr rest :
  ~ can_fork s ->
  loop (k + n) (run_turn (S f))
    {| self := s; trace := tr; script := repeat RTick k ++ rest |}
  = loop n (run_turn (S f)) {| self := s; trace := tr; script := rest |}.
Proof. apply idle_passes. Qed.

Lemma X21_witness :
  loop (5 + 0) (run_turn 1)
    {| self := three_tracked; trace := []; script := repeat RTick 5 ++ [] |}
  = loop 0 (run_turn 1) {| self := three_tracked; trace := []; script := [] |}.
Proof.
  apply (supervisor_spins_at_target 5 0 0 three_tracked [] []).
  unfold can_fork. simpl. lia.
Defined.
